(** * responsefun: sum-over-states expressions and their evaluation

    A shallow embedding of [responsefun/sum_over_states.py] and
    [responsefun/evaluate_property.py], and the properties of the
    expression model, the parameter checker, the solve-request
    resolution and the two tensor assemblers that are proved about it. *)

From Stdlib Require Import ZArith Ascii String List Sorted Permutation Lia.
From stdpp Require Import base option list sorting strings.

Set Default Proof Using "Type".
Open Scope string_scope.
Open Scope list_scope.

(** ** Python exceptions and fallible computations *)

Module Py.

(** The exception classes raised in the two modules. *)
Inductive exc_class :=
| TypeError | ValueError | AssertionError | IndexError | KeyError
| AttributeError | ZeroDivisionError | NotImplementedError.

(** What an exception reports.  One tag per [raise] of the source. *)
Inductive message :=
| unexpected_keyword (name : string)
| dipole_moment_in_sos
| not_mul_or_add
| indices_not_correct
| components_not_canonical (order : nat)
| pairs_out_of_order
| real_expression_with_gamma
| final_state_mistaken
| unknown_response_equation
| complex_rhs_not_implemented
| only_hermitian_and_antihermitian
| cannot_be_evaluated
| excluded_case_without_divergence
| divergences_remain
| no_message.

Record exception := Raise { cls : exc_class; msg : message }.

Inductive result (A : Type) :=
| Ok (a : A)
| Err (e : exception).
Arguments Ok {A} a.
Arguments Err {A} e.

#[export] Instance result_ret : MRet result := fun A a => Ok a.
#[export] Instance result_bind : MBind result := fun A B f m =>
  match m with
  | Ok a => f a
  | Err e => Err e
  end.

Definition raise {A} (c : exc_class) (m : message) : result A := Err (Raise c m).

(** [assert cond] *)
Definition assert (cond : bool) : result unit :=
  if cond then Ok tt else raise AssertionError no_message.

Definition is_ok {A} (r : result A) : bool :=
  match r with Ok _ => true | Err _ => false end.

(** A [for] loop whose body may raise: the state is threaded through the
    iterations and the first exception ends the loop. *)
Fixpoint for_each {A S} (l : list A) (body : A -> S -> result S) (s : S) : result S :=
  match l with
  | [] => Ok s
  | x :: l' => s' ← body x s; for_each l' body s'
  end.

(** A Python float, as mantissa and binary exponent ([mantissa * 2^exponent]);
    it is zero exactly when its mantissa is. *)
Record float := mkfloat { mantissa : Z; exponent : Z }.

Definition float_eqb (x y : float) : bool :=
  ((mantissa x =? mantissa y) && (exponent x =? exponent y))%Z.

(** [x != 0.0], which is also the truth value of [x]. *)
Definition nonzero (x : float) : bool := negb (mantissa x =? 0)%Z.

(** [-x] and [0.0] *)
Definition fneg (x : float) : float := mkfloat (- mantissa x) (exponent x).
Definition fzero : float := mkfloat 0 0.

(** An argument that may be passed as one object or as a list of them. *)
Inductive arg_list (A : Type) :=
| Single (a : A)
| Listed (l : list A).
Arguments Single {A} a.
Arguments Listed {A} l.

(** [x if isinstance(x, list) else [x]] *)
Definition as_list {A} (x : arg_list A) : list A :=
  match x with
  | Single a => [a]
  | Listed l => l
  end.

(** [enumerate(l)] *)
Definition enumerate {A} (l : list A) : list (nat * A) := zip (seq 0 (length l)) l.

(** [seq[i]] for a Python sequence and a Python integer index. *)
Definition getitem {A} (l : list A) (i : Z) : result A :=
  let n := Z.of_nat (length l) in
  let j := if (i <? 0)%Z then (i + n)%Z else i in
  if ((0 <=? j) && (j <? n))%Z
  then match l !! Z.to_nat j with
       | Some x => Ok x
       | None => raise IndexError no_message
       end
  else raise IndexError no_message.

(** Binding of keyword arguments at a call: a keyword that the callee
    does not declare is a [TypeError]. *)
Fixpoint bind_keywords {V} (declared : list string) (given : list (string * V))
  : result (list (string * V)) :=
  match given with
  | [] => Ok []
  | (k, v) :: rest =>
      if bool_decide (k ∈ declared)
      then bound ← bind_keywords declared rest; Ok ((k, v) :: bound)
      else raise TypeError (unexpected_keyword k)
  end.

End Py.
Export Py.

(** ** itertools *)

Module itertools.
Section Iter.
Context {A : Type}.

(** Every element of [l] together with the others, in order. *)
Fixpoint selections (l : list A) : list (A * list A) :=
  match l with
  | [] => []
  | x :: xs => (x, xs) :: map (fun s => (fst s, x :: snd s)) (selections xs)
  end.

Fixpoint permutations_of_length (n : nat) (l : list A) : list (list A) :=
  match n with
  | 0 => [[]]
  | S n' =>
      flat_map (fun s => map (cons (fst s)) (permutations_of_length n' (snd s)))
               (selections l)
  end.

(** [itertools.permutations(l)]: all orderings by position, in
    lexicographic order of the positions. *)
Definition permutations (l : list A) : list (list A) :=
  permutations_of_length (length l) l.

(** [itertools.product(l, repeat=r)] *)
Fixpoint product (l : list A) (r : nat) : list (list A) :=
  match r with
  | 0 => [[]]
  | S r' => flat_map (fun x => map (cons x) (product l r')) l
  end.

Fixpoint suffixes (l : list A) : list (list A) :=
  match l with
  | [] => []
  | x :: xs => (x :: xs) :: suffixes xs
  end.

(** [itertools.combinations_with_replacement(l, r)] *)
Fixpoint combinations_with_replacement (l : list A) (r : nat) : list (list A) :=
  match r with
  | 0 => [[]]
  | S r' =>
      flat_map (fun s => match s with
                         | [] => []
                         | x :: _ => map (cons x) (combinations_with_replacement s r')
                         end)
               (suffixes l)
  end.

End Iter.
End itertools.

(** ** SymPy expressions *)

Module sympy.

(** The expression objects that occur in SOS expressions.  [Mul] and
    [Add] carry their [args] in SymPy's canonical order: numbers first,
    non-commutative factors (bras, kets, operators) in the order written. *)
#[warnings="-register-all"]
Inductive Basic :=
| Symbol (name : string)
| TransitionFrequency (state : string)
| Integer (z : Z)
| Float (x : float)
| ImaginaryUnit
| ComplexInfinity
| Bra (label : string)
| Ket (label : string)
| DipoleOperator (comp op_type : string)
| DipoleMoment (comp from_state to_state op_type : string)
| LeviCivita
| Pow (base exponent : Basic)
| Mul (factors : list Basic)
| Add (terms : list Basic).

(** [e.args]: the factors of a product, the terms of a sum, base and
    exponent of a power, the label of a bra or a ket; nothing for the
    other atoms. *)
Definition args (e : Basic) : list Basic :=
  match e with
  | Pow b x => [b; x]
  | Mul l => l
  | Add l => l
  | Bra s | Ket s => [Symbol s]
  | _ => []
  end.

Definition is_Add (e : Basic) : bool := match e with Add _ => true | _ => false end.
Definition is_Mul (e : Basic) : bool := match e with Mul _ => true | _ => false end.
Definition is_Pow (e : Basic) : bool := match e with Pow _ _ => true | _ => false end.
Definition is_DipoleOperator (e : Basic) : bool :=
  match e with DipoleOperator _ _ => true | _ => false end.
Definition is_DipoleMoment (e : Basic) : bool :=
  match e with DipoleMoment _ _ _ _ => true | _ => false end.
Definition is_LeviCivita (e : Basic) : bool :=
  match e with LeviCivita => true | _ => false end.

Definition str_eqb (a b : string) : bool := String.eqb a b.

(** [a == b]: structural equality. *)
Fixpoint eqb (a b : Basic) {struct a} : bool :=
  let fix eqb_list (l k : list Basic) {struct l} : bool :=
    match l, k with
    | [], [] => true
    | x :: l', y :: k' => eqb x y && eqb_list l' k'
    | _, _ => false
    end in
  match a, b with
  | Symbol s, Symbol t => str_eqb s t
  | TransitionFrequency s, TransitionFrequency t => str_eqb s t
  | Integer z, Integer w => (z =? w)%Z
  | Float x, Float y => float_eqb x y
  | ImaginaryUnit, ImaginaryUnit => true
  | ComplexInfinity, ComplexInfinity => true
  | Bra s, Bra t => str_eqb s t
  | Ket s, Ket t => str_eqb s t
  | DipoleOperator c o, DipoleOperator c' o' => str_eqb c c' && str_eqb o o'
  | DipoleMoment c f t o, DipoleMoment c' f' t' o' =>
      str_eqb c c' && str_eqb f f' && str_eqb t t' && str_eqb o o'
  | LeviCivita, LeviCivita => true
  | Pow b x, Pow b' x' => eqb b b' && eqb x x'
  | Mul l, Mul k => eqb_list l k
  | Add l, Add k => eqb_list l k
  | _, _ => false
  end.

(** [x in l] for a list or tuple of expressions. *)
Definition contains (l : list Basic) (x : Basic) : bool := existsb (eqb x) l.

(** The substitution and evaluation services of SymPy the modules call. *)
Class Ops := {
  (** [e.subs(pairs)] *)
  subs : list (Basic * Basic) -> Basic -> Basic;
  (** [e.subs(pairs, simultaneous=True)] *)
  subs_simultaneous : list (Basic * Basic) -> Basic -> Basic;
  (** [e.doit()] *)
  doit : Basic -> Basic
}.

(** [e + t], flattening a sum on the left as SymPy does. *)
Definition add (e t : Basic) : Basic :=
  match e with
  | Add l => Add (l ++ [t])
  | _ => Add [e; t]
  end.

(** Structural simultaneous replacement: the first pair whose left side
    equals a subexpression replaces it, and the replacement is not
    visited again. *)
Definition lookup_pair (pairs : list (Basic * Basic)) (e : Basic) : option Basic :=
  snd <$> find (fun p => eqb (fst p) e) pairs.

Fixpoint replace_all (pairs : list (Basic * Basic)) (e : Basic) {struct e} : Basic :=
  match lookup_pair pairs e with
  | Some new => new
  | None =>
      match e with
      | Pow b x => Pow (replace_all pairs b) (replace_all pairs x)
      | Mul l => Mul (map (replace_all pairs) l)
      | Add l => Add (map (replace_all pairs) l)
      | _ => e
      end
  end.

Definition structural : Ops :=
  {| subs := fun pairs e => fold_left (fun e p => replace_all [p] e) pairs e;
     subs_simultaneous := replace_all;
     doit := fun e => e |}.

End sympy.
Export sympy.

(** ** responsefun/sum_over_states.py *)

Module sum_over_states.

Definition ABC : list ascii := list_ascii_of_string "ABCDEFGHIJKLMNOPQRSTUVWXYZ".

(** [a.comp] of a dipole operator or moment, as its characters. *)
Definition comp_chars (a : Basic) : list ascii :=
  match a with
  | DipoleOperator c _ => list_ascii_of_string c
  | DipoleMoment c _ _ _ => list_ascii_of_string c
  | _ => []
  end.

(** [list.sort()] on one-character strings: ascending code points. *)
Definition char_le (a b : ascii) : bool := (nat_of_ascii a <=? nat_of_ascii b)%nat.

Fixpoint insert_char (c : ascii) (l : list ascii) : list ascii :=
  match l with
  | [] => [c]
  | d :: l' => if char_le c d then c :: d :: l' else d :: insert_char c l'
  end.

Fixpoint sort_chars (l : list ascii) : list ascii :=
  match l with
  | [] => []
  | c :: l' => insert_char c (sort_chars l')
  end.

Section Permutation_expansion.
Context `{Ops}.

(** The pairs [(old, new)] that send the identity ordering [first] of the
    (op, freq) pairs to the ordering [p]. *)
Definition subs_list (first p : list (Basic * Basic)) : list (Basic * Basic) :=
  flat_map (fun j => [(fst (fst j), fst (snd j)); (snd (fst j), snd (snd j))])
           (zip first p).

Definition check_pair_order (operators : list Basic) (perm_pairs : list (Basic * Basic))
  : result unit :=
  for_each (zip operators perm_pairs)
    (fun op_pair _ =>
       if negb (eqb (fst op_pair) (fst (snd op_pair)))
       then raise ValueError pairs_out_of_order
       else Ok tt) tt.

Definition _build_sos_via_permutation (term : Basic) (perm_pairs : list (Basic * Basic))
  : result Basic :=
  _ ← assert (is_Mul term);
  let operators := List.filter is_DipoleOperator (args term) in
  _ ← check_pair_order operators perm_pairs;
  let perms := itertools.permutations perm_pairs in
  Ok (fold_left
        (fun sos_expr ip =>
           if (0 <? fst ip)%nat
           then add sos_expr (subs_simultaneous (subs_list (hd [] perms) (snd ip)) term)
           else sos_expr)
        (enumerate perms) term).

End Permutation_expansion.

(** A state excluded from the summation: a symbol or the number of an
    excited state. *)
Inductive excluded_state :=
| state_symbol (name : string)
| state_number (i : Z).

Record SumOverStates := {
  _summation_indices : list string;
  excluded_states : list excluded_state;
  _operators : list Basic;
  _components : list ascii;
  _order : nat;
  _transition_frequencies : list Basic;
  correlation_btw_freq : option (list (Basic * Basic));
  expr : Basic
}.

(** The first loop of the [Add] branch: operators are collected once
    each, with their components; a [DipoleMoment] factor is refused. *)
Definition collect_from_sum (terms : list Basic) : result (list Basic * list ascii) :=
  for_each (flat_map args terms)
    (fun a oc =>
       let oc' :=
         if is_DipoleOperator a && negb (contains (fst oc) a)
         then (fst oc ++ [a], snd oc ++ comp_chars a)
         else oc in
       if is_DipoleMoment a then raise TypeError dipole_moment_in_sos else Ok oc')
    ([], []).

(** The component loop of the [Mul] branch. *)
Definition collect_from_product (factors : list Basic) : result (list ascii) :=
  for_each factors
    (fun a comps =>
       if is_DipoleOperator a then Ok (comps ++ comp_chars a)
       else if is_DipoleMoment a then raise TypeError dipole_moment_in_sos
       else Ok comps)
    [].

(** [Bra(index) not in factors or Ket(index) not in factors] *)
Definition index_missing (index : string) (factors : list Basic) : bool :=
  negb (contains factors (Bra index)) || negb (contains factors (Ket index)).

Definition check_indices_of_sum (indices : list string) (terms : list Basic) : result unit :=
  for_each indices
    (fun index _ =>
       for_each terms
         (fun arg _ =>
            if index_missing index (args arg)
            then raise ValueError indices_not_correct
            else Ok tt) tt) tt.

Definition check_indices_of_product (indices : list string) (factors : list Basic)
  : result unit :=
  for_each indices
    (fun index _ =>
       if index_missing index factors
       then raise ValueError indices_not_correct
       else Ok tt) tt.

(** Lines 124-164: operators, sorted components, index validation. *)
Definition validate_expression (e : Basic) (indices : list string)
  : result (list Basic * list ascii) :=
  match e with
  | Add terms =>
      oc ← collect_from_sum terms;
      let components := sort_chars (snd oc) in
      _ ← check_indices_of_sum indices terms;
      Ok (fst oc, components)
  | Mul factors =>
      let operators := List.filter is_DipoleOperator factors in
      comps ← collect_from_product factors;
      let components := sort_chars comps in
      _ ← check_indices_of_product indices factors;
      Ok (operators, components)
  | _ => raise TypeError not_mul_or_add
  end.

(** Lines 166-171. *)
Definition check_components (components : list ascii) : result nat :=
  let order := length components in
  if negb (bool_decide (components = take order ABC))
  then raise ValueError (components_not_canonical order)
  else Ok order.

Section Constructor.
Context `{Ops}.

Definition SumOverStates__init__
    (e : Basic) (summation_indices : arg_list string)
    (correlation : option (list (Basic * Basic)))
    (perm_pairs : option (list (Basic * Basic)))
    (excluded : option (arg_list excluded_state)) : result SumOverStates :=
  let indices := as_list summation_indices in
  let excluded_list := match excluded with None => [] | Some x => as_list x end in
  oc ← validate_expression e indices;
  order ← check_components (snd oc);
  let transition_frequencies := map TransitionFrequency indices in
  full ← match perm_pairs with
         | Some (p :: ps) => _build_sos_via_permutation e (p :: ps)
         | _ => Ok e
         end;
  Ok {| _summation_indices := indices;
        excluded_states := excluded_list;
        _operators := fst oc;
        _components := snd oc;
        _order := order;
        _transition_frequencies := transition_frequencies;
        correlation_btw_freq := correlation;
        expr := doit full |}.

End Constructor.

(** The keyword-only parameters of [SumOverStates.__init__]
    (line 79). *)
Definition SumOverStates_keywords : list string :=
  ["correlation_btw_freq"; "perm_pairs"; "excluded_states"].

(** The objects the callers pass by keyword. *)
Inductive keyword_value :=
| kw_pairs (o : option (list (Basic * Basic)))
| kw_states (o : option (arg_list excluded_state))
| kw_cases (o : option (list (string * string))).

(** The value bound to a parameter, [None] being its default. *)
Definition bound_value (name : string) (bound : list (string * keyword_value))
  : option keyword_value :=
  snd <$> find (fun kv => str_eqb (fst kv) name) bound.

(** The parameters that hold pairs; an object of another kind fails the
    assertions on them. *)
Definition pairs_parameter (name : string) (bound : list (string * keyword_value))
  : result (option (list (Basic * Basic))) :=
  match bound_value name bound with
  | None => Ok None
  | Some (kw_pairs o) => Ok o
  | Some _ => raise AssertionError no_message
  end.

Definition states_parameter (name : string) (bound : list (string * keyword_value))
  : result (option (arg_list excluded_state)) :=
  match bound_value name bound with
  | None => Ok None
  | Some (kw_states o) => Ok o
  | Some _ => raise AssertionError no_message
  end.

(** The call [SumOverStates(e, summation_indices, **keywords)]: the
    keywords are bound to the parameters, then the body runs. *)
Definition SumOverStates_call `{Ops} (e : Basic) (summation_indices : arg_list string)
    (keywords : list (string * keyword_value)) : result SumOverStates :=
  bound ← bind_keywords SumOverStates_keywords keywords;
  correlation ← pairs_parameter "correlation_btw_freq" bound;
  perm_pairs ← pairs_parameter "perm_pairs" bound;
  excluded ← states_parameter "excluded_states" bound;
  SumOverStates__init__ e summation_indices correlation perm_pairs excluded.

End sum_over_states.
Export sum_over_states.

(** ** responsefun/evaluate_property.py *)

Module evaluate_property.

(** *** The symbols of [symbols_and_labels.py] the module refers to *)

Definition O : string := "0".
Definition gamma : Basic := Symbol "\gamma".

(** [-o] *)
Definition neg (o : Basic) : Basic := Mul [Integer (-1); o].

(** [1.0*gamma*I] and [-1.0*gamma*I] *)
Definition plus_i_gamma : Basic := Mul [Float (mkfloat 1 0); ImaginaryUnit; gamma].
Definition minus_i_gamma : Basic := Mul [Float (mkfloat (-1) 0); ImaginaryUnit; gamma].

(** *** [_check_omegas_and_final_state] *)

(** [arg_list]: the factors of every term of a sum, or the [args] of
    any other expression. *)
Definition factor_list (sos_expr : Basic) : list Basic :=
  match sos_expr with
  | Add terms => flat_map args terms
  | _ => args sos_expr
  end.

(** [denom_list]: the base of every power among the factors. *)
Definition denom_list (sos_expr : Basic) : list Basic :=
  flat_map (fun a => match a with Pow b _ => [b] | _ => [] end) (factor_list sos_expr).

(** [check_dict]: for each supplied frequency, whether it occurs in a
    denominator or in a correlation.  The source computes it and raises
    nothing from it. *)
Definition check_dict (sos_expr : Basic) (omegas correlation : list (Basic * Basic))
  : list (Basic * bool) :=
  let sum_freq := flat_map (fun tup => args (snd tup)) correlation in
  map (fun o =>
         (fst o,
          existsb (fun denom =>
                     contains (args denom) (fst o) || contains (args denom) (neg (fst o))
                     || contains sum_freq (fst o) || contains sum_freq (neg (fst o)))
                  (denom_list sos_expr)))
      omegas.

(** A denominator without [+1.0*i*gamma] and without [-1.0*i*gamma]. *)
Definition undamped (denom : Basic) : bool :=
  negb (contains (args denom) plus_i_gamma) && negb (contains (args denom) minus_i_gamma).

Definition check_damping (sos_expr : Basic) (gamma_val : float) : result unit :=
  if nonzero gamma_val
  then for_each (denom_list sos_expr)
         (fun denom _ =>
            if undamped denom
            then raise ValueError real_expression_with_gamma
            else Ok tt) tt
  else Ok tt.

Definition check_final_state (sos_expr : Basic) (final_state : option (string * Z))
  : result unit :=
  match final_state with
  | Some fs =>
      let check_f :=
        existsb (fun a => eqb a (Bra (fst fs)) || eqb a (Ket (fst fs)))
                (factor_list sos_expr) in
      if negb check_f then raise ValueError final_state_mistaken else Ok tt
  | None => Ok tt
  end.

Definition _check_omegas_and_final_state
    (sos_expr : Basic) (omegas correlation : list (Basic * Basic))
    (gamma_val : float) (final_state : option (string * Z)) : result unit :=
  let _ := check_dict sos_expr omegas correlation in
  _ ← check_damping sos_expr gamma_val;
  check_final_state sos_expr final_state.



(** *** The collaborators of the evaluation

    The electronic-structure state, the response solver and the numeric
    evaluation of SymPy expressions are outside the repository. *)

Class Collaborators := {
  (** amplitude and response vectors *)
  Vec : Type;
  (** operator slices handed to the B-matrix product *)
  Dip : Type;
  (** [solve_response] for the matrix and the solver options of the call,
      applied to a right-hand side, a frequency and a damping *)
  solve_response : Vec -> float -> float -> Vec;
  (** [RV(v)] *)
  RV : Vec -> Vec;
  (** [bmatrix_vector_product(property_method, mp, dip, vec)] *)
  bmatrix_vector_product : Dip -> Vec -> Vec;
  (** [np.array(adcc_prop_dict[op_type].mtms)[c]] *)
  mtms : string -> list nat -> Vec;
  (** [np.array(adcc_prop_dict[op_type].dips)[c]] *)
  dips : string -> list nat -> Dip;
  (** [adcc_prop_dict[op_type].op_dim] *)
  op_dim : string -> nat;
  (** [state.excitation_vector] *)
  excitation_vector : list Vec;
  (** [state.excitation_energy_uncorrected] *)
  excitation_energy_uncorrected : list float;
  (** [float(e.subs(all_omegas))] *)
  numeric_frequency : Basic -> list (Basic * Basic) -> float;
  (** [float(im(e.subs(gamma, gamma_val)))] *)
  numeric_damping : Basic -> float -> float
}.

(** *** Solve requests *)

Inductive equation_kind :=
| MTM
| S2S_MTM
| other_kind (name : string).

(** The entries of a request key after the first four. *)
Inductive key_item :=
| item_ResponseVector
| item_symbol (name : string)
| item_number (no : Z).

(** A key as [build_tree] returns it: frequency and damping symbolic. *)
Record symbolic_key := {
  sym_kind : equation_kind;
  sym_op_type : string;
  sym_frequency : Basic;
  sym_damping : Basic;
  sym_rest : list key_item
}.

(** A key after the frequencies and the damping have been inserted:
    the first two entries, [om], [gam], and the entries from the fifth on. *)
Record solve_key := {
  (** [k[0]] and [k[1]] *)
  kind : equation_kind;
  key_op_type : string;
  key_frequency : float;
  key_damping : float;
  (** [k[4]], [k[5]], ... *)
  key_rest : list key_item
}.

Definition kind_eqb (a b : equation_kind) : bool :=
  match a, b with
  | MTM, MTM => true
  | S2S_MTM, S2S_MTM => true
  | other_kind s, other_kind t => str_eqb s t
  | _, _ => false
  end.

Definition item_eqb (a b : key_item) : bool :=
  match a, b with
  | item_ResponseVector, item_ResponseVector => true
  | item_symbol s, item_symbol t => str_eqb s t
  | item_number i, item_number j => (i =? j)%Z
  | _, _ => false
  end.

Fixpoint items_eqb (l k : list key_item) : bool :=
  match l, k with
  | [], [] => true
  | a :: l', b :: k' => item_eqb a b && items_eqb l' k'
  | _, _ => false
  end.

Definition key_eqb (a b : solve_key) : bool :=
  kind_eqb (kind a) (kind b) && str_eqb (key_op_type a) (key_op_type b)
  && float_eqb (key_frequency a) (key_frequency b)
  && float_eqb (key_damping a) (key_damping b)
  && items_eqb (key_rest a) (key_rest b).

(** [d[key].append(v)] if the key is present, [d[key] = [v]] otherwise;
    the dictionary keeps insertion order. *)
Fixpoint dict_append (d : list (solve_key * list Z)) (key : solve_key) (v : Z)
  : list (solve_key * list Z) :=
  match d with
  | [] => [(key, [v])]
  | (k, vs) :: d' =>
      if key_eqb k key then (k, vs ++ [v]) :: d' else (k, vs) :: dict_append d' key v
  end.

(** The index tuples of an array of the given shape, in row-major order:
    [itertools.product] of the ranges of its axes. *)
Fixpoint index_tuples (shape : list nat) : list (list nat) :=
  match shape with
  | [] => [[]]
  | s :: shape' => flat_map (fun i => map (cons i) (index_tuples shape')) (seq 0 s)
  end.

Section Resolution.
Context `{Collaborators}.

(** An object array of vectors, one per Cartesian component tuple. *)
Record response := {
  response_shape : list nat;
  response_entries : list (list nat * Vec)
}.

(** [response[c]] *)
Definition response_at (r : response) (c : list nat) : result Vec :=
  match find (fun e => bool_decide (fst e = c)) (response_entries r) with
  | Some e => Ok (snd e)
  | None => raise IndexError no_message
  end.

(** [response_dict[no]] *)
Definition dict_get (d : list (Z * response)) (no : Z) : result response :=
  match find (fun e => (fst e =? no)%Z) d with
  | Some e => Ok (snd e)
  | None => raise KeyError no_message
  end.

(** [response_dict[vv] = response] *)
Fixpoint dict_set (d : list (Z * response)) (vv : Z) (r : response) : list (Z * response) :=
  match d with
  | [] => [(vv, r)]
  | (k, x) :: d' => if (k =? vv)%Z then (k, r) :: d' else (k, x) :: dict_set d' vv r
  end.

(** One call of the response solver, with the request it serves. *)
Record solve_call := {
  for_request : solve_key;
  call_rhs : Vec;
  call_omega : float;
  call_gamma : float
}.

(** Computations that dispatch solves: the calls made so far are kept
    also when an exception ends the computation. *)
Definition traced (A : Type) : Type := list solve_call * result A.

Definition traced_ret {A} (a : A) : traced A := ([], Ok a).

Definition traced_bind {A B} (m : traced A) (f : A -> traced B) : traced B :=
  match snd m with
  | Ok a => (fst m ++ fst (f a), snd (f a))
  | Err e => (fst m, Err e)
  end.

Definition lift {A} (r : result A) : traced A := ([], r).

Definition dispatch (k : solve_key) (rhs : Vec) (omega gam : float) : traced Vec :=
  ([{| for_request := k; call_rhs := rhs; call_omega := omega; call_gamma := gam |}],
   Ok (solve_response rhs omega gam)).

(** [for c in components: response[c] = ...] *)
Fixpoint fill (components : list (list nat)) (entry : list nat -> traced Vec)
  : traced (list (list nat * Vec)) :=
  match components with
  | [] => traced_ret []
  | c :: cs =>
      traced_bind (entry c) (fun v =>
      traced_bind (fill cs entry) (fun rest =>
      traced_ret ((c, v) :: rest)))
  end.

(** [for vv in v: response_dict[vv] = response] *)
Definition bind_placeholders (d : list (Z * response)) (v : list Z) (r : response)
  : list (Z * response) :=
  fold_left (fun d vv => dict_set d vv r) v d.

(** The body of the loop over [rvecs_dict_mod.items()] (lines 229-286). *)
Definition resolve_request (final_state : option (string * Z))
    (k : solve_key) (v : list Z) (response_dict : list (Z * response))
  : traced (list (Z * response)) :=
  let op_type := key_op_type k in
  match kind k with
  | MTM =>
      let response_shape := repeat 3 (op_dim op_type) in
      let components := index_tuples response_shape in
      traced_bind
        (if negb (nonzero (key_damping k))
         then fill components (fun c =>
                dispatch k (mtms op_type c) (fneg (key_frequency k)) fzero)
         else fill components (fun c =>
                dispatch k (RV (mtms op_type c)) (fneg (key_frequency k))
                         (fneg (key_damping k))))
        (fun entries =>
           traced_ret (bind_placeholders response_dict v
                         {| response_shape := response_shape;
                            response_entries := entries |}))
  | S2S_MTM =>
      traced_bind (lift (getitem (key_rest k) 0)) (fun k4 =>
      if item_eqb k4 item_ResponseVector then
        traced_bind (lift (getitem (key_rest k) 1)) (fun no =>
        traced_bind (lift (match no with
                           | item_number z => dict_get response_dict z
                           | _ => raise KeyError no_message
                           end)) (fun rvecs =>
        if negb (nonzero (key_damping k)) then
          let product_vecs_shape := repeat 3 (op_dim op_type) ++ response_shape rvecs in
          let components := index_tuples product_vecs_shape in
          traced_bind
            (fill components (fun c =>
               traced_bind (lift (response_at rvecs (drop (op_dim op_type) c))) (fun x =>
               let rhs := bmatrix_vector_product
                            (dips op_type (take (op_dim op_type) c)) x in
               dispatch k rhs (fneg (key_frequency k)) (fneg (key_damping k)))))
            (fun entries =>
               traced_ret (bind_placeholders response_dict v
                             {| response_shape := product_vecs_shape;
                                response_entries := entries |}))
        else lift (raise NotImplementedError complex_rhs_not_implemented)))
      else
        match final_state with
        | None => lift (raise TypeError no_message)
        | Some fs =>
            if item_eqb k4 (item_symbol (fst fs)) then
              let product_vecs_shape := repeat 3 (op_dim op_type) in
              let components := index_tuples product_vecs_shape in
              traced_bind
                (fill components (fun c =>
                   traced_bind (lift (getitem excitation_vector (snd fs))) (fun x =>
                   let product_vec := bmatrix_vector_product (dips op_type c) x in
                   if negb (nonzero (key_damping k))
                   then dispatch k product_vec (fneg (key_frequency k)) fzero
                   else dispatch k (RV product_vec) (fneg (key_frequency k))
                                 (fneg (key_damping k)))))
                (fun entries =>
                   traced_ret (bind_placeholders response_dict v
                                 {| response_shape := product_vecs_shape;
                                    response_entries := entries |}))
            else lift (raise ValueError unknown_response_equation)
        end)
  | other_kind _ => lift (raise ValueError unknown_response_equation)
  end.

(** Lines 215-226: insert the frequencies and the damping into a key. *)
Definition substitute_key (all_omegas : list (Basic * Basic)) (gamma_val : float)
    (k : symbolic_key) : result solve_key :=
  let om := numeric_frequency (sym_frequency k) all_omegas in
  let gam := numeric_damping (sym_damping k) gamma_val in
  if negb (nonzero gam) && nonzero gamma_val
  then raise ValueError real_expression_with_gamma
  else Ok {| kind := sym_kind k; key_op_type := sym_op_type k;
             key_frequency := om; key_damping := gam; key_rest := sym_rest k |}.

(** [rvecs_dict_mod]: requests that became equal are grouped. *)
Definition group_requests (all_omegas : list (Basic * Basic)) (gamma_val : float)
    (rvecs_dict : list (symbolic_key * Z)) : result (list (solve_key * list Z)) :=
  for_each rvecs_dict
    (fun kv d => new_key ← substitute_key all_omegas gamma_val (fst kv);
                 Ok (dict_append d new_key (snd kv)))
    [].

Fixpoint traced_for {A S} (l : list A) (body : A -> S -> traced S) (s : S) : traced S :=
  match l with
  | [] => traced_ret s
  | x :: l' => traced_bind (body x s) (traced_for l' body)
  end.

(** The loop over [rvecs_dict_list] (lines 210-286). *)
Definition resolve_tree (final_state : option (string * Z))
    (all_omegas : list (Basic * Basic)) (gamma_val : float)
    (rvecs_dict_list : list (Basic * list (symbolic_key * Z)))
  : traced (list (Z * response)) :=
  traced_for rvecs_dict_list
    (fun tup response_dict =>
       traced_bind (lift (group_requests all_omegas gamma_val (snd tup)))
         (fun rvecs_dict_mod =>
            traced_for rvecs_dict_mod
              (fun kv rd => resolve_request final_state (fst kv) (snd kv) rd)
              response_dict))
    [].

End Resolution.

(** *** Result tensors *)

Inductive dtype := float64 | complex128.

(** A dense array: its shape, its dtype and its cells by index tuple. *)
Record ndarray (N : Type) := {
  shape : list nat;
  array_dtype : dtype;
  data : list nat -> N
}.
Arguments shape {N} _.
Arguments array_dtype {N} _.
Arguments data {N} _ _.

(** NumPy, and the property arrays it holds. *)
Class Numpy := {
  (** the content of a cell *)
  Num : Type;
  zero : Num;
  plus : Num -> Num -> Num;
  times : float -> Num -> Num;
  (** the new content of a cell of the given dtype after [cell += res],
      [res] an expression left by a substitution *)
  item_iadd : dtype -> Num -> Basic -> result Num;
  (** arrays of moments and of denominators *)
  Arr : Type;
  (** [np.delete(array, index, axis=axis)] *)
  np_delete : Arr -> Z -> nat -> result Arr;
  (** [np.einsum(subscripts, *arrays)] *)
  einsum : string -> list Arr -> result (ndarray Num)
}.

Section Tensors.
Context `{Numpy}.

(** [np.zeros(shape, dtype=dtype)] *)
Definition np_zeros (sh : list nat) (dt : dtype) : ndarray Num :=
  {| shape := sh; array_dtype := dt; data := fun _ => zero |}.

(** A full index tuple within the bounds of the shape. *)
Fixpoint in_bounds (sh : list nat) (c : list nat) : bool :=
  match sh, c with
  | [], [] => true
  | n :: sh', i :: c' => (i <? n)%nat && in_bounds sh' c'
  | _, _ => false
  end.

(** [a[c]] *)
Definition get_cell (a : ndarray Num) (c : list nat) : result Num :=
  if in_bounds (shape a) c then Ok (data a c) else raise IndexError no_message.

(** [a[c] = v] *)
Definition set_cell (a : ndarray Num) (c : list nat) (v : Num) : result (ndarray Num) :=
  if in_bounds (shape a) c
  then Ok {| shape := shape a; array_dtype := array_dtype a;
             data := fun i => if bool_decide (i = c) then v else data a i |}
  else raise IndexError no_message.

(** [a[c] += res] *)
Definition iadd_cell (a : ndarray Num) (c : list nat) (res : Basic)
  : result (ndarray Num) :=
  old ← get_cell a c;
  new ← item_iadd (array_dtype a) old res;
  set_cell a c new.

(** A shape that broadcasts to [sh]: its axes, aligned at the end, have
    the same length or length one. *)
Fixpoint broadcasts_rev (small big : list nat) : bool :=
  match small, big with
  | [], _ => true
  | m :: small', n :: big' => ((m =? n)%nat || (m =? 1)%nat) && broadcasts_rev small' big'
  | _ :: _, [] => false
  end.

Definition broadcasts (small big : list nat) : bool :=
  broadcasts_rev (rev small) (rev big).

(** The cell of the smaller array read for the index [i] of the larger. *)
Definition broadcast_index (small : list nat) (i : list nat) : list nat :=
  zip_with (fun m j => if (m =? 1)%nat then 0%nat else j) small
           (drop (length i - length small) i).

(** [factor * a] *)
Definition scale (factor : float) (a : ndarray Num) : ndarray Num :=
  {| shape := shape a; array_dtype := array_dtype a;
     data := fun i => times factor (data a i) |}.

(** [a += b]: in place, so the shape and the dtype of [a] stay; a complex
    array is not added into a real one. *)
Definition iadd_array (a b : ndarray Num) : result (ndarray Num) :=
  if negb (broadcasts (shape b) (shape a)) then raise ValueError no_message
  else match array_dtype b, array_dtype a with
       | complex128, float64 => raise TypeError no_message
       | _, _ =>
           Ok {| shape := shape a; array_dtype := array_dtype a;
                 data := fun i => plus (data a i)
                                       (data b (broadcast_index (shape b) i)) |}
       end.

End Tensors.

(** *** Tensor assembly by substitution *)

(** [list(root_expr.args)] for a sum, [[root_expr]] otherwise. *)
Definition term_list_of (root_expr : Basic) : list Basic :=
  match root_expr with
  | Add terms => terms
  | _ => [root_expr]
  end.

(** The component tuples to fill. *)
Definition components_to_fill (symmetric : bool) (order : nat) : list (list nat) :=
  if symmetric
  then itertools.combinations_with_replacement [0; 1; 2]%nat order
  else itertools.product [0; 1; 2]%nat order.

(** [dtype = float], or [complex] when [gamma_val != 0.0]. *)
Definition result_dtype (gamma_val : float) : dtype :=
  if nonzero gamma_val then complex128 else float64.

Section Substitution_path.
Context `{Numpy}.

(** [for p in permutations(c): res_tens[p] = res_tens[c]] *)
Definition copy_to_permutations (c : list nat) (res_tens : ndarray Num)
  : result (ndarray Num) :=
  for_each (itertools.permutations c)
    (fun p t => v ← get_cell t c; set_cell t p v) res_tens.

(** The end of the loop body: the sentinel check and the accumulation. *)
Definition accumulate (c : list nat) (res : Basic) (res_tens : ndarray Num)
  : result (ndarray Num) :=
  if eqb res ComplexInfinity
  then raise ZeroDivisionError no_message
  else iadd_cell res_tens c res.

Section ISR.
(** Lines 308-436 for one component tuple and one term: the substitution
    map is built from the solved response vectors and the property
    arrays, and inserted into the term; [substituted c term] is
    [term.subs(subs_dict)], or the exception raised on the way. *)
Variable substituted : list nat -> Basic -> result Basic.

(** Lines 293-450 of [evaluate_property_isr]. *)
Definition assemble_isr (order : nat) (gamma_val : float) (symmetric : bool)
    (root_expr : Basic) : result (ndarray Num) :=
  let res_tens := np_zeros (repeat 3%nat order) (result_dtype gamma_val) in
  let term_list := term_list_of root_expr in
  for_each (components_to_fill symmetric order)
    (fun c res_tens =>
       res_tens ← for_each term_list
                    (fun term res_tens =>
                       res ← substituted c term;
                       accumulate c res res_tens)
                    res_tens;
       if symmetric then copy_to_permutations c res_tens else Ok res_tens)
    res_tens.

End ISR.

(** A term of [evaluate_property_sos] with its own indices of summation. *)
Record term_dict := {
  term_expr : Basic;
  term_summation_indices : list string;
  term_transition_frequencies : list Basic
}.

(** The second entry of an excluded case after [final_state] has been
    inserted: the number of a state, or a symbol. *)
Inductive case_value :=
| case_number (i : Z)
| case_symbol (name : string).

(** [modified_excluded_cases] (lines 566-568). *)
Definition modified_excluded_cases (final_state : option (string * Z))
    (excluded_cases : list (string * string)) : result (list (string * case_value)) :=
  for_each excluded_cases
    (fun tup acc =>
       match final_state with
       | None => raise TypeError no_message
       | Some fs =>
           Ok (acc ++ [if str_eqb (snd tup) (fst fs)
                       then (fst tup, case_number (snd fs))
                       else (fst tup, case_symbol (snd tup))])
       end)
    [].

(** [set(modified_excluded_cases).intersection(set(state_map.items()))]
    is not empty. *)
Definition is_excluded (modified : list (string * case_value))
    (state_map : list (string * nat)) : bool :=
  existsb (fun item =>
             existsb (fun m => str_eqb (fst m) (fst item)
                               && match snd m with
                                  | case_number z => (z =? Z.of_nat (snd item))%Z
                                  | case_symbol _ => false
                                  end)
                     modified)
          state_map.

Section SOS.
(** Lines 596-640 for one term, one assignment of states to its indices
    of summation and one component tuple: [mod_expr.xreplace(subs_dict)],
    or the exception raised on the way. *)
Variable replaced : term_dict -> list (string * nat) -> list nat -> result Basic.
(** [len(state.excitation_energy_uncorrected)] *)
Variable number_of_states : nat.

(** Lines 556-648 of [evaluate_property_sos]. *)
Definition assemble_sos (order : nat) (gamma_val : float) (symmetric : bool)
    (final_state : option (string * Z)) (excluded_cases : list (string * string))
    (term_list : list term_dict) : result (ndarray Num) :=
  let res_tens := np_zeros (repeat 3%nat order) (result_dtype gamma_val) in
  let components := components_to_fill symmetric order in
  modified ← modified_excluded_cases final_state excluded_cases;
  for_each term_list
    (fun td res_tens =>
       let indices := itertools.product (seq 0 number_of_states)
                        (length (term_summation_indices td)) in
       for_each indices
         (fun i res_tens =>
            let state_map := zip (term_summation_indices td) i in
            if is_excluded modified state_map then Ok res_tens
            else
              for_each components
                (fun c res_tens =>
                   res ← replaced td state_map c;
                   res_tens ← accumulate c res res_tens;
                   if symmetric then copy_to_permutations c res_tens else Ok res_tens)
                res_tens)
         res_tens)
    res_tens.

End SOS.
End Substitution_path.

(** *** Tensor assembly by Einstein summation *)

(** A recorded or removed divergence: the index of summation and the
    number of the state. *)
Definition divergence : Type := string * Z.

Definition divergence_eqb (a b : divergence) : bool :=
  str_eqb (fst a) (fst b) && (snd a =? snd b)%Z.

(** [rd in divergences] *)
Definition recorded (divergences : list divergence) (rd : divergence) : bool :=
  existsb (divergence_eqb rd) divergences.

(** [l.remove(rd)]: the first occurrence goes; [ValueError] without one. *)
Fixpoint list_remove (l : list divergence) (rd : divergence) : result (list divergence) :=
  match l with
  | [] => raise ValueError no_message
  | d :: l' =>
      if divergence_eqb d rd then Ok l'
      else rest ← list_remove l' rd; Ok (d :: rest)
  end.

(** [list(set(l))]: every element once. *)
Fixpoint set_to_list (l : list divergence) : list divergence :=
  match l with
  | [] => []
  | d :: l' => if recorded l' d then set_to_list l' else d :: set_to_list l'
  end.

(** Lines 843-853: the removed cases are reconciled with the recorded
    divergences. *)
Definition reconcile (removed_divergences divergences : list divergence) : result unit :=
  divergences_copied ←
    for_each removed_divergences
      (fun rd copied =>
         if negb (recorded divergences rd)
         then raise ValueError excluded_case_without_divergence
         else list_remove copied rd)
      divergences;
  if negb (length divergences =? 0)%nat
  then if negb (length divergences_copied =? 0)%nat
       then raise ZeroDivisionError divergences_remain
       else Ok tt
  else Ok tt.

Section Einstein_path.
Context `{Numpy}.

(** An entry of [einsum_list]: the labels of the state axes, the labels
    of the component axes and the array. *)
Record einsum_entry := {
  state_str : string;
  comp_str : string;
  entry_array : Arr
}.

(** Lines 833-840: the excluded cases are deleted from one array. *)
Definition remove_excluded (excluded_cases : option (list (string * string)))
    (final_state : option (string * Z)) (entry : einsum_entry)
    (removed_divergences : list divergence) : result (Arr * list divergence) :=
  match excluded_cases with
  | Some (case0 :: cases) =>
      if negb (str_eqb (state_str entry) "") then
        for_each (case0 :: cases)
          (fun case acc =>
             match String.index 0 (fst case) (state_str entry) with
             | Some axis =>
                 if negb (str_eqb (snd case) O) then
                   match final_state with
                   | None => raise TypeError no_message
                   | Some fs =>
                       _ ← assert (str_eqb (snd case) (fst fs));
                       array ← np_delete (fst acc) (snd fs) axis;
                       Ok (array, snd acc ++ [(fst case, snd fs)])
                   end
                 else Ok acc
             | None => Ok acc
             end)
          (entry_array entry, removed_divergences)
      else Ok (entry_array entry, removed_divergences)
  | _ => Ok (entry_array entry, removed_divergences)
  end.

(** The state of the loop over [einsum_list]. *)
Record plan := {
  einsum_left : string;
  einsum_right : string;
  array_list : list Arr;
  removed : list divergence
}.

(** Lines 823-841. *)
Definition build_plan (excluded_cases : option (list (string * string)))
    (final_state : option (string * Z)) (einsum_list : list einsum_entry) : result plan :=
  for_each einsum_list
    (fun tup p =>
       ar ← remove_excluded excluded_cases final_state tup (removed p);
       Ok {| einsum_left := (einsum_left p ++ state_str tup ++ comp_str tup ++ ",")%string;
             einsum_right := (einsum_right p ++ comp_str tup)%string;
             array_list := array_list p ++ [fst ar];
             removed := snd ar |})
    {| einsum_left := ""; einsum_right := ""; array_list := []; removed := [] |}.

(** [s[:-1]] *)
Fixpoint drop_last (s : string) : string :=
  match s with
  | EmptyString => EmptyString
  | String c EmptyString => EmptyString
  | String c s' => String c (drop_last s')
  end.

(** Lines 856-860: the subscripts handed to [np.einsum]. *)
Definition einsum_string (p : plan) : string :=
  let einsum_right_list :=
    sort_chars (remove_dups (list_ascii_of_string (einsum_right p))) in
  (drop_last (einsum_left p) ++ " -> " ++ string_of_list_ascii einsum_right_list)%string.

(** Lines 821-862 for one term: from its [einsum_list], its numeric
    [factor] and its recorded [divergences] to the updated tensor. *)
Definition contract_term (excluded_cases : option (list (string * string)))
    (final_state : option (string * Z))
    (einsum_list : list einsum_entry) (factor : float) (divergences : list divergence)
    (res_tens : ndarray Num) : result (ndarray Num) :=
  p ← build_plan excluded_cases final_state einsum_list;
  _ ← reconcile (set_to_list (removed p)) divergences;
  contribution ← einsum (einsum_string p) (array_list p);
  iadd_array res_tens (scale factor contribution).

Section Terms.
(** Lines 740-819 for one term: its [einsum_list], [factor] and
    [divergences], or the exception raised while they are built. *)
Variable einsum_list_of : Basic -> result (list einsum_entry * float * list divergence).

(** Lines 729-864 of [evaluate_property_sos_fast]. *)
Definition assemble_sos_fast (order : nat) (gamma_val : float)
    (excluded_cases : option (list (string * string)))
    (final_state : option (string * Z)) (term_list : list Basic)
  : result (ndarray Num) :=
  let res_tens := np_zeros (repeat 3%nat order) (result_dtype gamma_val) in
  for_each term_list
    (fun term res_tens =>
       efd ← einsum_list_of term;
       contract_term excluded_cases final_state
                     (fst (fst efd)) (snd (fst efd)) (snd efd) res_tens)
    res_tens.

End Terms.
End Einstein_path.

(** *** The helpers of the module *)

(** [d[key] = value] for a dictionary kept as its items in insertion
    order: the value of a present key is replaced in place. *)
Fixpoint dict_put {K V} (same : K -> K -> bool) (d : list (K * V)) (key : K) (value : V)
  : list (K * V) :=
  match d with
  | [] => [(key, value)]
  | (k, v) :: d' =>
      if same k key then (k, value) :: d' else (k, v) :: dict_put same d' key value
  end.

(** [d[key]] *)
Definition dict_item {K V} (same : K -> K -> bool) (d : list (K * V)) (key : K) : result V :=
  match find (fun kv => same (fst kv) key) d with
  | Some kv => Ok (snd kv)
  | None => raise KeyError no_message
  end.

(** [x in l] for a list of names. *)
Definition name_in (l : list string) (x : string) : bool := existsb (str_eqb x) l.

(** Lines 84-93. *)
Definition find_remaining_indices (sos_expr : Basic) (summation_indices : list string)
  : result (list string) :=
  _ ← assert (is_Mul sos_expr);
  Ok (fold_left
        (fun sum_ind a =>
           match a with
           | Bra label | Ket label =>
               if name_in summation_indices label && negb (name_in sum_ind label)
               then sum_ind ++ [label]
               else sum_ind
           | _ => sum_ind
           end)
        (args sos_expr) []).

(** [a.label[0]] as a string: bras and kets have a label. *)
Definition label_of (a : Basic) : result string :=
  match a with
  | Bra label | Ket label => Ok label
  | _ => raise AttributeError no_message
  end.

(** Lines 100-107 of [replace_bra_op_ket]: the dictionary that sends the
    product of each operator with its two neighbours to a
    [DipoleMoment]. *)
Definition bra_op_ket_substitutions (e : Basic) : result (list (Basic * Basic)) :=
  _ ← assert (is_Mul e);
  for_each (enumerate (args e))
    (fun ia subs_dict =>
       match snd ia with
       | DipoleOperator comp op_type =>
           from_state ← getitem (args e) (Z.of_nat (fst ia) + 1);
           to_state ← getitem (args e) (Z.of_nat (fst ia) - 1);
           let key := Mul [to_state; snd ia; from_state] in
           from_label ← label_of from_state;
           to_label ← label_of to_state;
           Ok (dict_put eqb subs_dict key (DipoleMoment comp from_label to_label op_type))
       | _ => Ok subs_dict
       end)
    [].

(** Lines 33-36: the Levi-Civita tensor, a zero array of shape (3, 3, 3)
    with six cells assigned. *)
Definition assign (t : list nat -> Z) (c : list nat) (v : Z) : list nat -> Z :=
  fun i => if bool_decide (i = c) then v else t i.

Definition lc_tensor : list nat -> Z :=
  let zeros := fun _ : list nat => 0%Z in
  let t := assign (assign (assign zeros [0; 1; 2]%nat 1) [1; 2; 0]%nat 1) [2; 0; 1]%nat 1 in
  assign (assign (assign t [2; 1; 0]%nat (-1)) [0; 2; 1]%nat (-1)) [1; 0; 2]%nat (-1).

Definition char_eqb (a b : ascii) : bool := Ascii.eqb a b.

(** [comp_map] (lines 308-310): the letter of each axis with the entry of
    the component tuple on this axis. *)
Definition comp_map (c : list nat) : result (list (ascii * nat)) :=
  for_each (enumerate c)
    (fun icc m =>
       letter ← getitem ABC (Z.of_nat (fst icc));
       Ok (dict_put char_eqb m letter (snd icc)))
    [].

(** [tuple([comp_map[char] for char in list(comp)])] *)
Definition component_indices (m : list (ascii * nat)) (comp : string) : result (list nat) :=
  for_each (list_ascii_of_string comp)
    (fun char acc => i ← dict_item char_eqb m char; Ok (acc ++ [i]))
    [].

(** *** The entry points *)


(** The arguments have the types of the docstrings: [omegas] is [None],
    one tuple or a list of tuples, [final_state] is [None] or a pair of a
    symbol and a number, the flags are booleans, so that the assertions
    on these types hold.  The calls that prepare the matrix and the
    property arrays of the state belong to the collaborators. *)
Section Entry_points.
Context `{Ops} `{Pipeline}.




(** The construction as the three functions write it (lines 198-200,
    520-522 and 712-714). *)
Definition construct_sos (sos_expr : Basic) (summation_indices : arg_list string)
    (correlation_btw_freq : list (Basic * Basic))
    (perm_pairs : option (list (Basic * Basic)))
    (excluded_cases : option (list (string * string))) : result SumOverStates :=
  SumOverStates_call sos_expr summation_indices
    [("correlation_btw_freq", kw_pairs (Some correlation_btw_freq));
     ("perm_pairs", kw_pairs perm_pairs);
     ("excluded_cases", kw_cases excluded_cases)].





End Entry_points.

End evaluate_property.
Export evaluate_property.

(** * The vocabulary of the properties *)

(** ** The expression model *)

(** [==] on tuples of expressions, entry by entry. *)
Definition eqb_list : list Basic -> list Basic -> bool :=
  fix eqb_list (l k : list Basic) {struct l} : bool :=
    match l, k with
    | [], [] => true
    | x :: l', y :: k' => eqb x y && eqb_list l' k'
    | _, _ => false
    end.

(** The index occurs as a bra and as a ket among the factors. *)
Definition bound_in (index : string) (factors : list Basic) : Prop :=
  Bra index ∈ factors /\ Ket index ∈ factors.

(** Every summation index is bound in every additive term, or in the
    whole term for a single product. *)
Definition indices_bound (e : Basic) (indices : list string) : Prop :=
  match e with
  | Add terms =>
      forall index, index ∈ indices -> forall term, term ∈ terms -> bound_in index (args term)
  | _ => forall index, index ∈ indices -> bound_in index (args e)
  end.

(** Some summation index is not bound in some term. *)
Definition index_unbound (e : Basic) (indices : list string) : Prop :=
  match e with
  | Add terms =>
      exists index term, index ∈ indices /\ term ∈ terms /\ ~ bound_in index (args term)
  | _ => exists index, index ∈ indices /\ ~ bound_in index (args e)
  end.

(** The component labels carried by the dipole operators of the
    expression. *)
Definition component_labels (e : Basic) : list ascii :=
  flat_map comp_chars (List.filter is_DipoleOperator (factor_list e)).

(** [self._components] after the sort, for an expression whose operators
    could be collected. *)
Definition sorted_components (e : Basic) : list ascii :=
  match validate_expression e [] with
  | Ok oc => snd oc
  | Err _ => []
  end.




(** ** The parameter check and the entry points *)

(** The denominator has an imaginary damping term as an additive part. *)
Definition damped (denom : Basic) : Prop :=
  plus_i_gamma ∈ args denom \/ minus_i_gamma ∈ args denom.

(** The final state is referenced by a bra or a ket of the expression. *)
Definition final_state_referenced (sos_expr : Basic) (final_state : option (string * Z))
  : Prop :=
  match final_state with
  | None => True
  | Some fs => Bra (fst fs) ∈ factor_list sos_expr \/ Ket (fst fs) ∈ factor_list sos_expr
  end.

Section Known_states.
Context `{Collaborators}.


End Known_states.

(** ** Requests and tensors *)

(** An operator-product request on a response vector, with damping. *)
Definition complex_product_request (k : solve_key) : Prop :=
  kind k = S2S_MTM
  /\ (exists rest, key_rest k = item_ResponseVector :: rest)
  /\ nonzero (key_damping k) = true.

Section Arrays.
Context `{Numpy}.

(** The arrays of shape [(3,)*order] and of the dtype of the call. *)
Definition result_array (order : nat) (gamma_val : float) (t : ndarray Num) : Prop :=
  shape t = repeat 3%nat order
  /\ array_dtype t = (if nonzero gamma_val then complex128 else float64).


End Arrays.

(** ** The helpers and the assembly *)

(** The damping rule: no damping value, or every denominator damped. *)
Definition damping_consistent (sos_expr : Basic) (gamma_val : float) : Prop :=
  nonzero gamma_val = true -> forall denom, denom ∈ denom_list sos_expr -> damped denom.

(** The state named [x] is the label of a bra or of a ket among the
    factors. *)
Definition labels (factors : list Basic) (x : string) : Prop :=
  Bra x ∈ factors \/ Ket x ∈ factors.

Section Accumulation.
Context `{Numpy}.

(** The content of a cell after [cell += res] for each of the values, in
    their order. *)
Definition accumulated (dt : dtype) (ress : list Basic) (start : Num) : result Num :=
  for_each ress (fun res v => item_iadd dt v res) start.

(** The values of the terms at a component tuple: every term substitutes
    to a value, and none to the sentinel. *)
Definition term_values (substituted : list nat -> Basic -> result Basic)
    (c : list nat) (terms ress : list Basic) : Prop :=
  Forall2 (fun term res => substituted c term = Ok res /\ res <> ComplexInfinity) terms ress.

End Accumulation.

(** The cells written in the iteration of the component tuple [c]: the
    cell of the tuple, and the cells of its rearrangements for a
    symmetric tensor. *)
Definition written (symmetric : bool) (c q : list nat) : Prop :=
  if symmetric then q ≡ₚ c else q = c.

(** The component tuple whose iteration fills the cell [q]. *)
Definition filled_from (symmetric : bool) (q : list nat) : list nat :=
  if symmetric then merge_sort le q else q.

Section Grouping.
Context `{Collaborators}.


(** The placeholder [v] is in the group of the key. *)
Definition grouped (d : list (solve_key * list Z)) (key : solve_key) (v : Z) : Prop :=
  exists vs, (key, vs) ∈ d /\ v ∈ vs.

End Grouping.

Section Responses.
Context `{Collaborators}.

(** The response has a vector for every index tuple of its shape. *)
Definition complete (r : response) : Prop :=
  forall c, in_bounds (response_shape r) c = true -> exists x, response_at r c = Ok x.

(** The damping handed to the solver for a request: [0.0] for a request
    without damping, [-k[3]] otherwise. *)
Definition solver_damping (k : solve_key) : float :=
  if nonzero (key_damping k) then fneg (key_damping k) else fzero.

(** The right-hand side of a request: a real vector for a request
    without damping, wrapped as a response vector otherwise. *)
Definition as_rhs (k : solve_key) (x : Vec) : Vec :=
  if nonzero (key_damping k) then RV x else x.

(** The solve of the request [k] for the right-hand side built from [x]. *)
Definition solve_for (k : solve_key) (x : Vec) : solve_call :=
  {| for_request := k; call_rhs := as_rhs k x;
     call_omega := fneg (key_frequency k); call_gamma := solver_damping k |}.

(** The vector the solver returns for it. *)
Definition solution (k : solve_key) (x : Vec) : Vec :=
  solve_response (as_rhs k x) (fneg (key_frequency k)) (solver_damping k).

(** The placeholders in [v] are bound to one response in [rd']; the others
    are as in [rd]. *)
Definition rebound (rd rd' : list (Z * response)) (v : list Z) (r : response) : Prop :=
  (forall vv, vv ∈ v -> dict_get rd' vv = Ok r)
  /\ (forall w, w ∉ v -> dict_get rd' w = dict_get rd w).

End Responses.

Section Bound_responses.
Context `{Collaborators}.

(** The placeholder has a response in the dictionary. *)
Definition bound (rd : list (Z * response)) (w : Z) : Prop :=
  exists r, dict_get rd w = Ok r.

(** Every response of the dictionary is complete. *)
Definition all_complete (rd : list (Z * response)) : Prop :=
  forall w r, dict_get rd w = Ok r -> complete r.

(** The vector of [rvecs] that the product for the tuple [c] is taken
    with: [rvecs[c[op_dim:]]]. *)
Definition operand (op_type : string) (rvecs : response) (c : list nat) : Vec :=
  match response_at rvecs (drop (op_dim op_type) c) with
  | Ok x => x
  | Err _ => mtms op_type []
  end.

(** The solve of a product request on a response vector, for the tuple
    [c]: the damping handed over is [-k[3]]. *)
Definition product_solve (k : solve_key) (rvecs : response) (c : list nat) : solve_call :=
  {| for_request := k;
     call_rhs := bmatrix_vector_product
                   (dips (key_op_type k) (take (op_dim (key_op_type k)) c))
                   (operand (key_op_type k) rvecs c);
     call_omega := fneg (key_frequency k);
     call_gamma := fneg (key_damping k) |}.

End Bound_responses.

Section Contributions.
Variable replaced : term_dict -> list (string * nat) -> list nat -> result Basic.
Variable number_of_states : nat.

(** The assignments of states to the indices of summation of a term, in
    the order of the loop. *)
Definition assignments (td : term_dict) : list (list (string * nat)) :=
  map (zip (term_summation_indices td))
      (itertools.product (seq 0 number_of_states) (length (term_summation_indices td))).

(** What the terms contribute at a component tuple: one substitution
    result per term and assignment of states that is not excluded. *)
Definition contributions (modified : list (string * case_value))
    (term_list : list term_dict) (c : list nat) : list (result Basic) :=
  flat_map (fun td =>
              flat_map (fun state_map =>
                          if is_excluded modified state_map then []
                          else [replaced td state_map c])
                       (assignments td))
           term_list.

(** Every contribution is a value, and none is the sentinel. *)
Definition values (rs : list (result Basic)) (ress : list Basic) : Prop :=
  Forall2 (fun r res => r = Ok res /\ res <> ComplexInfinity) rs ress.

End Contributions.

(** The assignment gives to an index that is excluded with the symbol of
    the final state the number of the final state. *)
Definition excluded_assignment (final_state : option (string * Z))
    (excluded_cases : list (string * string)) (state_map : list (string * nat)) : Prop :=
  exists fs index st,
    final_state = Some fs /\ (index, st) ∈ state_map
    /\ (index, fst fs) ∈ excluded_cases /\ snd fs = Z.of_nat st.

Section Sums.
Context `{Numpy}.

(** After the contributions [L c], the cells written for [c] hold their
    sum. *)
Definition summed (symmetric : bool) (order : nat) (dt : dtype)
    (L : list nat -> list (result Basic)) (t : ndarray Num) : Prop :=
  array_dtype t = dt
  /\ forall c, c ∈ components_to_fill symmetric order ->
       exists ress,
         values (L c) ress
         /\ forall q, written symmetric c q -> accumulated dt ress zero = Ok (data t q).

End Sums.

(** [''.join(l)] *)
Definition joined (l : list string) : string := fold_right String.append "" l.

(** The excluded case is taken out of an array whose state axes are
    labelled [s]: its index labels an axis, and its state is not the
    ground state. *)
Definition case_applies (case : string * string) (s : string) : bool :=
  match String.index 0 (fst case) s with
  | Some _ => negb (str_eqb (snd case) O)
  | None => false
  end.

(** The cases taken out of an array with the state labels [s]. *)
Definition removals (excluded_cases : option (list (string * string)))
    (final_state : option (string * Z)) (s : string) : list divergence :=
  match excluded_cases, final_state with
  | Some cases, Some fs =>
      if str_eqb s "" then []
      else flat_map (fun case => if case_applies case s then [(fst case, snd fs)] else [])
                    cases
  | _, _ => []
  end.

(** Ascending code points, strictly. *)
Definition char_lt (a b : ascii) : Prop := (nat_of_ascii a < nat_of_ascii b)%nat.

Section Plans.
Context `{Numpy}.

(** The labels of the axes of the contraction. *)
Definition output_labels (p : plan) : list ascii :=
  sort_chars (remove_dups (list_ascii_of_string (einsum_right p))).

End Plans.

(** Every dipole operator among the factors stands between a bra on its
    left and a ket on its right. *)
Definition sandwiched (factors : list Basic) : Prop :=
  forall i comp op_type,
    factors !! i = Some (DipoleOperator comp op_type) ->
    exists t f, (1 <= i)%nat /\ factors !! (i - 1)%nat = Some (Bra t)
                /\ factors !! (i + 1)%nat = Some (Ket f).

(** The rule for the operator at the position [i]: the product of the
    bra, the operator and the ket goes to the moment from the state of
    the ket to the state of the bra. *)
Definition moment_rule (factors : list Basic) (i : nat) (rule : Basic * Basic) : Prop :=
  exists comp op_type t f,
    factors !! i = Some (DipoleOperator comp op_type)
    /\ (1 <= i)%nat /\ factors !! (i - 1)%nat = Some (Bra t)
    /\ factors !! (i + 1)%nat = Some (Ket f)
    /\ rule = (Mul [Bra t; DipoleOperator comp op_type; Ket f],
               DipoleMoment comp f t op_type).

(** The rules for the operators at the positions below [a]. *)
Definition rules_below (factors : list Basic) (a : nat) (d : list (Basic * Basic)) : Prop :=
  NoDup (map fst d)
  /\ forall rule, rule ∈ d <-> exists i, (i < a)%nat /\ moment_rule factors i rule.

Section Contractions.
Context `{Numpy}.
Variable einsum_list_of : Basic -> result (list einsum_entry * float * list divergence).

(** The factor and the contraction of a term: its lists are built, its
    plan is built, the removed cases are reconciled with the divergences
    and [np.einsum] returns the contraction. *)
Definition term_contribution (excluded_cases : option (list (string * string)))
    (final_state : option (string * Z)) (term : Basic) (fc : float * ndarray Num) : Prop :=
  exists einsum_list divergences p,
    einsum_list_of term = Ok (einsum_list, fst fc, divergences)
    /\ build_plan excluded_cases final_state einsum_list = Ok p
    /\ reconcile (set_to_list (removed p)) divergences = Ok tt
    /\ einsum (einsum_string p) (array_list p) = Ok (snd fc).

(** The cell [i] after [res_tens += factor * contraction] for each of the
    contractions in their order. *)
Definition added (fcs : list (float * ndarray Num)) (start : Num) (i : list nat) : Num :=
  fold_left (fun v fc =>
               plus v (times (fst fc) (data (snd fc) (broadcast_index (shape (snd fc)) i))))
            fcs start.

(** The contraction can be added into a tensor of the shape and dtype. *)
Definition addable (sh : list nat) (dt : dtype) (fc : float * ndarray Num) : Prop :=
  broadcasts (shape (snd fc)) sh = true
  /\ ~ (array_dtype (snd fc) = complex128 /\ dt = float64).

End Contractions.

(** ** Expressions of the modules, for the examples *)

Module examples.

Definition n : string := "n".
Definition k : string := "k".
Definition f : string := "f".
Definition op_a : Basic := DipoleOperator "A" "electric".
Definition op_b : Basic := DipoleOperator "B" "electric".
Definition op_c : Basic := DipoleOperator "C" "electric".
Definition w : Basic := Symbol "w".
Definition w_o : Basic := Symbol "w_{\sigma}".
Definition w_1 : Basic := Symbol "w_{1}".
Definition w_2 : Basic := Symbol "w_{2}".
Definition w_n : Basic := TransitionFrequency "n".
Definition w_k : Basic := TransitionFrequency "k".

(** [1/d] *)
Definition over (d : Basic) : Basic := Pow d (Integer (-1)).

(** The polarizability of the test suite:
    [<0|A|n><n|B|0>/(w_n - w) + <0|B|n><n|A|0>/(w_n + w)]. *)
Definition alpha_real : Basic :=
  Add [Mul [over (Add [w_n; neg w]); Bra O; op_a; Ket n; Bra n; op_b; Ket O];
       Mul [over (Add [w_n; w]); Bra O; op_b; Ket n; Bra n; op_a; Ket O]].

(** [alpha_sos_expr] of [sum_over_states.py], with damping. *)
Definition alpha_sos_expr : Basic :=
  Add [Mul [over (Add [w_n; neg w; minus_i_gamma]); Bra O; op_a; Ket n; Bra n; op_b; Ket O];
       Mul [over (Add [w_n; w; plus_i_gamma]); Bra O; op_b; Ket n; Bra n; op_a; Ket O]].

(** [beta_sos_term] of [sum_over_states.py] and its [perm_pairs]. *)
Definition beta_sos_term : Basic :=
  Mul [over (Add [w_n; neg w_o]); over (Add [w_k; neg w_2]);
       Bra O; op_a; Ket n; Bra n; op_b; Ket k; Bra k; op_c; Ket O].

Definition beta_perm_pairs : list (Basic * Basic) :=
  [(op_a, neg w_o); (op_b, w_1); (op_c, w_2)].

(** A product with the same operator twice. *)
Definition alpha_xx_term : Basic :=
  Mul [over (Add [w_n; neg w]); Bra O; op_a; Ket n; Bra n; op_a; Ket O].

(** A state with five excited states; the vectors carry no data. *)
Definition five_states : Collaborators :=
  {| Vec := unit; Dip := unit;
     solve_response := fun _ _ _ => tt;
     RV := fun v => v;
     bmatrix_vector_product := fun _ _ => tt;
     mtms := fun _ _ => tt;
     dips := fun _ _ => tt;
     op_dim := fun _ => 1%nat;
     excitation_vector := [tt; tt; tt; tt; tt];
     excitation_energy_uncorrected :=
       [mkfloat 3 (-3); mkfloat 7 (-4); mkfloat 1 (-1); mkfloat 5 (-3); mkfloat 3 (-2)];
     numeric_frequency := fun _ _ => fzero;
     numeric_damping := fun _ gamma_val => gamma_val |}.

(** Arrays of integers: a cell takes an [Integer] left by a substitution. *)
Definition integer_arrays : Numpy :=
  {| Num := Z; zero := 0%Z; plus := Z.add;
     times := fun x v => (mantissa x * v)%Z;
     item_iadd := fun _ old res =>
       match res with
       | Integer z => Ok (old + z)%Z
       | _ => raise TypeError no_message
       end;
     Arr := unit;
     np_delete := fun a _ _ => Ok a;
     einsum := fun _ _ =>
       Ok {| shape := []; array_dtype := float64; data := fun _ => 1%Z |} |}.

(** The Einstein-summation list of a term [<f|A|n><n|B|f>/(w_n - w_f)]:
    two arrays of moments and the array of the denominator. *)
Definition entry (states comps : string) : @einsum_entry integer_arrays :=
  @Build_einsum_entry integer_arrays states comps tt.

Definition esp_einsum_list : list (@einsum_entry integer_arrays) :=
  [entry "n" "A"; entry "n" "B"; entry "n" ""].

Definition esp_plan : @plan integer_arrays :=
  @Build_plan integer_arrays "nA,nB,n," "AB" [tt; tt; tt] [].


(** The tensor assembled for [alpha_real] when every term substitutes to
    1, all tuples being computed, and only the non-decreasing ones. *)
Definition alpha_tensor : ndarray (@Num integer_arrays) :=
  Eval vm_compute in
    match assemble_isr (H := integer_arrays) (fun _ _ => Ok (Integer 1))
            2 fzero false alpha_real with
    | Ok t => t
    | Err _ => {| shape := []; array_dtype := float64; data := fun _ => 0%Z |}
    end.

Definition alpha_tensor_symmetric : ndarray (@Num integer_arrays) :=
  Eval vm_compute in
    match assemble_isr (H := integer_arrays) (fun _ _ => Ok (Integer 1))
            2 fzero true alpha_real with
    | Ok t => t
    | Err _ => {| shape := []; array_dtype := float64; data := fun _ => 0%Z |}
    end.

(** The object constructed from [alpha_real] and the index [n]. *)
Definition alpha_sos : SumOverStates :=
  Eval vm_compute in
    match SumOverStates__init__ (H := structural) alpha_real (Listed [n]) None None None with
    | Ok sos => sos
    | Err _ => {| _summation_indices := []; excluded_states := []; _operators := [];
                  _components := []; _order := 0; _transition_frequencies := [];
                  correlation_btw_freq := None; expr := Add [] |}
    end.

End examples.

(** ** A sum over two states, for the examples *)

Module examples_sos.
Import examples.

(** The term of the diagonal polarizability with its index of summation. *)
Definition esp_term : term_dict :=
  {| term_expr := alpha_xx_term; term_summation_indices := [n];
     term_transition_frequencies := [w_n] |}.

(** The tensor of order one summed over two states, the state 1 being
    excluded as the final state; every substitution gives 1. *)
Definition esp_tensor : ndarray (@Num integer_arrays) :=
  Eval vm_compute in
    match assemble_sos (H := integer_arrays) (fun _ _ _ => Ok (Integer 1)) 2
            1 fzero false (Some (f, 1%Z)) [(n, f)] [esp_term] with
    | Ok t => t
    | Err _ => {| shape := []; array_dtype := float64; data := fun _ => 0%Z |}
    end.

End examples_sos.

(** * Properties *)

(** ** Fallible loops *)

Section Loops.
Context {A S : Type}.
Implicit Types (body : A -> S -> result S) (l : list A).

Lemma for_each_app l k body s :
  for_each (l ++ k) body s = s' ← for_each l body s; for_each k body s'.
Proof.
  revert s. induction l as [|x l IH]; intros s; simpl; [done|].
  destruct (body x s); simpl; [apply IH | done].
Qed.

(** A loop whose body keeps an invariant keeps it. *)
Lemma for_each_invariant (P : S -> Prop) l body s s' :
  (forall x t t', x ∈ l -> P t -> body x t = Ok t' -> P t') ->
  P s -> for_each l body s = Ok s' -> P s'.
Proof.
  revert s. induction l as [|x l IH]; intros s Hbody Hs Hrun; simpl in Hrun.
  - by inversion Hrun; subst.
  - destruct (body x s) as [t|e] eqn:Hx; simpl in Hrun; [|done].
    apply (IH t); [| |done].
    + intros y u u' Hy. apply Hbody. by right.
    + eapply Hbody; [by left| |]; eauto.
Qed.

(** A loop over a unit state that checks every element. *)
Lemma for_each_check_ok l (bad : A -> bool) e :
  for_each l (fun x (_ : unit) => if bad x then Err e else Ok tt) tt = Ok tt
  <-> forall x, x ∈ l -> bad x = false.
Proof.
  induction l as [|x l IH]; simpl.
  - split; [intros _ y Hy; inversion Hy | done].
  - destruct (bad x) eqn:Hx; simpl.
    + split; [done|]. intros Hall. specialize (Hall x (list_elem_of_here _ _)). congruence.
    + rewrite IH. split.
      * intros Hall y Hy. inversion Hy; subst; auto.
      * intros Hall y Hy. apply Hall. by right.
Qed.

Lemma for_each_check_err l (bad : A -> bool) e :
  for_each l (fun x (_ : unit) => if bad x then Err e else Ok tt) tt = Err e
  <-> exists x, x ∈ l /\ bad x = true.
Proof.
  induction l as [|x l IH]; simpl.
  - split; [done|]. intros (y & Hy & _). inversion Hy.
  - destruct (bad x) eqn:Hx; simpl.
    + split; [|done]. intros _. exists x. split; [by left|done].
    + rewrite IH. split.
      * intros (y & Hy & Hb). exists y. split; [by right|done].
      * intros (y & Hy & Hb). inversion Hy; subst; [congruence|]. eauto.
Qed.

End Loops.

Lemma for_each_check_cases {A} (l : list A) (bad : A -> bool) e :
  for_each l (fun x (_ : unit) => if bad x then Err e else Ok tt) tt = Ok tt
  \/ for_each l (fun x (_ : unit) => if bad x then Err e else Ok tt) tt = Err e.
Proof.
  induction l as [|x l IH]; simpl; [by left|].
  destruct (bad x); simpl; [by right | done].
Qed.

(** ** Equality of expressions *)

Section Basic_induction.
Variable P : Basic -> Prop.
Hypothesis HSymbol : forall s, P (Symbol s).
Hypothesis HFreq : forall s, P (TransitionFrequency s).
Hypothesis HInteger : forall z, P (Integer z).
Hypothesis HFloat : forall x, P (Float x).
Hypothesis HI : P ImaginaryUnit.
Hypothesis Hzoo : P ComplexInfinity.
Hypothesis HBra : forall s, P (Bra s).
Hypothesis HKet : forall s, P (Ket s).
Hypothesis HOp : forall c o, P (DipoleOperator c o).
Hypothesis HMoment : forall c f t o, P (DipoleMoment c f t o).
Hypothesis HLC : P LeviCivita.
Hypothesis HPow : forall b x, P b -> P x -> P (Pow b x).
Hypothesis HMul : forall l, Forall P l -> P (Mul l).
Hypothesis HAdd : forall l, Forall P l -> P (Add l).

Fixpoint Basic_nested_ind (e : Basic) : P e :=
  let fix all (l : list Basic) : Forall P l :=
    match l with
    | [] => @List.Forall_nil _ P
    | x :: l' => @List.Forall_cons _ P x l' (Basic_nested_ind x) (all l')
    end in
  match e with
  | Symbol s => HSymbol s
  | TransitionFrequency s => HFreq s
  | Integer z => HInteger z
  | Float x => HFloat x
  | ImaginaryUnit => HI
  | ComplexInfinity => Hzoo
  | Bra s => HBra s
  | Ket s => HKet s
  | DipoleOperator c o => HOp c o
  | DipoleMoment c f t o => HMoment c f t o
  | LeviCivita => HLC
  | Pow b x => HPow b x (Basic_nested_ind b) (Basic_nested_ind x)
  | Mul l => HMul l (all l)
  | Add l => HAdd l (all l)
  end.

End Basic_induction.

Lemma str_eqb_eq a b : str_eqb a b = true <-> a = b.
Proof. apply String.eqb_eq. Qed.

Lemma float_eqb_eq x y : float_eqb x y = true <-> x = y.
Proof.
  destruct x as [m e], y as [m' e']. unfold float_eqb. simpl.
  rewrite andb_true_iff, !Z.eqb_eq. split; [intros [-> ->]; done | by inversion 1].
Qed.

Lemma eqb_list_eq l :
  Forall (fun a => forall b, eqb a b = true <-> a = b) l ->
  forall k, eqb_list l k = true <-> l = k.
Proof.
  induction 1 as [|x l Hx _ IH]; intros [|y k]; simpl; try done.
  rewrite andb_true_iff, Hx, IH. split; [intros [-> ->]; done | by inversion 1].
Qed.

Lemma eqb_eq a b : eqb a b = true <-> a = b.
Proof.
  revert b. induction a using Basic_nested_ind; intros []; simpl; try done;
    rewrite ?andb_true_iff, ?str_eqb_eq, ?Z.eqb_eq, ?float_eqb_eq;
    try (split; [intros; destruct_and?; subst; done | by inversion 1]).
  - rewrite IHa1, IHa2. split; [intros [-> ->]; done | by inversion 1].
  - change (eqb_list l factors = true <-> Mul l = Mul factors).
    rewrite eqb_list_eq by done. split; [by intros -> | by inversion 1].
  - change (eqb_list l terms = true <-> Add l = Add terms).
    rewrite eqb_list_eq by done. split; [by intros -> | by inversion 1].
Qed.

Lemma eqb_refl a : eqb a a = true.
Proof. by apply eqb_eq. Qed.

Lemma eqb_neq a b : eqb a b = false <-> a <> b.
Proof. rewrite <- eqb_eq. by destruct (eqb a b). Qed.

(** [x in l] is membership. *)
Lemma contains_elem_of l x : contains l x = true <-> x ∈ l.
Proof.
  unfold contains. rewrite existsb_exists. split.
  - intros (y & Hy & Heq). apply eqb_eq in Heq. subst. by apply list_elem_of_In.
  - intros Hx. exists x. split; [by apply list_elem_of_In | apply eqb_refl].
Qed.

Lemma contains_not_elem_of l x : contains l x = false <-> x ∉ l.
Proof. rewrite <- contains_elem_of. by destruct (contains l x). Qed.

Lemma for_each_ext {A S} (l : list A) (f g : A -> S -> result S) s :
  (forall x t, x ∈ l -> f x t = g x t) -> for_each l f s = for_each l g s.
Proof.
  revert s. induction l as [|x l IH]; intros s Hfg; simpl; [done|].
  rewrite (Hfg x s) by by left. destruct (g x s); simpl; [|done].
  apply IH. intros y t Hy. apply Hfg. by right.
Qed.

Lemma for_each_check_existsb {A} (l : list A) (bad : A -> bool) e :
  for_each l (fun x (_ : unit) => if bad x then Err e else Ok tt) tt
  = if existsb bad l then Err e else Ok tt.
Proof. induction l as [|x l IH]; simpl; [done|]. by destruct (bad x). Qed.

(** ** The expression model: validation of the summation indices *)

Section Index_validation.

Lemma index_missing_false index factors :
  index_missing index factors = false <-> bound_in index factors.
Proof.
  unfold index_missing, bound_in.
  rewrite orb_false_iff, !negb_false_iff, !contains_elem_of. done.
Qed.

Lemma index_missing_true index factors :
  index_missing index factors = true <-> ~ bound_in index factors.
Proof.
  rewrite <- index_missing_false. by destruct (index_missing index factors).
Qed.

Lemma check_indices_of_product_ok indices factors :
  check_indices_of_product indices factors = Ok tt
  <-> forall index, index ∈ indices -> bound_in index factors.
Proof.
  unfold check_indices_of_product, raise.
  rewrite (for_each_check_ok indices (fun index => index_missing index factors)).
  by setoid_rewrite index_missing_false.
Qed.

Lemma check_indices_of_product_err indices factors :
  check_indices_of_product indices factors = Err (Raise ValueError indices_not_correct)
  <-> exists index, index ∈ indices /\ ~ bound_in index factors.
Proof.
  unfold check_indices_of_product, raise.
  rewrite (for_each_check_err indices (fun index => index_missing index factors)).
  by setoid_rewrite index_missing_true.
Qed.

Lemma check_indices_of_sum_unfold indices terms :
  check_indices_of_sum indices terms
  = for_each indices
      (fun index (_ : unit) =>
         if existsb (fun arg => index_missing index (args arg)) terms
         then Err (Raise ValueError indices_not_correct) else Ok tt) tt.
Proof.
  unfold check_indices_of_sum, raise. apply for_each_ext. intros index [] _.
  apply (for_each_check_existsb terms (fun arg => index_missing index (args arg))).
Qed.

Lemma check_indices_of_sum_ok indices terms :
  check_indices_of_sum indices terms = Ok tt
  <-> forall index, index ∈ indices ->
      forall term, term ∈ terms -> bound_in index (args term).
Proof.
  rewrite check_indices_of_sum_unfold, for_each_check_ok. split.
  - intros Hall index Hi term Ht. apply index_missing_false.
    specialize (Hall index Hi). destruct (index_missing index (args term)) eqn:Hm; [|done].
    assert (existsb (fun arg => index_missing index (args arg)) terms = true); [|congruence].
    apply existsb_exists. exists term. split; [by apply list_elem_of_In | done].
  - intros Hall index Hi.
    destruct (existsb (fun arg => index_missing index (args arg)) terms) eqn:He; [|done].
    apply existsb_exists in He as (term & Ht & Hm). apply list_elem_of_In in Ht.
    apply index_missing_true in Hm. destruct Hm. by apply Hall.
Qed.

Lemma check_indices_of_sum_err indices terms :
  check_indices_of_sum indices terms = Err (Raise ValueError indices_not_correct)
  <-> exists index term, index ∈ indices /\ term ∈ terms /\ ~ bound_in index (args term).
Proof.
  rewrite check_indices_of_sum_unfold, for_each_check_err. split.
  - intros (index & Hi & He). apply existsb_exists in He as (term & Ht & Hm).
    exists index, term. split_and!; [done | by apply list_elem_of_In |].
    by apply index_missing_true.
  - intros (index & term & Hi & Ht & Hm). exists index. split; [done|].
    apply existsb_exists. exists term. split; [by apply list_elem_of_In|].
    by apply index_missing_true.
Qed.

Lemma product_bound_or_unbound (indices : list string) factors :
  (forall index, index ∈ indices -> bound_in index factors)
  \/ (exists index, index ∈ indices /\ ~ bound_in index factors).
Proof.
  destruct (for_each_check_cases indices (fun index => index_missing index factors)
              (Raise ValueError indices_not_correct)) as [Hc|Hc].
  - left. by apply check_indices_of_product_ok.
  - right. by apply check_indices_of_product_err.
Qed.

Lemma sum_bound_or_unbound (indices : list string) (terms : list Basic) :
  (forall index, index ∈ indices -> forall term, term ∈ terms -> bound_in index (args term))
  \/ (exists index term, index ∈ indices /\ term ∈ terms /\ ~ bound_in index (args term)).
Proof.
  destruct (for_each_check_cases indices
              (fun index => existsb (fun arg => index_missing index (args arg)) terms)
              (Raise ValueError indices_not_correct)) as [Hc|Hc];
    rewrite <- check_indices_of_sum_unfold in Hc.
  - left. by apply check_indices_of_sum_ok.
  - right. by apply check_indices_of_sum_err.
Qed.

(** The two outcomes of the index validation cover all cases and exclude
    each other. *)
Lemma indices_bound_or_unbound e indices :
  indices_bound e indices \/ index_unbound e indices.
Proof.
  destruct e; simpl; first [apply sum_bound_or_unbound | apply product_bound_or_unbound].
Qed.


End Index_validation.

(** ** The expression model: operators and components *)

Section Collection.

Lemma elem_of_component_labels e c :
  c ∈ component_labels e
  <-> exists a, a ∈ factor_list e /\ is_DipoleOperator a = true /\ c ∈ comp_chars a.
Proof.
  unfold component_labels. rewrite list_elem_of_In, in_flat_map. split.
  - intros (a & Ha & Hc). apply filter_In in Ha as [Ha Hop].
    exists a. by rewrite !list_elem_of_In.
  - intros (a & Ha & Hop & Hc). exists a. rewrite filter_In, <- !list_elem_of_In. done.
Qed.

Lemma collect_from_product_loop factors comps :
  (forall a, a ∈ factors -> is_DipoleMoment a = false) ->
  for_each factors
    (fun a comps =>
       if is_DipoleOperator a then Ok (comps ++ comp_chars a)
       else if is_DipoleMoment a then raise TypeError dipole_moment_in_sos
       else Ok comps) comps
  = Ok (comps ++ flat_map comp_chars (List.filter is_DipoleOperator factors)).
Proof.
  revert comps. induction factors as [|a l IH]; intros comps Hno; simpl.
  - by rewrite app_nil_r.
  - assert (is_DipoleMoment a = false) as Ha by (apply Hno; by left).
    assert (forall b, b ∈ l -> is_DipoleMoment b = false) as Hl
      by (intros b Hb; apply Hno; by right).
    destruct (is_DipoleOperator a) eqn:Hop; simpl.
    + rewrite IH by done. by rewrite <- app_assoc.
    + rewrite Ha. simpl. by apply IH.
Qed.

Lemma collect_from_product_ok factors :
  (forall a, a ∈ factors -> is_DipoleMoment a = false) ->
  collect_from_product factors
  = Ok (flat_map comp_chars (List.filter is_DipoleOperator factors)).
Proof. intros Hno. unfold collect_from_product. by rewrite collect_from_product_loop. Qed.

(** The loop of the sum keeps the components in step with the operators
    and gathers every operator among the factors. *)
Lemma collect_from_sum_loop (l : list Basic) ops comps :
  (forall a, a ∈ l -> is_DipoleMoment a = false) ->
  comps = flat_map comp_chars ops ->
  exists ops',
    for_each l
      (fun a oc =>
         let oc' :=
           if is_DipoleOperator a && negb (contains (fst oc) a)
           then (fst oc ++ [a], snd oc ++ comp_chars a)
           else oc in
         if is_DipoleMoment a then raise TypeError dipole_moment_in_sos else Ok oc')
      (ops, comps)
    = Ok (ops', flat_map comp_chars ops')
    /\ forall a, a ∈ ops' <-> a ∈ ops \/ (a ∈ l /\ is_DipoleOperator a = true).
Proof.
  revert ops comps. induction l as [|a l IH]; intros ops comps Hno ->; simpl.
  - exists ops. split; [done|]. intros a. split; [by left|].
    intros [?|[Hin _]]; [done | inversion Hin].
  - assert (is_DipoleMoment a = false) as Ha by (apply Hno; by left).
    assert (forall b, b ∈ l -> is_DipoleMoment b = false) as Hl
      by (intros b Hb; apply Hno; by right).
    rewrite Ha. simpl.
    destruct (is_DipoleOperator a && negb (contains ops a)) eqn:Hnew.
    + apply andb_true_iff in Hnew as [Hop Hfresh].
      destruct (IH (ops ++ [a]) (flat_map comp_chars ops ++ comp_chars a) Hl)
        as (ops' & Hrun & Hmem).
      { rewrite flat_map_app. simpl. by rewrite app_nil_r. }
      exists ops'. split; [done|]. intros b. rewrite Hmem, elem_of_app, list_elem_of_singleton.
      split.
      * intros [[?| ->]|[? ?]]; [by left | right; split; [by left|done] |].
        right. split; [by right|done].
      * intros [?|[Hb Hbop]]; [by left; left|].
        inversion Hb; subst; [by left; right | right; done].
    + destruct (IH ops (flat_map comp_chars ops) Hl eq_refl) as (ops' & Hrun & Hmem).
      exists ops'. split; [done|]. intros b. rewrite Hmem. split.
      * intros [?|[? ?]]; [by left|]. right. split; [by right|done].
      * intros [?|[Hb Hbop]]; [by left|].
        inversion Hb; subst; [|right; done]. left.
        rewrite Hbop in Hnew. simpl in Hnew. apply negb_false_iff in Hnew.
        by apply contains_elem_of.
Qed.

Lemma collect_from_sum_ok terms :
  (forall a, a ∈ flat_map args terms -> is_DipoleMoment a = false) ->
  exists ops,
    collect_from_sum terms = Ok (ops, flat_map comp_chars ops)
    /\ forall a, a ∈ ops <-> a ∈ flat_map args terms /\ is_DipoleOperator a = true.
Proof.
  intros Hno. destruct (collect_from_sum_loop (flat_map args terms) [] [] Hno eq_refl)
    as (ops & Hrun & Hmem).
  exists ops. split; [done|]. intros a. rewrite Hmem. split.
  - intros [Hin|?]; [inversion Hin | done].
  - by right.
Qed.

(** A [DipoleMoment] factor ends either collection with the [TypeError]. *)
Lemma collect_from_product_moment factors comps a :
  a ∈ factors -> is_DipoleMoment a = true ->
  for_each factors
    (fun a comps =>
       if is_DipoleOperator a then Ok (comps ++ comp_chars a)
       else if is_DipoleMoment a then raise TypeError dipole_moment_in_sos
       else Ok comps) comps
  = Err (Raise TypeError dipole_moment_in_sos).
Proof.
  revert comps. induction factors as [|b l IH]; intros comps Hin Hm; [inversion Hin|].
  simpl. destruct (is_DipoleOperator b) eqn:Hop; simpl.
  - apply IH; [|done]. apply elem_of_cons in Hin as [->|Hin]; [|done].
    destruct b; simpl in *; congruence.
  - destruct (is_DipoleMoment b) eqn:Hb; simpl; [done|].
    apply IH; [|done]. apply elem_of_cons in Hin as [->|Hin]; [congruence | done].
Qed.

(** Insertion sort rearranges. *)
Lemma insert_char_Permutation c l : insert_char c l ≡ₚ c :: l.
Proof.
  induction l as [|d l IH]; simpl; [done|].
  destruct (char_le c d); [done|]. rewrite IH. apply perm_swap.
Qed.

Lemma sort_chars_Permutation l : sort_chars l ≡ₚ l.
Proof.
  induction l as [|c l IH]; simpl; [done|]. by rewrite insert_char_Permutation, IH.
Qed.

Lemma NoDup_ABC : NoDup ABC.
Proof. by apply (bool_decide_unpack _); vm_compute. Qed.

Lemma NoDup_take_ABC n : NoDup (take n ABC).
Proof. apply (sublist_NoDup (take n ABC) ABC NoDup_ABC), sublist_take. Qed.

(** A list without repetition is as long as its set of elements. *)
Lemma length_remove_dups_same_elements (l k : list ascii) :
  NoDup l -> (forall x, x ∈ l <-> x ∈ k) -> length (remove_dups k) = length l.
Proof.
  intros Hl Hlk. apply Permutation_length, NoDup_Permutation.
  - apply NoDup_remove_dups.
  - done.
  - intros x. by rewrite elem_of_remove_dups, Hlk.
Qed.

Lemma length_remove_dups_le (l : list ascii) : (length (remove_dups l) <= length l)%nat.
Proof.
  apply submseteq_length, NoDup_submseteq; [apply NoDup_remove_dups|].
  intros x. by rewrite elem_of_remove_dups.
Qed.

(** The canonical prefix whose length is the number of distinct labels
    is the canonical prefix of the length of the list, for a list that is
    one of the two. *)
Lemma canonical_prefix_lengths (comps : list ascii) :
  comps = take (length comps) ABC <-> comps = take (length (remove_dups comps)) ABC.
Proof.
  split; intros Heq.
  - assert (length (remove_dups comps) = length comps) as ->; [|done].
    apply length_remove_dups_same_elements; [|done].
    rewrite Heq. apply NoDup_take_ABC.
  - assert (length (remove_dups comps) = length comps) as <-; [|done].
    pose proof (length_remove_dups_le comps) as Hle.
    assert (length comps = min (length (remove_dups comps)) (length ABC)) as Hlen.
    { rewrite Heq at 1. apply length_take. }
    lia.
Qed.

End Collection.

(** ** The expression model: the constructor *)

Section Constructor_properties.
Context `{Ops}.

Lemma moment_free_or_not (l : list Basic) :
  (forall a, a ∈ l -> is_DipoleMoment a = false)
  \/ (exists a, a ∈ l /\ is_DipoleMoment a = true).
Proof.
  destruct (existsb is_DipoleMoment l) eqn:He.
  - right. apply existsb_exists in He as (a & Ha & Hm). exists a.
    by rewrite list_elem_of_In.
  - left. intros a Ha. destruct (is_DipoleMoment a) eqn:Hm; [|done].
    assert (existsb is_DipoleMoment l = true); [|congruence].
    apply existsb_exists. exists a. by rewrite <- list_elem_of_In.
Qed.

Lemma collect_from_sum_moment (l : list Basic) oc a :
  a ∈ l -> is_DipoleMoment a = true ->
  for_each l
    (fun a oc =>
       let oc' :=
         if is_DipoleOperator a && negb (contains (fst oc) a)
         then (fst oc ++ [a], snd oc ++ comp_chars a)
         else oc in
       if is_DipoleMoment a then raise TypeError dipole_moment_in_sos else Ok oc')
    oc
  = Err (Raise TypeError dipole_moment_in_sos).
Proof.
  revert oc. induction l as [|b l IH]; intros oc Hin Hm; [inversion Hin|].
  simpl. destruct (is_DipoleMoment b) eqn:Hb; simpl; [done|].
  apply IH; [|done]. apply elem_of_cons in Hin as [->|Hin]; [congruence | done].
Qed.

(** What the validation of lines 124-164 returns. *)
Lemma validate_expression_cases e indices :
  is_Add e = true \/ is_Mul e = true ->
  (exists a, a ∈ factor_list e /\ is_DipoleMoment a = true)
  /\ validate_expression e indices = Err (Raise TypeError dipole_moment_in_sos)
  \/ (forall a, a ∈ factor_list e -> is_DipoleMoment a = false)
     /\ index_unbound e indices
     /\ validate_expression e indices = Err (Raise ValueError indices_not_correct)
  \/ (forall a, a ∈ factor_list e -> is_DipoleMoment a = false)
     /\ indices_bound e indices
     /\ exists ops comps,
          validate_expression e indices = Ok (ops, sort_chars comps)
          /\ forall c, c ∈ comps <-> c ∈ component_labels e.
Proof.
  intros Hkind. destruct e; simpl in Hkind; try (destruct Hkind; discriminate).
  - (* a product *)
    simpl. destruct (moment_free_or_not factors) as [Hno|(a & Ha & Hm)].
    + right. rewrite collect_from_product_ok by done. simpl.
      destruct (product_bound_or_unbound indices factors) as [Hb|Hu].
      * right. split_and!; [done..|].
        apply check_indices_of_product_ok in Hb as ->. simpl.
        eexists _, _. split; [done|]. done.
      * left. split_and!; [done| |].
        { simpl. done. }
        by apply check_indices_of_product_err in Hu as ->.
    + left. split; [by exists a|]. unfold collect_from_product.
      by rewrite (collect_from_product_moment _ _ a).
  - (* a sum *)
    simpl. destruct (moment_free_or_not (flat_map args terms)) as [Hno|(a & Ha & Hm)].
    + right. destruct (collect_from_sum_ok terms Hno) as (ops & -> & Hops). simpl.
      destruct (sum_bound_or_unbound indices terms) as [Hb|Hu].
      * right. split_and!; [done..|].
        apply check_indices_of_sum_ok in Hb as ->. simpl.
        eexists _, _. split; [done|].
        intros c. rewrite elem_of_component_labels. simpl.
        rewrite list_elem_of_In, in_flat_map. setoid_rewrite <- list_elem_of_In.
        setoid_rewrite Hops.
        split; [intros (x & [? ?] & ?) | intros (x & ? & ? & ?)]; exists x; done.
      * left. split_and!; [done..|].
        by apply check_indices_of_sum_err in Hu as ->.
    + left. split; [by exists a|]. unfold collect_from_sum.
      by rewrite (collect_from_sum_moment _ _ a).
Qed.

Lemma validate_expression_kind e indices oc :
  validate_expression e indices = Ok oc -> is_Add e = true \/ is_Mul e = true.
Proof. destruct e; simpl; try done; auto. Qed.

(** A validated expression hands over the sorted labels of its operators. *)
Lemma validate_expression_ok e indices ops comps :
  validate_expression e indices = Ok (ops, comps) ->
  indices_bound e indices
  /\ (forall a, a ∈ factor_list e -> is_DipoleMoment a = false)
  /\ forall c, c ∈ comps <-> c ∈ component_labels e.
Proof.
  intros Hv. pose proof (validate_expression_kind _ _ _ Hv) as Hkind.
  destruct (validate_expression_cases e indices Hkind)
    as [[_ He]|[(_ & _ & He)|(Hno & Hb & ops' & comps' & He & Hc)]]; try congruence.
  rewrite He in Hv. inversion Hv; subst. split_and!; [done..|].
  intros c. by rewrite sort_chars_Permutation.
Qed.

Lemma check_components_ok comps n :
  check_components comps = Ok n <-> comps = take (length comps) ABC /\ n = length comps.
Proof.
  unfold check_components. case_bool_decide as Hc; simpl.
  - split; [by inversion 1 | by intros [_ ->]].
  - split; [done | by intros [? _]].
Qed.

Lemma check_components_err comps e :
  check_components comps = Err e
  <-> comps <> take (length comps) ABC
      /\ e = Raise ValueError (components_not_canonical (length comps)).
Proof.
  unfold check_components. case_bool_decide as Hc; simpl.
  - split; [done | by intros [? _]].
  - split; [by inversion 1 | by intros [_ ->]].
Qed.

Lemma check_pair_order_cases operators perm_pairs :
  check_pair_order operators perm_pairs = Ok tt
  \/ check_pair_order operators perm_pairs = Err (Raise ValueError pairs_out_of_order).
Proof.
  apply (for_each_check_cases (zip operators perm_pairs)
           (fun op_pair => negb (eqb (fst op_pair) (fst (snd op_pair))))).
Qed.

(** The permutation step raises an assertion or an ordering error only. *)
Lemma build_sos_errors term perm_pairs e :
  _build_sos_via_permutation term perm_pairs = Err e ->
  e = Raise AssertionError no_message \/ e = Raise ValueError pairs_out_of_order.
Proof.
  unfold _build_sos_via_permutation, assert. destruct (is_Mul term); simpl.
  - destruct (check_pair_order_cases (List.filter is_DipoleOperator (args term)) perm_pairs)
      as [-> | ->]; simpl; [done|]. inversion 1. by right.
  - inversion 1. by left.
Qed.

End Constructor_properties.

(** ** C8 and C2: what the constructor validates *)

Section Constructor_claims.
Context `{Ops}.


(** After a passed validation the constructor fails with the component
    error, an assertion or an ordering error, or it succeeds. *)
Lemma init_after_validation e si corr perm excl ops comps :
  validate_expression e (as_list si) = Ok (ops, comps) ->
  (comps <> take (length comps) ABC
   /\ SumOverStates__init__ e si corr perm excl
      = Err (Raise ValueError (components_not_canonical (length comps))))
  \/ (comps = take (length comps) ABC
      /\ ((exists sos, SumOverStates__init__ e si corr perm excl = Ok sos
                       /\ _order sos = length comps /\ _components sos = comps)
          \/ SumOverStates__init__ e si corr perm excl = Err (Raise AssertionError no_message)
          \/ SumOverStates__init__ e si corr perm excl
             = Err (Raise ValueError pairs_out_of_order))).
Proof.
  intros Hv. unfold SumOverStates__init__. rewrite Hv. simpl.
  destruct (check_components comps) as [order|err] eqn:Hc; simpl.
  - apply check_components_ok in Hc as [Hcomps ->]. right. split; [done|].
    destruct perm as [[|p ps]|]; simpl; try (left; eexists; split; [done|done]).
    destruct (_build_sos_via_permutation e (p :: ps)) as [full|err] eqn:Hb; simpl.
    + left. eexists. split; [done|done].
    + right. apply build_sos_errors in Hb as [-> | ->]; auto.
  - apply check_components_err in Hc as [Hcomps ->]. by left.
Qed.


Lemma same_elements_same_distinct (l k : list ascii) :
  (forall c, c ∈ l <-> c ∈ k) -> length (remove_dups l) = length (remove_dups k).
Proof.
  intros Hlk. apply length_remove_dups_same_elements; [apply NoDup_remove_dups|].
  intros c. by rewrite elem_of_remove_dups.
Qed.

(** C2, as amended. For every construction of a [SumOverStates] that
    succeeds, the inferred tensor order is the number of distinct
    Cartesian component labels of the dipole operators of the expression,
    and the components are the canonical alphabet prefix of that length;
    the construction raises the component error exactly when the
    expression passed the validation that precedes it (sum or product,
    no [DipoleMoment], every summation index bound) and its sorted
    component list differs from the canonical prefix of that length, and
    the order that this error reports is the number of collected labels,
    repetitions counted; operators with the components A, B give order
    2, with A, B, C order 3. *)
Theorem C2_order_is_number_of_components
    (e : Basic) (summation_indices : arg_list string)
    (correlation perm_pairs : option (list (Basic * Basic)))
    (excluded : option (arg_list excluded_state)) :
  let init := SumOverStates__init__ e summation_indices correlation perm_pairs excluded in
  let distinct := length (remove_dups (component_labels e)) in
  (forall sos, init = Ok sos ->
     _order sos = distinct /\ _components sos = take distinct ABC)
  /\ (forall order,
        init = Err (Raise ValueError (components_not_canonical order))
        <-> exists ops comps,
              validate_expression e (as_list summation_indices) = Ok (ops, comps)
              /\ comps <> take distinct ABC /\ order = length comps)
  /\ (forall sos, init = Ok sos ->
        (forall c, c ∈ component_labels e <-> c ∈ ["A"; "B"]%char) -> _order sos = 2%nat)
  /\ (forall sos, init = Ok sos ->
        (forall c, c ∈ component_labels e <-> c ∈ ["A"; "B"; "C"]%char) ->
        _order sos = 3%nat).
Proof.
  intros init distinct.
  assert (forall sos, init = Ok sos ->
            _order sos = distinct /\ _components sos = take distinct ABC) as Hok.
  { intros sos Hinit. subst init.
    destruct (validate_expression e (as_list summation_indices)) as [[ops comps]|err] eqn:Hv;
      [|unfold SumOverStates__init__ in Hinit; rewrite Hv in Hinit; done].
    pose proof (validate_expression_ok _ _ _ _ Hv) as (_ & _ & Hlabels).
    destruct (init_after_validation e summation_indices correlation perm_pairs excluded
                _ _ Hv) as [[_ He]|[Hc [(sos' & He & Ho & Hcs)|[He|He]]]]; try congruence.
    assert (sos' = sos) as -> by congruence.
    assert (distinct = length comps) as ->; [|by rewrite Ho, Hcs].
    apply length_remove_dups_same_elements; [|done].
    rewrite Hc. apply NoDup_take_ABC. }
  split_and!; [done| | |].
  - intros order. split.
    + intros Hinit. subst init.
      destruct (validate_expression e (as_list summation_indices))
        as [[ops comps]|err] eqn:Hv.
      * exists ops, comps. split; [done|].
        pose proof (validate_expression_ok _ _ _ _ Hv) as (_ & _ & Hlabels).
        destruct (init_after_validation e summation_indices correlation perm_pairs excluded
                    _ _ Hv) as [[Hc He]|[_ [(sos' & He & _)|[He|He]]]]; try congruence.
        split; [|congruence].
        intros Heq. apply Hc, canonical_prefix_lengths.
        by rewrite (same_elements_same_distinct comps (component_labels e)).
      * unfold SumOverStates__init__ in Hinit. rewrite Hv in Hinit. simpl in Hinit.
        destruct e; simpl in Hv; try (inversion Hv; subst; discriminate).
        -- destruct (validate_expression_cases (Mul factors) (as_list summation_indices))
             as [[_ He]|[(_ & _ & He)|(_ & _ & ? & ? & He & _)]];
             [by right | | |]; simpl in He; congruence.
        -- destruct (validate_expression_cases (Add terms) (as_list summation_indices))
             as [[_ He]|[(_ & _ & He)|(_ & _ & ? & ? & He & _)]];
             [by left | | |]; simpl in He; congruence.
    + intros (ops & comps & Hv & Hne & ->).
      pose proof (validate_expression_ok _ _ _ _ Hv) as (_ & _ & Hlabels).
      destruct (init_after_validation e summation_indices correlation perm_pairs excluded
                  _ _ Hv) as [[_ He]|[Hc _]]; [done|].
      destruct Hne. apply canonical_prefix_lengths in Hc.
      by rewrite (same_elements_same_distinct comps (component_labels e)) in Hc.
  - intros sos Hinit Hab. destruct (Hok sos Hinit) as [-> _]. subst distinct.
    by rewrite (same_elements_same_distinct _ ["A"; "B"]%char).
  - intros sos Hinit Habc. destruct (Hok sos Hinit) as [-> _]. subst distinct.
    by rewrite (same_elements_same_distinct _ ["A"; "B"; "C"]%char).
Qed.

End Constructor_claims.


(** C2 at the polarizability: components A and B, order 2. *)
Lemma C2_order_is_number_of_components_witness :
  SumOverStates__init__ (H := structural) examples.alpha_real (Listed [examples.n])
    None None None = Ok examples.alpha_sos
  /\ _order examples.alpha_sos = 2%nat
  /\ _components examples.alpha_sos = ["A"; "B"]%char.
Proof.
  assert (SumOverStates__init__ (H := structural) examples.alpha_real (Listed [examples.n])
            None None None = Ok examples.alpha_sos) as Hinit
    by (vm_compute; reflexivity).
  split; [exact Hinit|].
  pose proof (proj1 (C2_order_is_number_of_components (H := structural) examples.alpha_real
                       (Listed [examples.n]) None None None) _ Hinit) as Hw.
  vm_compute in Hw. exact Hw.
Defined.

(** C2 as written fails, whichever error its structure error is:
    with the index [k], which no term binds, the polarizability is
    refused although its sorted components are the canonical prefix, and
    the product with the operator A twice is refused for its index, not
    for its components; with the index [n] this product is refused with
    the order 2, its distinct labels being one. *)
Lemma C2_counterexample :
  (SumOverStates__init__ (H := structural) examples.alpha_real (Single examples.k)
     None None None = Err (Raise ValueError indices_not_correct)
   /\ sorted_components examples.alpha_real
      = take (length (remove_dups (component_labels examples.alpha_real))) ABC)
  /\ (SumOverStates__init__ (H := structural) examples.alpha_xx_term (Single examples.k)
        None None None = Err (Raise ValueError indices_not_correct)
      /\ sorted_components examples.alpha_xx_term
         <> take (length (remove_dups (component_labels examples.alpha_xx_term))) ABC)
  /\ (SumOverStates__init__ (H := structural) examples.alpha_xx_term (Single examples.n)
        None None None = Err (Raise ValueError (components_not_canonical 2))
      /\ length (remove_dups (component_labels examples.alpha_xx_term)) = 1%nat).
Proof.
  split_and!; vm_compute; first [reflexivity | discriminate].
Qed.

(** The term of the first hyperpolarizability has order 3 and six terms
    after the permutation of its three pairs. *)
Example beta_order :
  (fun sos => (_order sos, length (args (expr sos))))
    <$> (match SumOverStates__init__ (H := structural) examples.beta_sos_term
                 (Listed [examples.n; examples.k]) None (Some examples.beta_perm_pairs) None
         with Ok sos => Some sos | Err _ => None end)
  = Some (3%nat, 6%nat).
Proof. vm_compute. reflexivity. Qed.

(** ** itertools: permutations *)

Section Permutations.
Context {A : Type}.
Implicit Types (l p : list A).



(** A selection splits the list into one element and the others. *)
Lemma selections_Permutation l x rest :
  In (x, rest) (itertools.selections l) -> x :: rest ≡ₚ l.
Proof.
  revert x rest. induction l as [|y l IH]; intros x rest; simpl; [done|].
  intros [Heq|Hin].
  - by inversion Heq.
  - apply in_map_iff in Hin as ([z zs] & Heq & Hin). simpl in Heq. inversion Heq; subst.
    rewrite perm_swap. by rewrite (IH _ _ Hin).
Qed.

Lemma selections_complete l x :
  In x l -> exists rest, In (x, rest) (itertools.selections l).
Proof.
  induction l as [|y l IH]; simpl; [done|]. intros [->|Hin].
  - exists l. by left.
  - destruct (IH Hin) as [rest Hrest]. exists (y :: rest). right.
    apply in_map_iff. exists (x, rest). done.
Qed.


Lemma permutations_of_length_Permutation n l p :
  length l = n -> (In p (itertools.permutations_of_length n l) <-> p ≡ₚ l).
Proof.
  revert l p. induction n as [|n IH]; intros l p Hl; simpl.
  - apply length_zero_iff_nil in Hl as ->. split.
    + by intros [<-|[]].
    + intros Hp. apply Permutation_nil_r in Hp. by left.
  - rewrite in_flat_map. split.
    + intros ([x rest] & Hsel & Hin). simpl in Hin.
      apply in_map_iff in Hin as (q & <- & Hq).
      pose proof (selections_Permutation _ _ _ Hsel) as Hperm.
      apply IH in Hq; [by rewrite Hq|].
      apply Permutation_length in Hperm. simpl in Hperm. lia.
    + intros Hp. destruct p as [|x q].
      { apply Permutation_length in Hp. simpl in Hp. lia. }
      assert (In x l) as Hx.
      { apply list_elem_of_In. rewrite <- Hp. by left. }
      destruct (selections_complete l x Hx) as [rest Hsel].
      exists (x, rest). split; [done|]. simpl. apply in_map_iff. exists q. split; [done|].
      pose proof (selections_Permutation _ _ _ Hsel) as Hperm.
      apply IH.
      * apply Permutation_length in Hperm. simpl in Hperm. lia.
      * apply (Permutation_cons_inv (a := x)). by rewrite Hp, Hperm.
Qed.



Lemma elem_of_permutations l p : p ∈ itertools.permutations l <-> p ≡ₚ l.
Proof. rewrite list_elem_of_In. by apply permutations_of_length_Permutation. Qed.


End Permutations.

(** ** C3: the permutation expansion *)

Section Permutation_claims.
Context `{Ops}.










End Permutation_claims.


(** Pairs in another order than the operators of the term are refused. *)
Example beta_pairs_out_of_order :
  _build_sos_via_permutation (H := structural) examples.beta_sos_term
    [(examples.op_b, examples.w_1); (examples.op_a, neg examples.w_o);
     (examples.op_c, examples.w_2)]
  = Err (Raise ValueError pairs_out_of_order).
Proof. vm_compute. reflexivity. Qed.

(** ** C4: the damping check *)

Section Checker_claims.


Lemma undamped_false denom : undamped denom = false <-> damped denom.
Proof.
  unfold undamped, damped. rewrite andb_false_iff, !negb_false_iff, !contains_elem_of. done.
Qed.


Lemma check_damping_ok sos_expr gamma_val :
  nonzero gamma_val = true ->
  check_damping sos_expr gamma_val = Ok tt
  <-> forall denom, denom ∈ denom_list sos_expr -> damped denom.
Proof.
  intros Hg. unfold check_damping, raise. rewrite Hg.
  rewrite (for_each_check_ok (denom_list sos_expr) undamped).
  by setoid_rewrite undamped_false.
Qed.

Lemma check_final_state_cases sos_expr final_state :
  check_final_state sos_expr final_state = Ok tt
  \/ check_final_state sos_expr final_state = Err (Raise ValueError final_state_mistaken).
Proof.
  unfold check_final_state. destruct final_state as [fs|]; [|by left].
  destruct (existsb _ _); simpl; [by left | by right].
Qed.

Lemma check_final_state_ok sos_expr final_state :
  final_state_referenced sos_expr final_state ->
  check_final_state sos_expr final_state = Ok tt.
Proof.
  unfold check_final_state, final_state_referenced. destruct final_state as [fs|]; [|done].
  intros Href.
  assert (existsb (fun a => eqb a (Bra (fst fs)) || eqb a (Ket (fst fs)))
            (factor_list sos_expr) = true) as ->; [|done].
  apply existsb_exists. destruct Href as [Hin|Hin]; apply list_elem_of_In in Hin.
  - exists (Bra (fst fs)). split; [done|]. by rewrite eqb_refl.
  - exists (Ket (fst fs)). split; [done|]. rewrite (eqb_refl (Ket _)). apply orb_true_r.
Qed.


End Checker_claims.


(** With the damping terms in both denominators the check passes. *)
Example alpha_damped_passes :
  _check_omegas_and_final_state examples.alpha_sos_expr
    [(examples.w, Float (mkfloat 1 (-1)))] [] (mkfloat 1 (-7)) None
  = Ok tt.
Proof. vm_compute. reflexivity. Qed.

(** ** C1: the construction inside the three entry points *)

Section Entry_point_claims.
Context `{Ops} `{Pipeline}.

(** The construction as the entry points write it is refused when the
    keywords are bound, whatever the expression and the arguments. *)
Lemma construct_sos_refused sos_expr summation_indices correlation perm_pairs excluded_cases :
  construct_sos sos_expr summation_indices correlation perm_pairs excluded_cases
  = Err (Raise TypeError (unexpected_keyword "excluded_cases")).
Proof. reflexivity. Qed.




End Entry_point_claims.



(** ** C7: operator-product requests with a complex right-hand side *)

Lemma kind_eqb_eq a b : kind_eqb a b = true <-> a = b.
Proof.
  destruct a, b; simpl; try done. rewrite str_eqb_eq.
  split; [by intros -> | by inversion 1].
Qed.

Lemma item_eqb_eq a b : item_eqb a b = true <-> a = b.
Proof.
  destruct a, b; simpl; try done; rewrite ?str_eqb_eq, ?Z.eqb_eq;
    (split; [by intros -> | by inversion 1]).
Qed.

Lemma items_eqb_eq l k : items_eqb l k = true <-> l = k.
Proof.
  revert k. induction l as [|a l IH]; intros [|b k]; simpl; try done.
  rewrite andb_true_iff, item_eqb_eq, IH. split; [intros [-> ->]; done | by inversion 1].
Qed.

Lemma key_eqb_eq a b : key_eqb a b = true <-> a = b.
Proof.
  destruct a, b. unfold key_eqb. simpl.
  rewrite !andb_true_iff, kind_eqb_eq, str_eqb_eq, !float_eqb_eq, items_eqb_eq.
  split; [intros [[[[-> ->] ->] ->] ->]; done | by inversion 1].
Qed.

(** The keys of the grouped dictionary are the keys that were inserted. *)
Lemma dict_append_keys d key v k :
  k ∈ map fst (dict_append d key v) <-> k ∈ map fst d \/ k = key.
Proof.
  induction d as [|[k' vs] d IH]; simpl.
  - rewrite list_elem_of_singleton, elem_of_nil. tauto.
  - destruct (key_eqb k' key) eqn:Hk; simpl.
    + apply key_eqb_eq in Hk as ->. rewrite !elem_of_cons. tauto.
    + rewrite !elem_of_cons, IH. tauto.
Qed.

Section Resolution_claims.
Context `{Collaborators}.

Lemma in_trace_bind {A B} (m : traced A) (f : A -> traced B) call :
  call ∈ fst (traced_bind m f) ->
  call ∈ fst m \/ exists a, snd m = Ok a /\ call ∈ fst (f a).
Proof.
  unfold traced_bind. destruct (snd m) as [a|e] eqn:Hm; simpl; [|by left].
  rewrite elem_of_app. intros [?|?]; [by left | right; by exists a].
Qed.

Lemma traced_bind_ok {A B} (m : traced A) (f : A -> traced B) b :
  snd (traced_bind m f) = Ok b -> exists a, snd m = Ok a /\ snd (f a) = Ok b.
Proof.
  unfold traced_bind. destruct (snd m) as [a|e] eqn:Hm; simpl; [|done].
  intros Hf. by exists a.
Qed.

Lemma in_trace_for {A S} (l : list A) (body : A -> S -> traced S) s call :
  call ∈ fst (traced_for l body s) -> exists x t, x ∈ l /\ call ∈ fst (body x t).
Proof.
  revert s. induction l as [|x l IH]; intros s; simpl; [by rewrite elem_of_nil|].
  intros Hin. apply in_trace_bind in Hin as [Hin|(t & _ & Hin)].
  - exists x, s. split; [by left | done].
  - destruct (IH _ Hin) as (y & u & Hy & Hc). exists y, u. split; [by right | done].
Qed.

Lemma traced_for_ok {A S} (l : list A) (body : A -> S -> traced S) s s' :
  snd (traced_for l body s) = Ok s' ->
  forall x, x ∈ l -> exists t t', snd (body x t) = Ok t'.
Proof.
  revert s. induction l as [|x l IH]; intros s Hrun y Hy; [by apply elem_of_nil in Hy|].
  simpl in Hrun. apply traced_bind_ok in Hrun as (t & Hx & Hrest).
  apply elem_of_cons in Hy as [->|Hy]; [by exists s, t | by apply (IH t)].
Qed.

Lemma in_trace_fill components (entry : list nat -> traced Vec) call :
  call ∈ fst (fill components entry) -> exists c, call ∈ fst (entry c).
Proof.
  induction components as [|c cs IH]; simpl; [by rewrite elem_of_nil|].
  intros Hin. apply in_trace_bind in Hin as [Hin|(v & _ & Hin)]; [by exists c|].
  apply in_trace_bind in Hin as [Hin|(rest & _ & Hin)]; [by apply IH|].
  by apply elem_of_nil in Hin.
Qed.

Lemma in_trace_dispatch k rhs omega gam call :
  call ∈ fst (dispatch k rhs omega gam) -> for_request call = k.
Proof. simpl. rewrite list_elem_of_singleton. by intros ->. Qed.

Lemma in_trace_lift {A} (r : result A) call : call ∈ fst (lift r) -> False.
Proof. simpl. apply elem_of_nil. Qed.

Lemma getitem_0 {A} (x : A) l : getitem (x :: l) 0 = Ok x.
Proof.
  unfold getitem. simpl length.
  destruct (Z.ltb_spec 0 0); [lia|]. destruct (Z.leb_spec 0 0); [|lia].
  destruct (Z.ltb_spec 0 (Z.of_nat (S (length l)))); [done | lia].
Qed.

Lemma getitem_1 {A} (x y : A) l : getitem (x :: y :: l) 1 = Ok y.
Proof.
  unfold getitem. simpl length.
  destruct (Z.ltb_spec 1 0); [lia|]. destruct (Z.leb_spec 0 1); [|lia].
  destruct (Z.ltb_spec 1 (Z.of_nat (S (S (length l))))); [done | lia].
Qed.

(** Such a request ends in an exception before any solve. *)
Lemma resolve_request_complex final_state k v response_dict :
  complex_product_request k ->
  exists e, resolve_request final_state k v response_dict = ([], Err e).
Proof.
  intros (Hkind & [rest Hrest] & Hgam). unfold resolve_request.
  rewrite Hkind, Hrest, Hgam, getitem_0.
  unfold traced_bind, lift. cbn [fst snd item_eqb negb].
  destruct (getitem (item_ResponseVector :: rest) 1) as [no|e]; cbn [fst snd]; [|by eexists].
  destruct (match no with
            | item_number z => dict_get response_dict z
            | _ => raise KeyError no_message
            end); cbn [fst snd]; by eexists.
Qed.

(** Every solve that a request dispatches is a solve for this request,
    and this request is not a complex product request. *)
Lemma resolve_request_trace final_state k v response_dict call :
  call ∈ fst (resolve_request final_state k v response_dict) ->
  for_request call = k /\ ~ complex_product_request k.
Proof.
  intros Hin. split.
  - unfold resolve_request in Hin. destruct (kind k).
    + apply in_trace_bind in Hin as [Hin|(? & _ & Hin)];
        [|by apply elem_of_nil in Hin].
      destruct (negb (nonzero (key_damping k)));
        apply in_trace_fill in Hin as [c Hin]; by apply in_trace_dispatch in Hin.
    + apply in_trace_bind in Hin as [Hin|(k4 & _ & Hin)]; [by apply in_trace_lift in Hin|].
      destruct (item_eqb k4 item_ResponseVector).
      * apply in_trace_bind in Hin as [Hin|(no & _ & Hin)]; [by apply in_trace_lift in Hin|].
        apply in_trace_bind in Hin as [Hin|(rvecs & _ & Hin)];
          [by apply in_trace_lift in Hin|].
        destruct (negb (nonzero (key_damping k))); [|by apply in_trace_lift in Hin].
        apply in_trace_bind in Hin as [Hin|(? & _ & Hin)];
          [|by apply elem_of_nil in Hin].
        apply in_trace_fill in Hin as [c Hin].
        apply in_trace_bind in Hin as [Hin|(x & _ & Hin)]; [by apply in_trace_lift in Hin|].
        by apply in_trace_dispatch in Hin.
      * destruct final_state as [fs|]; [|by apply in_trace_lift in Hin].
        destruct (item_eqb k4 (item_symbol (fst fs))); [|by apply in_trace_lift in Hin].
        apply in_trace_bind in Hin as [Hin|(? & _ & Hin)];
          [|by apply elem_of_nil in Hin].
        apply in_trace_fill in Hin as [c Hin].
        apply in_trace_bind in Hin as [Hin|(x & _ & Hin)]; [by apply in_trace_lift in Hin|].
        destruct (negb (nonzero (key_damping k))); by apply in_trace_dispatch in Hin.
    + by apply in_trace_lift in Hin.
  - intros Hc. destruct (resolve_request_complex final_state k v response_dict Hc) as [e He].
    rewrite He in Hin. by apply elem_of_nil in Hin.
Qed.

(** The grouped dictionary has a key for every request of the tree. *)
Lemma group_requests_keys all_omegas gamma_val rvecs_dict d0 d :
  for_each rvecs_dict
    (fun kv d => new_key ← substitute_key all_omegas gamma_val (fst kv);
                 Ok (dict_append d new_key (snd kv))) d0 = Ok d ->
  (forall k, k ∈ map fst d0 -> k ∈ map fst d)
  /\ forall kv key, kv ∈ rvecs_dict ->
       substitute_key all_omegas gamma_val (fst kv) = Ok key -> key ∈ map fst d.
Proof.
  revert d0. induction rvecs_dict as [|kv l IH]; intros d0 Hrun; simpl in Hrun.
  - inversion Hrun; subst. split; [done|]. intros kv key Hin. by apply elem_of_nil in Hin.
  - destruct (substitute_key all_omegas gamma_val (fst kv)) as [new_key|e] eqn:Hk;
      simpl in Hrun; [|done].
    destruct (IH _ Hrun) as [Hkeep Hall]. split.
    + intros k Hin. apply Hkeep, dict_append_keys. by left.
    + intros kv' key Hin Hkey. apply elem_of_cons in Hin as [->|Hin]; [|by apply (Hall kv')].
      apply Hkeep, dict_append_keys. right. congruence.
Qed.

(** C7. In the resolution of the solve requests of
    [evaluate_property_isr]: a request of kind [S2S_MTM] whose right-hand
    side is built from a response vector that is already resolved, and
    whose numeric damping is not zero, raises the [NotImplementedError]
    without any solve being dispatched; in a whole resolution no solve is
    ever dispatched for such a request, and a resolution that returns
    response vectors had no such request. *)
Theorem C7_complex_product_not_implemented
    (final_state : option (string * Z)) (all_omegas : list (Basic * Basic))
    (gamma_val : float) :
  (forall k v response_dict no rvecs rest,
     kind k = S2S_MTM ->
     key_rest k = item_ResponseVector :: item_number no :: rest ->
     dict_get response_dict no = Ok rvecs ->
     nonzero (key_damping k) = true ->
     resolve_request final_state k v response_dict
     = ([], Err (Raise NotImplementedError complex_rhs_not_implemented)))
  /\ (forall rvecs_dict_list,
        let run := resolve_tree final_state all_omegas gamma_val rvecs_dict_list in
        (forall call, call ∈ fst run -> ~ complex_product_request (for_request call))
        /\ (forall response_dict, snd run = Ok response_dict ->
              forall tup kv key,
                tup ∈ rvecs_dict_list -> kv ∈ snd tup ->
                substitute_key all_omegas gamma_val (fst kv) = Ok key ->
                ~ complex_product_request key)).
Proof.
  split.
  - intros k v response_dict no rvecs rest Hkind Hrest Hget Hgam.
    unfold resolve_request. rewrite Hkind, Hrest, Hgam, getitem_0.
    unfold traced_bind, lift. cbn [fst snd item_eqb negb].
    rewrite getitem_1. cbn [fst snd]. by rewrite Hget.
  - intros rvecs_dict_list run. subst run. unfold resolve_tree. split.
    + intros call Hin. apply in_trace_for in Hin as (tup & rd & _ & Hin).
      apply in_trace_bind in Hin as [Hin|(d & _ & Hin)]; [by apply in_trace_lift in Hin|].
      apply in_trace_for in Hin as (kv & rd' & _ & Hin).
      apply resolve_request_trace in Hin as [-> Hn]. done.
    + intros response_dict Hrun tup kv key Htup Hkv Hkey Hc.
      destruct (traced_for_ok _ _ _ _ Hrun tup Htup) as (rd & rd' & Hbody).
      apply traced_bind_ok in Hbody as (d & Hgroup & Hsolve). simpl in Hgroup.
      unfold group_requests in Hgroup.
      apply group_requests_keys in Hgroup as [_ Hall].
      specialize (Hall kv key Hkv Hkey).
      apply list_elem_of_fmap in Hall as ([k' vs] & Heq & Hin). simpl in Heq. subst k'.
      destruct (traced_for_ok _ _ _ _ Hsolve _ Hin) as (t & t' & Hok). simpl in Hok.
      destruct (resolve_request_complex final_state key vs t Hc) as [e He].
      rewrite He in Hok. done.
Qed.

End Resolution_claims.

(** C7 at a product request on the resolved vector 0, with damping. *)
Lemma C7_complex_product_not_implemented_witness :
  resolve_request (H := examples.five_states) None
    {| kind := S2S_MTM; key_op_type := "electric"; key_frequency := mkfloat 1 (-1);
       key_damping := mkfloat 1 (-7);
       key_rest := [item_ResponseVector; item_number 0] |}
    [1%Z]
    [(0%Z, {| response_shape := [3%nat]; response_entries := [] |})]
  = ([], Err (Raise NotImplementedError complex_rhs_not_implemented)).
Proof.
  apply (proj1 (C7_complex_product_not_implemented (H := examples.five_states)
                  None [] (mkfloat 1 (-7)))
           _ _ _ 0%Z {| response_shape := [3%nat]; response_entries := [] |} []);
    reflexivity.
Defined.

(** ** C5: removed cases and recorded divergences *)

Section Reconciliation.
Implicit Types (rd d : divergence) (removed_cases divergences copied : list divergence).

Lemma divergence_eqb_eq rd d : divergence_eqb rd d = true <-> rd = d.
Proof.
  destruct rd as [s i], d as [t j]. unfold divergence_eqb. simpl.
  rewrite andb_true_iff, str_eqb_eq, Z.eqb_eq. split; [intros [-> ->]; done | by inversion 1].
Qed.

Lemma recorded_elem_of divergences rd : recorded divergences rd = true <-> rd ∈ divergences.
Proof.
  unfold recorded. rewrite existsb_exists. setoid_rewrite <- list_elem_of_In.
  setoid_rewrite divergence_eqb_eq. split; [by intros (d & ? & ->) | by exists rd].
Qed.

Lemma recorded_not_elem_of divergences rd :
  recorded divergences rd = false <-> rd ∉ divergences.
Proof. rewrite <- recorded_elem_of. by destruct (recorded divergences rd). Qed.

(** [list(set(l))] has every element of [l] once. *)
Lemma elem_of_set_to_list l rd : rd ∈ set_to_list l <-> rd ∈ l.
Proof.
  induction l as [|d l IH]; simpl; [done|].
  destruct (recorded l d) eqn:Hd.
  - apply recorded_elem_of in Hd. rewrite IH, elem_of_cons. split; [by right|].
    by intros [->|?].
  - by rewrite !elem_of_cons, IH.
Qed.

Lemma NoDup_set_to_list l : NoDup (set_to_list l).
Proof.
  induction l as [|d l IH]; simpl; [constructor|].
  destruct (recorded l d) eqn:Hd; [done|].
  apply recorded_not_elem_of in Hd. constructor; [by rewrite elem_of_set_to_list | done].
Qed.

(** Removing a present element takes out one occurrence of it. *)
Lemma list_remove_present copied rd :
  rd ∈ copied ->
  exists copied', list_remove copied rd = Ok copied' /\ copied ≡ₚ rd :: copied'.
Proof.
  induction copied as [|d l IH]; intros Hin; [by apply elem_of_nil in Hin|].
  simpl. destruct (divergence_eqb d rd) eqn:Hd.
  - apply divergence_eqb_eq in Hd as ->. by exists l.
  - apply elem_of_cons in Hin as [->|Hin].
    { assert (divergence_eqb d d = true) by by apply divergence_eqb_eq. congruence. }
    destruct (IH Hin) as (l' & -> & Hperm). simpl. exists (d :: l'). split; [done|].
    rewrite Hperm. apply perm_swap.
Qed.

(** The loop of lines 844-850 over removed cases that are all distinct. *)
Lemma reconcile_loop removed_cases divergences copied :
  NoDup removed_cases ->
  (forall rd, rd ∈ removed_cases -> rd ∈ divergences -> rd ∈ copied) ->
  ((exists rd, rd ∈ removed_cases /\ rd ∉ divergences)
   /\ for_each removed_cases
        (fun rd copied =>
           if negb (recorded divergences rd)
           then raise ValueError excluded_case_without_divergence
           else list_remove copied rd) copied
      = Err (Raise ValueError excluded_case_without_divergence))
  \/ ((forall rd, rd ∈ removed_cases -> rd ∈ divergences)
      /\ exists copied',
           for_each removed_cases
             (fun rd copied =>
                if negb (recorded divergences rd)
                then raise ValueError excluded_case_without_divergence
                else list_remove copied rd) copied
           = Ok copied'
           /\ copied ≡ₚ removed_cases ++ copied').
Proof.
  revert copied. induction removed_cases as [|rd l IH]; intros copied Hnd Hin.
  - right. split; [intros rd Hrd; by apply elem_of_nil in Hrd|]. by exists copied.
  - apply NoDup_cons in Hnd as [Hrd Hnd]. simpl.
    destruct (recorded divergences rd) eqn:Hrec; simpl.
    + apply recorded_elem_of in Hrec.
      destruct (list_remove_present copied rd) as (c1 & -> & Hperm).
      { apply Hin; [by left | done]. }
      simpl. destruct (IH c1 Hnd) as [[(x & Hx & Hnx) Hrun]|[Hall (c' & Hrun & Hperm')]].
      * intros x Hx Hdiv. assert (x ∈ rd :: c1) as Hx'.
        { rewrite <- Hperm. apply Hin; [by right | done]. }
        apply elem_of_cons in Hx' as [->|?]; done.
      * left. split; [|done]. exists x. split; [by right | done].
      * right. split.
        -- intros x Hx. apply elem_of_cons in Hx as [->|Hx]; [done | by apply Hall].
        -- exists c'. split; [done|]. rewrite Hperm, Hperm'. done.
    + apply recorded_not_elem_of in Hrec. left. split; [|done].
      exists rd. split; [by left | done].
Qed.

(** The outcome of the reconciliation, for removed cases in any order. *)
Lemma reconcile_cases removed_cases divergences :
  NoDup removed_cases ->
  ((exists rd, rd ∈ removed_cases /\ rd ∉ divergences)
   /\ reconcile removed_cases divergences
      = Err (Raise ValueError excluded_case_without_divergence))
  \/ ((forall rd, rd ∈ removed_cases -> rd ∈ divergences)
      /\ (exists d left, divergences ≡ₚ removed_cases ++ d :: left)
      /\ reconcile removed_cases divergences = Err (Raise ZeroDivisionError divergences_remain))
  \/ (divergences ≡ₚ removed_cases /\ reconcile removed_cases divergences = Ok tt).
Proof.
  intros Hnd. unfold reconcile.
  destruct (reconcile_loop removed_cases divergences divergences Hnd)
    as [[Hex ->]|[Hall (copied & -> & Hperm)]]; [done | by left |]. simpl.
  right. destruct copied as [|d left].
  - right. rewrite app_nil_r in Hperm. split; [done|].
    by destruct (negb (length divergences =? 0)%nat).
  - left. split_and!; [done | by exists d, left |].
    destruct divergences as [|d' ds]; [|done].
    apply Permutation_nil_l in Hperm. by destruct removed_cases.
Qed.

Lemma leftover_not_Permutation removed_cases divergences d left :
  divergences ≡ₚ removed_cases ++ d :: left -> ~ divergences ≡ₚ removed_cases.
Proof.
  intros H1 H2. apply Permutation_length in H1, H2.
  rewrite length_app in H1. simpl in H1. lia.
Qed.

End Reconciliation.

Section Einstein_claims.
Context `{Numpy}.

(** C5. In the Einstein-summation path, for every term: if some case
    removed from the arrays is not among the recorded divergences, a
    [ValueError] is raised; if all removed cases are recorded and a
    recorded divergence remains after they are taken out, a
    [ZeroDivisionError] is raised; the term is contracted and added to
    the result tensor only when the removed cases, each once, are the
    recorded divergences, one to one, and then the term ends as the
    contraction and the addition do. *)
Theorem C5_divergences_reconciled
    (excluded_cases : option (list (string * string))) (final_state : option (string * Z))
    (einsum_list : list einsum_entry) (factor : float) (divergences : list divergence)
    (res_tens : ndarray Num) (p : plan) :
  build_plan excluded_cases final_state einsum_list = Ok p ->
  let run := contract_term excluded_cases final_state einsum_list factor divergences
               res_tens in
  let removed_cases := set_to_list (removed p) in
  ((exists rd, rd ∈ removed p /\ rd ∉ divergences) ->
   run = Err (Raise ValueError excluded_case_without_divergence))
  /\ ((forall rd, rd ∈ removed p -> rd ∈ divergences) ->
      (exists d left, divergences ≡ₚ removed_cases ++ d :: left) ->
      run = Err (Raise ZeroDivisionError divergences_remain))
  /\ ((forall rd, rd ∈ removed p -> rd ∈ divergences) ->
      (exists d, d ∈ divergences /\ d ∉ removed p) ->
      run = Err (Raise ZeroDivisionError divergences_remain))
  /\ (forall res_tens', run = Ok res_tens' -> divergences ≡ₚ removed_cases)
  /\ (divergences ≡ₚ removed_cases ->
      run = (contribution ← einsum (einsum_string p) (array_list p);
             iadd_array res_tens (scale factor contribution)))
  /\ (forall order, order ≡ₚ removed_cases ->
        reconcile order divergences = reconcile removed_cases divergences).
Proof.
  intros Hplan run removed_cases. subst run. unfold contract_term. rewrite Hplan. simpl.
  fold removed_cases.
  pose proof (NoDup_set_to_list (removed p)) as Hnd. fold removed_cases in Hnd.
  assert (forall rd, rd ∈ removed_cases <-> rd ∈ removed p) as Hset
    by (intros rd; apply elem_of_set_to_list).
  destruct (reconcile_cases removed_cases divergences Hnd)
    as [[(x & Hx & Hnx) Hrun]|[(Hall & (d & left & Hleft) & Hrun)|[Hperm Hrun]]].
  - (* a removed case that is not recorded *)
    rewrite Hrun. simpl. split_and!.
    + done.
    + intros Hall. destruct Hnx. apply Hall. by apply Hset.
    + intros Hall. destruct Hnx. apply Hall. by apply Hset.
    + done.
    + intros Hperm. destruct Hnx. rewrite Hperm. done.
    + intros order Horder.
      assert (NoDup order) as Hnd' by by rewrite Horder.
      destruct (reconcile_cases order divergences Hnd')
        as [[_ ->]|[(Hall & _ & _)|[Hperm _]]]; [done | |].
      * destruct Hnx. apply Hall. by rewrite Horder.
      * destruct Hnx. rewrite Hperm, Horder. done.
  - (* a divergence remains *)
    rewrite Hrun. simpl. split_and!.
    + intros (x & Hx & Hnx). destruct Hnx. apply Hall. by apply Hset.
    + done.
    + done.
    + done.
    + intros Hperm. by destruct (leftover_not_Permutation _ _ _ _ Hleft).
    + intros order Horder.
      assert (NoDup order) as Hnd' by by rewrite Horder.
      destruct (reconcile_cases order divergences Hnd')
        as [[(x & Hx & Hnx) _]|[(_ & _ & ->)|[Hperm _]]]; [|done|].
      * destruct Hnx. apply Hall. by rewrite <- Horder.
      * rewrite Horder in Hperm. by destruct (leftover_not_Permutation _ _ _ _ Hleft).
  - (* one to one *)
    rewrite Hrun. simpl. split_and!.
    + intros (x & Hx & Hnx). destruct Hnx. rewrite Hperm. by apply Hset.
    + intros _ (d & left & Hleft). by destruct (leftover_not_Permutation _ _ _ _ Hleft).
    + intros _ (d & Hd & Hnd'). destruct Hnd'. apply Hset. by rewrite <- Hperm.
    + done.
    + done.
    + intros order Horder.
      assert (NoDup order) as Hnd' by by rewrite Horder.
      destruct (reconcile_cases order divergences Hnd')
        as [[(x & Hx & Hnx) _]|[(_ & (d & left & Hleft) & _)|[_ ->]]]; [| |done].
      * destruct Hnx. rewrite Hperm, <- Horder. done.
      * rewrite Horder in Hleft. by destruct (leftover_not_Permutation _ _ _ _ Hleft).
Qed.

End Einstein_claims.

(** C5 at a term [<f|A|n><n|B|f>/(w_n - w_f)] whose denominator diverges
    at the final state 0, with no case excluded: the divergence remains. *)
Lemma C5_divergences_reconciled_witness :
  contract_term (H := examples.integer_arrays) None (Some (examples.f, 0%Z))
    examples.esp_einsum_list (mkfloat 1 0) [(examples.n, 0%Z)]
    (np_zeros (H := examples.integer_arrays) [3; 3]%nat float64)
  = Err (Raise ZeroDivisionError divergences_remain).
Proof.
  refine (proj1 (proj2 (proj2
            (C5_divergences_reconciled (H := examples.integer_arrays)
               None (Some (examples.f, 0%Z)) examples.esp_einsum_list (mkfloat 1 0)
               [(examples.n, 0%Z)] _ examples.esp_plan _))) _ _).
  - vm_compute. reflexivity.
  - intros rd Hrd. by apply elem_of_nil in Hrd.
  - exists (examples.n, 0%Z). split; [by left | apply not_elem_of_nil].
Defined.

(** With the case [(n, f)] excluded the divergence is removed and the
    term is contracted. *)
Example excluded_divergence_contracted :
  is_ok (contract_term (H := examples.integer_arrays)
           (Some [(examples.n, examples.f)]) (Some (examples.f, 0%Z))
           examples.esp_einsum_list (mkfloat 1 0) [(examples.n, 0%Z)]
           (np_zeros (H := examples.integer_arrays) [3; 3]%nat float64))
  = true.
Proof. vm_compute. reflexivity. Qed.

(** A case excluded although nothing diverges is a configuration error. *)
Example excluded_without_divergence :
  contract_term (H := examples.integer_arrays)
    (Some [(examples.n, examples.f)]) (Some (examples.f, 0%Z))
    examples.esp_einsum_list (mkfloat 1 0) []
    (np_zeros (H := examples.integer_arrays) [3; 3]%nat float64)
  = Err (Raise ValueError excluded_case_without_divergence).
Proof. vm_compute. reflexivity. Qed.

(** The subscripts built for this term. *)
Example einsum_string_of_term :
  einsum_string (H := examples.integer_arrays) examples.esp_plan = "nA,nB,n -> AB".
Proof. vm_compute. reflexivity. Qed.

(** ** C6: the complex-infinity sentinel in the substitution paths *)


Section Sentinel_claims.
Context `{Numpy}.

Lemma accumulate_sentinel c res_tens :
  accumulate c ComplexInfinity res_tens = Err (Raise ZeroDivisionError no_message).
Proof. done. Qed.


Lemma accumulate_ok c res res_tens res_tens' :
  accumulate c res res_tens = Ok res_tens' ->
  res <> ComplexInfinity /\ iadd_cell res_tens c res = Ok res_tens'.
Proof.
  unfold accumulate. destruct (eqb res ComplexInfinity) eqn:Hres; [done|].
  apply eqb_neq in Hres. done.
Qed.


End Sentinel_claims.


(** A term that substitutes to [zoo] ends the assembly. *)
Example pole_ends_assembly :
  is_ok (assemble_isr (H := examples.integer_arrays) (fun _ _ => Ok ComplexInfinity)
           2 fzero false examples.alpha_real) = false.
Proof. vm_compute. reflexivity. Qed.

(** ** Cells of the result tensor *)

Section Cell_properties.
Context `{Numpy}.
Implicit Types (t : ndarray Num) (c p q : list nat).

Lemma get_cell_ok t c v :
  get_cell t c = Ok v -> in_bounds (shape t) c = true /\ v = data t c.
Proof. unfold get_cell. destruct (in_bounds (shape t) c); [by inversion 1 | done]. Qed.

Lemma set_cell_ok t c v t' :
  set_cell t c v = Ok t' ->
  in_bounds (shape t) c = true
  /\ shape t' = shape t /\ array_dtype t' = array_dtype t
  /\ forall q, data t' q = if bool_decide (q = c) then v else data t q.
Proof.
  unfold set_cell. destruct (in_bounds (shape t) c); [|done].
  inversion 1; subst. done.
Qed.

Lemma iadd_cell_ok t c res t' :
  iadd_cell t c res = Ok t' ->
  shape t' = shape t /\ array_dtype t' = array_dtype t
  /\ forall q, q <> c -> data t' q = data t q.
Proof.
  unfold iadd_cell. destruct (get_cell t c) as [old|e]; simpl; [|done].
  destruct (item_iadd (array_dtype t) old res) as [new|e]; simpl; [|done].
  intros Hset. apply set_cell_ok in Hset as (_ & Hs & Hd & Hdata).
  split_and!; [done..|]. intros q Hq. rewrite Hdata. by rewrite bool_decide_eq_false_2.
Qed.


(** The copy to the permutations of [c] keeps the cell [c], gives its
    content to every permutation of [c] and leaves the other cells. *)
Lemma copy_loop_ok (perms : list (list nat)) c t t' :
  for_each perms (fun p t => v ← get_cell t c; set_cell t p v) t = Ok t' ->
  shape t' = shape t /\ array_dtype t' = array_dtype t
  /\ data t' c = data t c
  /\ (forall p, p ∈ perms -> data t' p = data t c)
  /\ (forall q, q ∉ perms -> data t' q = data t q).
Proof.
  revert t. induction perms as [|p perms IH]; intros t Hrun; simpl in Hrun.
  - inversion Hrun; subst. split_and!; [done..| |done].
    intros p Hp. by apply elem_of_nil in Hp.
  - destruct (get_cell t c) as [v|e] eqn:Hget; simpl in Hrun; [|done].
    apply get_cell_ok in Hget as [_ ->].
    destruct (set_cell t p (data t c)) as [t1|e] eqn:Hset; simpl in Hrun; [|done].
    apply set_cell_ok in Hset as (_ & Hs1 & Hd1 & Hdata1).
    destruct (IH _ Hrun) as (Hs & Hd & Hc & Hperms & Hrest).
    assert (data t1 c = data t c) as Hc1.
    { rewrite Hdata1. by case_bool_decide. }
    split_and!.
    + congruence.
    + congruence.
    + congruence.
    + intros q Hq. destruct (decide (q ∈ perms)) as [Hin|Hnin].
      * rewrite Hperms by done. done.
      * rewrite Hrest by done. apply elem_of_cons in Hq as [->|?]; [|done].
        rewrite Hdata1. by rewrite bool_decide_eq_true_2.
    + intros q Hq. apply not_elem_of_cons in Hq as [Hqp Hq].
      rewrite Hrest by done. rewrite Hdata1. by rewrite bool_decide_eq_false_2.
Qed.

Lemma copy_to_permutations_ok c t t' :
  copy_to_permutations c t = Ok t' ->
  shape t' = shape t /\ array_dtype t' = array_dtype t
  /\ (forall p, p ≡ₚ c -> data t' p = data t c)
  /\ (forall q, ~ q ≡ₚ c -> data t' q = data t q).
Proof.
  intros Hrun. apply copy_loop_ok in Hrun as (Hs & Hd & _ & Hperms & Hrest).
  split_and!; [done..| |].
  - intros p Hp. apply Hperms. by apply elem_of_permutations.
  - intros q Hq. apply Hrest. by rewrite elem_of_permutations.
Qed.

(** The loop over the terms changes the cell of the tuple only. *)
Lemma accumulate_terms_ok (substituted : list nat -> Basic -> result Basic)
    (terms : list Basic) c t t' :
  for_each terms (fun term res_tens => res ← substituted c term; accumulate c res res_tens) t
  = Ok t' ->
  shape t' = shape t /\ array_dtype t' = array_dtype t
  /\ forall q, q <> c -> data t' q = data t q.
Proof.
  apply (for_each_invariant
           (fun u => shape u = shape t /\ array_dtype u = array_dtype t
                     /\ forall q, q <> c -> data u q = data t q)); [|done].
  intros term u u' _ (Hs & Hd & Hdata) Hstep.
  destruct (substituted c term) as [res|e]; [|done]. simpl in Hstep.
  apply accumulate_ok in Hstep as [_ Hstep].
  apply iadd_cell_ok in Hstep as (Hs' & Hd' & Hdata').
  split_and!; [congruence..|]. intros q Hq. rewrite Hdata' by done. by apply Hdata.
Qed.

End Cell_properties.

(** ** C9: shape and dtype of the returned tensor *)

Section Shape_claims.
Context `{Numpy}.

Lemma np_zeros_result_array order gamma_val :
  result_array order gamma_val (np_zeros (repeat 3%nat order) (result_dtype gamma_val)).
Proof. done. Qed.

Lemma accumulate_result_array order gamma_val c res t t' :
  result_array order gamma_val t -> accumulate c res t = Ok t' ->
  result_array order gamma_val t'.
Proof.
  intros [Hs Hd] Hacc. apply accumulate_ok in Hacc as [_ Hacc].
  apply iadd_cell_ok in Hacc as (Hs' & Hd' & _). split; congruence.
Qed.

Lemma copy_result_array order gamma_val c t t' :
  result_array order gamma_val t -> copy_to_permutations c t = Ok t' ->
  result_array order gamma_val t'.
Proof.
  intros [Hs Hd] Hcopy. apply copy_to_permutations_ok in Hcopy as (Hs' & Hd' & _).
  split; congruence.
Qed.


End Shape_claims.


(** With damping the array is complex. *)
Example damped_result_is_complex :
  array_dtype <$> (match assemble_sos_fast (H := examples.integer_arrays)
                           (fun _ => Ok (examples.esp_einsum_list, mkfloat 1 0, []))
                           2 (mkfloat 1 (-7)) None None [examples.alpha_sos_expr]
                   with Ok t => Some t | Err _ => None end)
  = Some complex128.
Proof. vm_compute. reflexivity. Qed.

(** ** itertools: combinations with replacement *)

Section Combinations.

Lemma elem_of_suffixes_seq (n a : nat) (s : list nat) :
  s ∈ itertools.suffixes (seq a n)
  <-> exists b, (a <= b < a + n)%nat /\ s = seq b (a + n - b).
Proof.
  revert a. induction n as [|n IH]; intros a; simpl.
  - rewrite elem_of_nil. split; [done|]. intros (b & ? & _). lia.
  - rewrite elem_of_cons, IH. split.
    + intros [->|(b & Hb & ->)].
      * exists a. split; [lia|]. replace (a + S n - a)%nat with (S n) by lia. done.
      * exists b. split; [lia|]. f_equal. lia.
    + intros (b & Hb & ->). destruct (decide (b = a)) as [->|Hne].
      * left. replace (a + S n - a)%nat with (S n) by lia. done.
      * right. exists b. split; [lia|]. f_equal. lia.
Qed.

(** The tuples that [combinations_with_replacement] draws from the
    numbers from [a] below [N] are the non-decreasing tuples of these
    numbers. *)
Lemma elem_of_combinations_seq (N r : nat) :
  forall (a : nat) (c : list nat),
    (a <= N)%nat ->
    c ∈ itertools.combinations_with_replacement (seq a (N - a)) r
    <-> length c = r /\ Forall (fun x => a <= x < N)%nat c /\ StronglySorted le c.
Proof.
  induction r as [|r IH]; intros a c Ha; simpl.
  - rewrite list_elem_of_singleton. split.
    + intros ->. split_and!; [done | constructor | constructor].
    + intros (Hlen & _ & _). by apply length_zero_iff_nil in Hlen.
  - rewrite list_elem_of_In, in_flat_map. setoid_rewrite <- list_elem_of_In. split.
    + intros (s & Hs & Hc). apply elem_of_suffixes_seq in Hs as (b & Hb & ->).
      replace (a + (N - a) - b)%nat with (S (N - S b)) in Hc by lia. simpl in Hc.
      apply list_elem_of_In, in_map_iff in Hc as (c' & <- & Hc').
      apply list_elem_of_In in Hc'.
      change (b :: seq (S b) (N - S b)) with (seq b (S (N - S b))) in Hc'.
      replace (S (N - S b)) with (N - b)%nat in Hc' by lia.
      apply IH in Hc' as (Hlen & Hall & Hsorted); [|lia].
      split_and!.
      * simpl. by rewrite Hlen.
      * constructor; [lia|]. eapply Forall_impl; [done|]. simpl. lia.
      * constructor; [done|]. eapply Forall_impl; [done|]. simpl. lia.
    + intros (Hlen & Hall & Hsorted). destruct c as [|b c']; [done|].
      apply Forall_cons in Hall as [Hb Hall].
      apply StronglySorted_inv in Hsorted as [Hsorted Hle].
      exists (seq b (N - b)). split.
      * apply elem_of_suffixes_seq. exists b. split; [lia|]. f_equal. lia.
      * replace (N - b)%nat with (S (N - S b)) by lia. simpl.
        apply list_elem_of_In, in_map_iff. exists c'. split; [done|].
        apply list_elem_of_In.
        change (b :: seq (S b) (N - S b)) with (seq b (S (N - S b))).
        replace (S (N - S b)) with (N - b)%nat by lia.
        apply IH; [lia|]. split_and!; [by inversion Hlen | | done].
        apply Forall_forall. intros x Hx.
        rewrite Forall_forall in Hall, Hle. specialize (Hall x Hx). specialize (Hle x Hx).
        lia.
Qed.

(** The tuples filled for a symmetric tensor are the non-decreasing
    Cartesian index tuples. *)
Lemma elem_of_symmetric_components order (c : list nat) :
  c ∈ components_to_fill true order
  <-> length c = order /\ Forall (fun x => x < 3)%nat c /\ StronglySorted le c.
Proof.
  unfold components_to_fill.
  change [0; 1; 2]%nat with (seq 0 (3 - 0)).
  rewrite (elem_of_combinations_seq 3 order 0 c) by lia.
  split; intros (? & Hall & ?); (split_and!; [done| |done]);
    (eapply Forall_impl; [done|]; simpl; lia).
Qed.

(** A full index tuple of an array of shape [(3,)*order]. *)
Lemma in_bounds_cartesian order (c : list nat) :
  in_bounds (repeat 3%nat order) c = true
  <-> length c = order /\ Forall (fun x => x < 3)%nat c.
Proof.
  revert c. induction order as [|order IH]; intros [|x c]; simpl.
  - split; [intros _; split; [done | constructor] | done].
  - split; [done | intros [? _]; done].
  - split; [done | intros [? _]; done].
  - rewrite andb_true_iff, IH, Forall_cons, Nat.ltb_lt. split.
    + intros (? & -> & ?). done.
    + intros (Hlen & ? & ?). by inversion Hlen.
Qed.



End Combinations.

(** ** C10: the symmetric tensor *)

Section Symmetry_claims.
Context `{Numpy}.
Variable substituted : list nat -> Basic -> result Basic.




End Symmetry_claims.


(** The six computed cells hold the two terms; the copies agree. *)
Example symmetric_cells :
  map (data examples.alpha_tensor_symmetric)
      [[0; 0]; [0; 1]; [1; 0]; [0; 2]; [2; 0]; [1; 1]; [1; 2]; [2; 1]; [2; 2]]%nat
  = [2; 2; 2; 2; 2; 2; 2; 2; 2]%Z.
Proof. vm_compute. reflexivity. Qed.

(** * Further properties of the two modules *)

(** ** The parameter check as a whole *)

Section Check_outcomes.

Lemma check_final_state_ok_iff sos_expr final_state :
  check_final_state sos_expr final_state = Ok tt
  <-> final_state_referenced sos_expr final_state.
Proof.
  split; [|apply check_final_state_ok].
  unfold check_final_state, final_state_referenced. destruct final_state as [fs|]; [|done].
  destruct (existsb _ _) eqn:He; [|done]. intros _.
  apply existsb_exists in He as (a & Ha & Heq). apply list_elem_of_In in Ha.
  apply orb_true_iff in Heq as [Heq|Heq]; apply eqb_eq in Heq; subst; auto.
Qed.

Lemma check_damping_cases sos_expr gamma_val :
  check_damping sos_expr gamma_val = Ok tt
  \/ check_damping sos_expr gamma_val = Err (Raise ValueError real_expression_with_gamma).
Proof.
  unfold check_damping. destruct (nonzero gamma_val); [|by left].
  apply (for_each_check_cases (denom_list sos_expr) undamped).
Qed.

Lemma check_damping_ok_iff sos_expr gamma_val :
  check_damping sos_expr gamma_val = Ok tt <-> damping_consistent sos_expr gamma_val.
Proof.
  unfold damping_consistent. destruct (nonzero gamma_val) eqn:Hg.
  - rewrite (check_damping_ok _ _ Hg). split; [by intros ? _ | by intros Hall; apply Hall].
  - unfold check_damping. rewrite Hg. split; [done | done].
Qed.

(** X1. [_check_omegas_and_final_state] has three outcomes. It returns
    without error exactly when the damping value is zero or every
    denominator has a damping term, and no final state is given or a
    bra or a ket of the final state is a factor; it raises the error of a
    mistaken final state exactly when the first holds and the second does
    not (the damping error comes first); and the frequencies handed in
    never change the outcome. *)
Theorem X1_check_outcomes
    (sos_expr : Basic) (omegas correlation : list (Basic * Basic))
    (gamma_val : float) (final_state : option (string * Z)) :
  let run := _check_omegas_and_final_state sos_expr omegas correlation gamma_val
               final_state in
  (run = Ok tt
   <-> damping_consistent sos_expr gamma_val /\ final_state_referenced sos_expr final_state)
  /\ (run = Err (Raise ValueError final_state_mistaken)
      <-> damping_consistent sos_expr gamma_val
          /\ ~ final_state_referenced sos_expr final_state)
  /\ (run = Err (Raise ValueError real_expression_with_gamma)
      <-> ~ damping_consistent sos_expr gamma_val)
  /\ (run = Ok tt \/ run = Err (Raise ValueError real_expression_with_gamma)
      \/ run = Err (Raise ValueError final_state_mistaken))
  /\ run = _check_omegas_and_final_state sos_expr [] [] gamma_val final_state.
Proof.
  intros run. subst run. unfold _check_omegas_and_final_state.
  pose proof (check_damping_ok_iff sos_expr gamma_val) as Hd.
  pose proof (check_final_state_ok_iff sos_expr final_state) as Hf.
  destruct (check_damping_cases sos_expr gamma_val) as [Hdamp|Hdamp]; rewrite Hdamp in *;
    simpl.
  - assert (damping_consistent sos_expr gamma_val) as Hcons by by apply Hd.
    destruct (check_final_state_cases sos_expr final_state) as [Hfin|Hfin];
      rewrite Hfin in *.
    + assert (final_state_referenced sos_expr final_state) as Href by by apply Hf.
      split_and!; [done | | | by left | done].
      * split; [done|]. by intros [_ ?].
      * split; [done|]. done.
    + assert (~ final_state_referenced sos_expr final_state) as Href.
      { intros Href. apply Hf in Href. done. }
      split_and!; [ | done | | by right; right | done].
      * split; [done|]. by intros [_ ?].
      * split; [done|]. done.
  - assert (~ damping_consistent sos_expr gamma_val) as Hcons.
    { intros Hcons. apply Hd in Hcons. done. }
    split_and!; [ | | done | by right; left | done].
    + split; [done|]. by intros [? _].
    + split; [done|]. by intros [? _].
Qed.

End Check_outcomes.

(** ** [find_remaining_indices] *)

Section Remaining_indices.

Lemma name_in_elem_of (l : list string) x : name_in l x = true <-> x ∈ l.
Proof.
  unfold name_in. rewrite existsb_exists. setoid_rewrite <- list_elem_of_In.
  setoid_rewrite str_eqb_eq. split; [by intros (y & ? & ->) | by exists x].
Qed.

Lemma name_in_not_elem_of (l : list string) x : name_in l x = false <-> x ∉ l.
Proof. rewrite <- name_in_elem_of. by destruct (name_in l x). Qed.

Lemma remaining_loop (factors : list Basic) (summation_indices sum_ind : list string) :
  NoDup sum_ind ->
  let found :=
    fold_left
      (fun sum_ind a =>
         match a with
         | Bra label | Ket label =>
             if name_in summation_indices label && negb (name_in sum_ind label)
             then sum_ind ++ [label]
             else sum_ind
         | _ => sum_ind
         end)
      factors sum_ind in
  NoDup found
  /\ forall x, x ∈ found <-> x ∈ sum_ind \/ (x ∈ summation_indices /\ labels factors x).
Proof.
  revert sum_ind. induction factors as [|a l IH]; intros sum_ind Hnd; simpl.
  - split; [done|]. intros x. split; [by left|]. intros [?|[_ [H|H]]]; [done|..];
      by apply elem_of_nil in H.
  - assert (forall label,
              a = Bra label \/ a = Ket label ->
              let next := if name_in summation_indices label && negb (name_in sum_ind label)
                          then sum_ind ++ [label] else sum_ind in
              NoDup next
              /\ forall x, x ∈ next <-> x ∈ sum_ind \/ (x ∈ summation_indices /\ x = label))
      as Hstep.
    { intros label _. simpl.
      destruct (name_in summation_indices label) eqn:Hin; simpl.
      - destruct (name_in sum_ind label) eqn:Hseen; simpl.
        + apply name_in_elem_of in Hin, Hseen. split; [done|]. intros x.
          split; [by left|]. intros [?|[_ ->]]; done.
        + apply name_in_elem_of in Hin. apply name_in_not_elem_of in Hseen. split.
          * apply NoDup_app. split_and!; [done| |apply NoDup_singleton].
            intros x Hx ->%list_elem_of_singleton. done.
          * intros x. rewrite elem_of_app, list_elem_of_singleton. split.
            -- intros [?| ->]; [by left | by right].
            -- intros [?|[_ ->]]; [by left | by right].
      - apply name_in_not_elem_of in Hin. split; [done|]. intros x.
        split; [by left|]. intros [?|[? ->]]; done. }
    destruct a as [? | ? | ? | fl | | | label | label | ? ? | ? ? ? ? | | ? ? | ? | ?];
      try (destruct (IH sum_ind Hnd) as [Hnd' Hmem]; split; [done|];
      intros x; rewrite Hmem; unfold labels; rewrite !elem_of_cons;
      split; [intros [?|[? [?|?]]]; auto | intros [?|[? [[?|?]|[?|?]]]]; auto; done]).
    + destruct (Hstep label (or_introl eq_refl)) as [Hnd1 Hmem1].
      destruct (IH _ Hnd1) as [Hnd' Hmem]. split; [done|].
      intros x. rewrite Hmem, Hmem1. unfold labels. rewrite !elem_of_cons. split.
      * intros [[?|[? ->]]|[? [?|?]]]; auto.
      * intros [?|[? [[Heq|?]|[?|?]]]]; auto; try done.
        inversion Heq; subst. auto.
    + destruct (Hstep label (or_intror eq_refl)) as [Hnd1 Hmem1].
      destruct (IH _ Hnd1) as [Hnd' Hmem]. split; [done|].
      intros x. rewrite Hmem, Hmem1. unfold labels. rewrite !elem_of_cons. split.
      * intros [[?|[? ->]]|[? [?|?]]]; auto.
      * intros [?|[? [[?|?]|[Heq|?]]]]; auto; try done.
        inversion Heq; subst. auto.
Qed.

(** X2. [find_remaining_indices] refuses what is not a product with an
    [AssertionError]; for a product it returns, each once, exactly the
    summation indices that label a bra or a ket of the term; and for a
    product in which every summation index is bound it returns every
    summation index. *)
Theorem X2_remaining_indices (sos_expr : Basic) (summation_indices : list string) :
  (is_Mul sos_expr = false ->
   find_remaining_indices sos_expr summation_indices = Err (Raise AssertionError no_message))
  /\ (is_Mul sos_expr = true ->
      exists sum_ind,
        find_remaining_indices sos_expr summation_indices = Ok sum_ind
        /\ NoDup sum_ind
        /\ (forall x, x ∈ sum_ind
                      <-> x ∈ summation_indices /\ labels (args sos_expr) x)
        /\ (indices_bound sos_expr summation_indices ->
            forall x, x ∈ sum_ind <-> x ∈ summation_indices)).
Proof.
  unfold find_remaining_indices, assert. split; intros Hmul; rewrite Hmul; simpl; [done|].
  eexists. split; [done|].
  destruct (remaining_loop (args sos_expr) summation_indices [] (NoDup_nil_2)) as [Hnd Hmem].
  split_and!; [done| |].
  - intros x. rewrite Hmem, elem_of_nil. tauto.
  - intros Hbound x. rewrite Hmem, elem_of_nil. split; [tauto|].
    intros Hx. right. split; [done|]. left.
    destruct sos_expr; try discriminate. simpl in Hbound. by apply Hbound.
Qed.

End Remaining_indices.

(** X2 at the term of the first hyperpolarizability: both indices remain. *)
Lemma X2_remaining_indices_witness :
  find_remaining_indices examples.beta_sos_term [examples.n; examples.k]
  = Ok [examples.n; examples.k].
Proof.
  destruct (proj2 (X2_remaining_indices examples.beta_sos_term [examples.n; examples.k])
              eq_refl) as (sum_ind & Hrun & _).
  vm_compute in Hrun |- *. reflexivity.
Defined.

(** ** The component tuples of the assembly *)

Section Component_tuples.

Lemma elem_of_product {A} (l : list A) r (c : list A) :
  c ∈ itertools.product l r <-> length c = r /\ Forall (fun x => x ∈ l) c.
Proof.
  revert c. induction r as [|r IH]; intros c; simpl.
  - rewrite list_elem_of_singleton. split.
    + intros ->. split; [done | constructor].
    + intros [Hlen _]. by apply length_zero_iff_nil in Hlen.
  - rewrite list_elem_of_In, in_flat_map. setoid_rewrite <- list_elem_of_In. split.
    + intros (x & Hx & Hc). apply list_elem_of_In, in_map_iff in Hc as (c' & <- & Hc').
      apply list_elem_of_In, IH in Hc' as [Hlen Hall]. split; [by simpl; rewrite Hlen|].
      by constructor.
    + intros [Hlen Hall]. destruct c as [|x c']; [done|].
      apply Forall_cons in Hall as [Hx Hall]. exists x. split; [done|].
      apply list_elem_of_In, in_map_iff. exists c'. split; [done|].
      apply list_elem_of_In, IH. split; [by inversion Hlen | done].
Qed.

Lemma NoDup_cons_blocks {A} (l : list A) (tails : list (list A)) :
  NoDup l -> NoDup tails -> NoDup (flat_map (fun x => map (cons x) tails) l).
Proof.
  intros Hl Htails. induction Hl as [|x l Hx Hl IH]; simpl; [constructor|].
  apply NoDup_app. split_and!; [|..|done].
  - by apply (NoDup_fmap_2 (cons x)).
  - intros c Hc Hc'. apply list_elem_of_fmap in Hc as (c' & -> & _).
    apply list_elem_of_In, in_flat_map in Hc' as (y & Hy & Hc').
    apply in_map_iff in Hc' as (c'' & [= -> ->] & _). by apply list_elem_of_In in Hy.
Qed.

Lemma NoDup_product {A} (l : list A) r : NoDup l -> NoDup (itertools.product l r).
Proof.
  intros Hl. induction r as [|r IH]; simpl; [apply NoDup_singleton|].
  by apply NoDup_cons_blocks.
Qed.

Lemma length_cons_blocks {A} (l : list A) (tails : list (list A)) :
  length (flat_map (fun x => map (cons x) tails) l) = (length l * length tails)%nat.
Proof.
  induction l as [|x l IH]; simpl; [done|].
  by rewrite length_app, length_map, IH.
Qed.

Lemma length_product {A} (l : list A) r :
  length (itertools.product l r) = (length l ^ r)%nat.
Proof.
  induction r as [|r IH]; simpl; [done|]. by rewrite length_cons_blocks, IH.
Qed.

Lemma NoDup_combinations_seq (N r : nat) :
  forall a, (a <= N)%nat ->
            NoDup (itertools.combinations_with_replacement (seq a (N - a)) r).
Proof.
  induction r as [|r IH]; intros a Ha; simpl; [apply NoDup_singleton|].
  assert (forall n b, (b + n = N)%nat ->
            NoDup (flat_map (fun s => match s with
                                      | [] => []
                                      | x :: _ =>
                                          map (cons x)
                                              (itertools.combinations_with_replacement s r)
                                      end)
                            (itertools.suffixes (seq b n)))) as Hblocks.
  { induction n as [|n IHn]; intros b Hb; simpl; [constructor|].
    apply NoDup_app. split_and!.
    - apply (NoDup_fmap_2 (cons b)).
      change (b :: seq (S b) n) with (seq b (S n)).
      replace (S n) with (N - b)%nat by lia. apply IH. lia.
    - intros c Hc Hc'. apply list_elem_of_fmap in Hc as (c' & -> & _).
      apply list_elem_of_In, in_flat_map in Hc' as (s & Hs & Hc').
      apply list_elem_of_In, elem_of_suffixes_seq in Hs as (d & Hd & ->).
      replace (S b + n - d)%nat with (S (N - S d)) in Hc' by lia. simpl in Hc'.
      apply in_map_iff in Hc' as (c'' & [= -> ->] & _). lia.
    - apply IHn. lia. }
  apply Hblocks. lia.
Qed.

Lemma in_bounds_product order (c : list nat) :
  c ∈ components_to_fill false order <-> in_bounds (repeat 3%nat order) c = true.
Proof.
  unfold components_to_fill. rewrite elem_of_product, in_bounds_cartesian.
  split; intros [? Hall]; (split; [done|]); eapply Forall_impl; try done; simpl.
  - intros x Hx. repeat (apply elem_of_cons in Hx as [->|Hx]; [lia|]).
    by apply elem_of_nil in Hx.
  - intros x Hx. destruct x as [|[|[|x]]]; [repeat constructor..|lia].
Qed.

Lemma NoDup_components symmetric order : NoDup (components_to_fill symmetric order).
Proof.
  destruct symmetric; unfold components_to_fill.
  - change [0; 1; 2]%nat with (seq 0 (3 - 0)). apply NoDup_combinations_seq. lia.
  - apply NoDup_product. change [0; 1; 2]%nat with (seq 0 3). apply NoDup_seq.
Qed.

(** Two component tuples that write the same cell are the same tuple. *)
Lemma written_once symmetric order (c c' q : list nat) :
  c ∈ components_to_fill symmetric order -> c' ∈ components_to_fill symmetric order ->
  written symmetric c q -> written symmetric c' q -> c = c'.
Proof.
  destruct symmetric; simpl; [|congruence].
  intros (_ & _ & Hc)%elem_of_symmetric_components
         (_ & _ & Hc')%elem_of_symmetric_components Hq Hq'.
  apply (StronglySorted_unique le); [done..|]. by rewrite <- Hq, <- Hq'.
Qed.

(** The tuple from which a cell of the tensor is filled is a component
    tuple of the loop, and its iteration writes the cell. *)
Lemma filled_from_component symmetric order (q : list nat) :
  in_bounds (repeat 3%nat order) q = true ->
  filled_from symmetric q ∈ components_to_fill symmetric order
  /\ written symmetric (filled_from symmetric q) q.
Proof.
  intros Hq. destruct symmetric; simpl.
  - apply in_bounds_cartesian in Hq as [Hlen Hall]. split.
    + apply elem_of_symmetric_components. split_and!.
      * by rewrite merge_sort_Permutation.
      * by rewrite merge_sort_Permutation.
      * apply StronglySorted_merge_sort; apply _.
    + by rewrite merge_sort_Permutation.
  - split; [by apply in_bounds_product | done].
Qed.

(** X3. The component tuples over which the assembly loops: without
    symmetry they are the [3^order] index tuples of the tensor, each
    once; with symmetry they are the non-decreasing index tuples, each
    once, and every index tuple of the tensor is a rearrangement of
    exactly one of them. *)
Theorem X3_component_tuples (order : nat) :
  (forall c, c ∈ components_to_fill false order
             <-> in_bounds (repeat 3%nat order) c = true)
  /\ NoDup (components_to_fill false order)
  /\ length (components_to_fill false order) = (3 ^ order)%nat
  /\ (forall c, c ∈ components_to_fill true order
                <-> in_bounds (repeat 3%nat order) c = true /\ StronglySorted le c)
  /\ NoDup (components_to_fill true order)
  /\ (forall q, in_bounds (repeat 3%nat order) q = true ->
                exists s, (s ∈ components_to_fill true order /\ s ≡ₚ q)
                          /\ forall s', s' ∈ components_to_fill true order -> s' ≡ₚ q ->
                                        s' = s).
Proof.
  split_and!.
  - apply in_bounds_product.
  - apply NoDup_components.
  - unfold components_to_fill. by rewrite length_product.
  - intros c. rewrite elem_of_symmetric_components, in_bounds_cartesian. tauto.
  - apply NoDup_components.
  - intros q Hq. destruct (filled_from_component true order q Hq) as [Hs Hw].
    exists (filled_from true q). simpl in Hw. split; [split; [done|by symmetry]|].
    intros s' Hs' Hperm. apply (written_once true order s' _ q); [done..| |done].
    simpl. by symmetry.
Qed.

End Component_tuples.

(** ** The cells of the tensor assembled by substitution *)

Section Assembled_cells.
Context `{Numpy}.
Variable substituted : list nat -> Basic -> result Basic.
Implicit Types (t : ndarray Num) (c q : list nat).

(** The loop over the terms adds the values of the terms at [c] to the
    cell [c], and to no other. *)
Lemma term_loop_cell (terms : list Basic) c t t' :
  for_each terms (fun term res_tens => res ← substituted c term; accumulate c res res_tens) t
  = Ok t' ->
  exists ress,
    term_values substituted c terms ress
    /\ accumulated (array_dtype t) ress (data t c) = Ok (data t' c).
Proof.
  revert t. induction terms as [|term terms IH]; intros t Hrun; simpl in Hrun.
  - inversion Hrun; subst. exists []. split; [constructor | done].
  - destruct (substituted c term) as [res|e] eqn:Hres; simpl in Hrun; [|done].
    destruct (accumulate c res t) as [t1|e] eqn:Hacc; simpl in Hrun; [|done].
    apply accumulate_ok in Hacc as [Hzoo Hadd].
    destruct (IH _ Hrun) as (ress & Hvalues & Hsum).
    unfold iadd_cell in Hadd.
    destruct (get_cell t c) as [old|e] eqn:Hget; simpl in Hadd; [|done].
    apply get_cell_ok in Hget as [_ ->].
    destruct (item_iadd (array_dtype t) (data t c) res) as [new|e] eqn:Hnew;
      simpl in Hadd; [|done].
    apply set_cell_ok in Hadd as (_ & _ & Hd & Hdata).
    exists (res :: ress). split; [by constructor|].
    unfold accumulated. simpl. rewrite Hnew. simpl.
    rewrite Hd, Hdata, bool_decide_eq_true_2 in Hsum by done. done.
Qed.

(** One iteration of the loop over the component tuples. *)
Lemma component_step (symmetric : bool) (terms : list Basic) c t t' :
  (res_tens ← for_each terms
                (fun term res_tens => res ← substituted c term; accumulate c res res_tens) t;
   if symmetric then copy_to_permutations c res_tens else Ok res_tens) = Ok t' ->
  shape t' = shape t /\ array_dtype t' = array_dtype t
  /\ (forall q, ~ written symmetric c q -> data t' q = data t q)
  /\ exists ress,
       term_values substituted c terms ress
       /\ forall q, written symmetric c q ->
                    accumulated (array_dtype t) ress (data t c) = Ok (data t' q).
Proof.
  intros Hstep.
  destruct (for_each terms _ t) as [t1|e] eqn:Hterms; [|done]. simpl in Hstep.
  destruct (term_loop_cell _ _ _ _ Hterms) as (ress & Hvalues & Hsum).
  apply accumulate_terms_ok in Hterms as (Hs1 & Hd1 & Hother).
  destruct symmetric; simpl.
  - apply copy_to_permutations_ok in Hstep as (Hs & Hd & Hperms & Hrest).
    split_and!; [congruence..| |].
    + intros q Hq. rewrite Hrest by done. apply Hother. intros ->. by apply Hq.
    + exists ress. split; [done|]. intros q Hq. by rewrite Hperms.
  - inversion Hstep; subst. split_and!; [done..| |].
    + intros q Hq. by apply Hother.
    + exists ress. split; [done|]. by intros q ->.
Qed.

(** The loop over component tuples no two of which write a common cell. *)
Lemma component_loop (symmetric : bool) (terms : list Basic) (components : list (list nat)) t t' :
  NoDup components ->
  (forall c c' q, c ∈ components -> c' ∈ components ->
                  written symmetric c q -> written symmetric c' q -> c = c') ->
  (forall c, c ∈ components -> written symmetric c c) ->
  for_each components
    (fun c res_tens =>
       res_tens ← for_each terms
                    (fun term res_tens => res ← substituted c term;
                                          accumulate c res res_tens) res_tens;
       if symmetric then copy_to_permutations c res_tens else Ok res_tens) t = Ok t' ->
  array_dtype t' = array_dtype t
  /\ (forall q, (forall c, c ∈ components -> ~ written symmetric c q) ->
                data t' q = data t q)
  /\ forall c, c ∈ components ->
       exists ress,
         term_values substituted c terms ress
         /\ forall q, written symmetric c q ->
                      accumulated (array_dtype t) ress (data t c) = Ok (data t' q).
Proof.
  intros Hnd. revert t. induction Hnd as [|c cs Hc Hnd IH]; intros t Honce Hrefl Hrun.
  - simpl in Hrun. inversion Hrun; subst. split_and!; [done..|].
    intros c Hc. by apply elem_of_nil in Hc.
  - cbn [for_each] in Hrun.
    match type of Hrun with
    | (?m ≫= _) = _ => destruct m as [t1|e] eqn:Hstep; [|done]
    end.
    simpl in Hrun.
    apply component_step in Hstep as (_ & Hd1 & Hother1 & ress & Hvalues & Hsum).
    destruct (IH t1) as (Hd & Hother & Hcells); [| |done|].
    { intros a b q Ha Hb. apply Honce; by right. }
    { intros a Ha. apply Hrefl. by right. }
    assert (forall a q, a ∈ cs -> written symmetric a q -> ~ written symmetric c q)
      as Hapart.
    { intros a q Ha Hwa Hwc. assert (c = a) as ->; [|done].
      apply (Honce c a q); [by left | by right | done..]. }
    split_and!.
    + congruence.
    + intros q Hq. rewrite Hother.
      * apply Hother1. apply Hq. by left.
      * intros a Ha. apply Hq. by right.
    + intros a Ha. apply elem_of_cons in Ha as [->|Ha].
      * exists ress. split; [done|]. intros q Hq. rewrite Hother; [by apply Hsum|].
        intros a Ha Hwa. by apply (Hapart a q).
      * destruct (Hcells a Ha) as (ress' & Hvalues' & Hsum').
        exists ress'. split; [done|]. intros q Hq.
        rewrite <- (Hsum' q Hq), Hd1. f_equal. symmetry. apply Hother1.
        apply (Hapart a a Ha). apply Hrefl. by right.
Qed.

(** X4. Every cell of the tensor that [evaluate_property_isr] assembles
    holds the values of the terms of the root expression, added in their
    order to zero, at one component tuple: the index tuple of the cell
    itself, or with [symmetric=True] the index tuple sorted; to return
    the tensor, every term has substituted to a value at this tuple, and
    none to [zoo]. *)
Theorem X4_assembled_cells
    (order : nat) (gamma_val : float) (symmetric : bool) (root_expr : Basic)
    (res_tens : ndarray Num) :
  assemble_isr substituted order gamma_val symmetric root_expr = Ok res_tens ->
  forall q,
    in_bounds (shape res_tens) q = true ->
    exists ress,
      term_values substituted (filled_from symmetric q) (term_list_of root_expr) ress
      /\ accumulated (result_dtype gamma_val) ress zero = Ok (data res_tens q).
Proof.
  intros Hrun.
  assert (shape res_tens = repeat 3%nat order) as Hshape.
  { revert Hrun. unfold assemble_isr.
    apply (for_each_invariant (fun t => shape t = repeat 3%nat order)); [|done].
    intros c t t' _ Ht Hbody. apply component_step in Hbody as (Hs & _). congruence. }
  intros q Hq. rewrite Hshape in Hq.
  destruct (filled_from_component symmetric order q Hq) as [Hin Hw].
  unfold assemble_isr in Hrun.
  apply component_loop in Hrun as (_ & _ & Hcells).
  - destruct (Hcells _ Hin) as (ress & Hvalues & Hsum). exists ress. split; [done|].
    by apply (Hsum q).
  - apply NoDup_components.
  - intros c c' p. apply written_once.
  - intros c _. destruct symmetric; simpl; done.
Qed.

End Assembled_cells.

(** X4 at the polarizability: each of the two terms adds one to every
    cell. *)
Lemma X4_assembled_cells_witness :
  assemble_isr (H := examples.integer_arrays) (fun _ _ => Ok (Integer 1))
    2 fzero false examples.alpha_real = Ok examples.alpha_tensor
  /\ exists ress,
       term_values (fun _ _ => Ok (Integer 1)) [0; 1]%nat
                   (term_list_of examples.alpha_real) ress
       /\ accumulated (H := examples.integer_arrays) float64 ress
                      (zero (Numpy := examples.integer_arrays))
          = Ok (data examples.alpha_tensor [0; 1]%nat).
Proof.
  assert (assemble_isr (H := examples.integer_arrays) (fun _ _ => Ok (Integer 1))
            2 fzero false examples.alpha_real = Ok examples.alpha_tensor) as Hrun
    by (vm_compute; reflexivity).
  split; [exact Hrun|].
  refine (X4_assembled_cells (H := examples.integer_arrays) (fun _ _ => Ok (Integer 1))
            2 fzero false examples.alpha_real examples.alpha_tensor Hrun [0; 1]%nat _).
  vm_compute. reflexivity.
Defined.

(** ** The grouping of the solve requests *)

Section Grouped_requests.
Context `{Collaborators}.

Lemma dict_append_NoDup d key v :
  NoDup (map fst d) -> NoDup (map fst (dict_append d key v)).
Proof.
  induction d as [|[k vs] d IH]; simpl; intros Hnd.
  - apply NoDup_singleton.
  - apply NoDup_cons in Hnd as [Hk Hnd]. destruct (key_eqb k key) eqn:Heq; simpl.
    + by apply NoDup_cons.
    + apply NoDup_cons. split; [|by apply IH].
      rewrite dict_append_keys. intros [?| ->]; [done|].
      assert (key_eqb key key = true) as Hrefl by by apply key_eqb_eq. congruence.
Qed.

Lemma dict_append_values d key v :
  concat (map snd (dict_append d key v)) ≡ₚ concat (map snd d) ++ [v].
Proof.
  induction d as [|[k vs] d IH]; simpl; [done|].
  destruct (key_eqb k key); simpl.
  - rewrite <- !app_assoc. apply Permutation_app_head, Permutation_app_comm.
  - by rewrite IH, app_assoc.
Qed.

Lemma dict_append_grouped d key v k x :
  NoDup (map fst d) ->
  grouped (dict_append d key v) k x <-> grouped d k x \/ (k = key /\ x = v).
Proof.
  unfold grouped. induction d as [|[k' vs'] d IH]; simpl; intros Hnd.
  - split.
    + intros (vs & Hin & Hx). apply list_elem_of_singleton in Hin as [= -> ->].
      apply list_elem_of_singleton in Hx. by right.
    + intros [(vs & Hin & _)|[-> ->]]; [by apply elem_of_nil in Hin|].
      exists [v]. split; by apply list_elem_of_singleton.
  - apply NoDup_cons in Hnd as [Hk' Hnd]. destruct (key_eqb k' key) eqn:Heq.
    + apply key_eqb_eq in Heq as ->. split.
      * intros (vs & Hin & Hx). apply elem_of_cons in Hin as [[= -> ->]|Hin].
        -- apply elem_of_app in Hx as [Hx|Hx%list_elem_of_singleton]; [|by right].
           left. exists vs'. split; [by left | done].
        -- left. exists vs. split; [by right | done].
      * intros [(vs & Hin & Hx)|[-> ->]].
        -- apply elem_of_cons in Hin as [[= -> ->]|Hin].
           ++ exists (vs' ++ [v]). split; [by left|]. apply elem_of_app. by left.
           ++ exists vs. split; [by right | done].
        -- exists (vs' ++ [v]). split; [by left|]. apply elem_of_app. right.
           by apply list_elem_of_singleton.
    + split.
      * intros (vs & Hin & Hx). apply elem_of_cons in Hin as [[= -> ->]|Hin].
        -- left. exists vs'. split; [by left | done].
        -- destruct (proj1 (IH Hnd)) as [(ws & Hws & Hxw)|?]; [by exists vs| |by right].
           left. exists ws. split; [by right | done].
      * intros [(vs & Hin & Hx)|[-> ->]].
        -- apply elem_of_cons in Hin as [[= -> ->]|Hin].
           ++ exists vs'. split; [by left | done].
           ++ destruct (proj2 (IH Hnd)) as (ws & Hws & Hxw); [left; by exists vs|].
              exists ws. split; [by right | done].
        -- destruct (proj2 (IH Hnd)) as (ws & Hws & Hxw); [by right|].
           exists ws. split; [by right | done].
Qed.


Lemma group_loop all_omegas gamma_val (rvecs_dict : list (symbolic_key * Z)) d0 d :
  NoDup (map fst d0) ->
  for_each rvecs_dict
    (fun kv d => new_key ← substitute_key all_omegas gamma_val (fst kv);
                 Ok (dict_append d new_key (snd kv))) d0 = Ok d ->
  NoDup (map fst d)
  /\ concat (map snd d) ≡ₚ concat (map snd d0) ++ map snd rvecs_dict
  /\ forall key v,
       grouped d key v
       <-> grouped d0 key v
           \/ exists kv, kv ∈ rvecs_dict /\ snd kv = v
                         /\ substitute_key all_omegas gamma_val (fst kv) = Ok key.
Proof.
  revert d0. induction rvecs_dict as [|kv l IH]; intros d0 Hnd Hrun; simpl in Hrun.
  - inversion Hrun; subst. split_and!; [done | by rewrite app_nil_r |].
    intros key v. split; [by left|]. intros [?|(kv & Hin & _)]; [done|].
    by apply elem_of_nil in Hin.
  - destruct (substitute_key all_omegas gamma_val (fst kv)) as [new_key|e] eqn:Hk;
      simpl in Hrun; [|done].
    destruct (IH _ (dict_append_NoDup d0 new_key (snd kv) Hnd) Hrun)
      as (Hnd' & Hperm & Hgrouped).
    split_and!; [done| |].
    + rewrite Hperm, dict_append_values. simpl. by rewrite <- app_assoc.
    + intros key v. rewrite Hgrouped, dict_append_grouped by done. split.
      * intros [[?|[-> ->]]|(kv' & Hin & Hv & Hkey)]; [by left | |].
        -- right. exists kv. split; [by left | done].
        -- right. exists kv'. split; [by right | done].
      * intros [?|(kv' & Hin & Hv & Hkey)]; [by left; left|].
        apply elem_of_cons in Hin as [->|Hin].
        -- left. right. split; congruence.
        -- right. by exists kv'.
Qed.


End Grouped_requests.

(** ** The resolution of one solve request *)

Section Index_tuples.

Lemma elem_of_index_tuples (sh : list nat) (c : list nat) :
  c ∈ index_tuples sh <-> in_bounds sh c = true.
Proof.
  revert c. induction sh as [|s sh IH]; intros c; simpl.
  - rewrite list_elem_of_singleton. by destruct c.
  - rewrite list_elem_of_In, in_flat_map. setoid_rewrite <- list_elem_of_In. split.
    + intros (i & Hi & Hc). apply list_elem_of_In, in_map_iff in Hc as (c' & <- & Hc').
      apply list_elem_of_In, IH in Hc'. apply list_elem_of_In, in_seq in Hi.
      apply andb_true_iff. split; [apply Nat.ltb_lt; lia | done].
    + destruct c as [|i c']; [done|]. intros [Hi Hc']%andb_true_iff.
      apply Nat.ltb_lt in Hi. exists i. split.
      * apply list_elem_of_In, in_seq. lia.
      * apply list_elem_of_In, in_map_iff. exists c'. split; [done|].
        by apply list_elem_of_In, IH.
Qed.

Lemma length_index_tuples_cube (n : nat) :
  length (index_tuples (repeat 3%nat n)) = (3 ^ n)%nat.
Proof.
  induction n as [|n IH]; simpl; [done|].
  rewrite !length_app, !length_map, IH. simpl. lia.
Qed.

Lemma in_bounds_app (sh1 sh2 : list nat) (c : list nat) :
  in_bounds (sh1 ++ sh2) c = true ->
  in_bounds sh1 (take (length sh1) c) = true
  /\ in_bounds sh2 (drop (length sh1) c) = true.
Proof.
  revert c. induction sh1 as [|s sh1 IH]; intros c; simpl.
  - rewrite ?take_0, ?drop_0. intros Hc. by split.
  - destruct c as [|i c]; [done|]. simpl. intros [Hi Hc]%andb_true_iff.
    destruct (IH _ Hc) as [Ht Hd]. by rewrite Hi, Ht.
Qed.

End Index_tuples.

Section Request_properties.
Context `{Collaborators}.

Lemma fill_calls (components : list (list nat)) (entry : list nat -> traced Vec)
    (call : list nat -> solve_call) (val : list nat -> Vec) :
  (forall c, c ∈ components -> entry c = ([call c], Ok (val c))) ->
  fill components entry
  = (map call components, Ok (map (fun c => (c, val c)) components)).
Proof.
  induction components as [|c cs IH]; intros Hentry; simpl; [done|].
  rewrite (Hentry c) by by left. unfold traced_bind at 1. simpl.
  rewrite IH by (intros ??; apply Hentry; by right).
  unfold traced_bind, traced_ret. simpl. by rewrite app_nil_r.
Qed.

(** A loop whose first iteration raises before any solve. *)
Lemma fill_raises (components : list (list nat)) (entry : list nat -> traced Vec) e c cs :
  components = c :: cs -> entry c = ([], Err e) -> fill components entry = ([], Err e).
Proof. intros -> Hc. simpl. by rewrite Hc. Qed.

Lemma response_at_entries sh (components : list (list nat)) (val : list nat -> Vec) c :
  c ∈ components ->
  response_at {| response_shape := sh;
                 response_entries := map (fun c => (c, val c)) components |} c
  = Ok (val c).
Proof.
  unfold response_at. simpl. induction components as [|c' cs IH]; intros Hc.
  - by apply elem_of_nil in Hc.
  - simpl. case_bool_decide as Heq; [by subst|].
    apply elem_of_cons in Hc as [->|Hc]; [done | by apply IH].
Qed.

Lemma dict_get_set (d : list (Z * response)) vv r w :
  dict_get (dict_set d vv r) w = if bool_decide (w = vv) then Ok r else dict_get d w.
Proof.
  unfold dict_get. induction d as [|[k x] d IH]; simpl.
  - destruct (Z.eqb_spec vv w); case_bool_decide; try done; congruence.
  - destruct (Z.eqb_spec k vv) as [->|Hk]; simpl.
    + destruct (Z.eqb_spec vv w); case_bool_decide; try done; congruence.
    + destruct (Z.eqb_spec k w) as [->|Hw]; simpl; [|done].
      case_bool_decide; [congruence | done].
Qed.

Lemma bind_placeholders_rebound (d : list (Z * response)) v r :
  rebound d (bind_placeholders d v r) v r.
Proof.
  unfold rebound, bind_placeholders. revert d.
  induction v as [|vv v IH]; intros d; simpl.
  - split; [|done]. intros vv Hvv. by apply elem_of_nil in Hvv.
  - destruct (IH (dict_set d vv r)) as [Hin Hout]. split.
    + intros w Hw. destruct (decide (w ∈ v)) as [?|Hnin]; [by apply Hin|].
      rewrite Hout by done. apply elem_of_cons in Hw as [->|?]; [|done].
      by rewrite dict_get_set, bool_decide_eq_true_2.
    + intros w [Hne Hnin]%not_elem_of_cons. rewrite Hout by done.
      by rewrite dict_get_set, bool_decide_eq_false_2.
Qed.

Lemma complete_entries sh (val : list nat -> Vec) :
  complete {| response_shape := sh;
              response_entries := map (fun c => (c, val c)) (index_tuples sh) |}.
Proof.
  intros c Hc. simpl in Hc. exists (val c). apply response_at_entries.
  by apply elem_of_index_tuples.
Qed.


End Request_properties.


Section Product_requests.
Context `{Collaborators}.

Lemma traced_bind_lift_ok {A B} (a : A) (f : A -> traced B) :
  traced_bind (lift (Ok a)) f = f a.
Proof. unfold traced_bind, lift. simpl. by destruct (f a). Qed.

Lemma traced_bind_lift_err {A B} e (f : A -> traced B) :
  traced_bind (lift (Err e)) f = ([], Err e).
Proof. done. Qed.

Lemma index_tuples_cube_cons (n : nat) :
  exists c cs, index_tuples (repeat 3%nat n) = c :: cs.
Proof.
  pose proof (length_index_tuples_cube n) as Hlen.
  destruct (index_tuples (repeat 3%nat n)) as [|c cs]; [|by eexists _, _].
  simpl in Hlen. pose proof (Nat.pow_nonzero 3 n). lia.
Qed.

(** The path of lines 267-281 when the state of [final_state] exists. *)
Lemma final_state_path k v rd (fs : string * Z) rest x :
  kind k = S2S_MTM -> key_rest k = item_symbol (fst fs) :: rest ->
  getitem excitation_vector (snd fs) = Ok x ->
  let op_type := key_op_type k in
  let components := index_tuples (repeat 3%nat (op_dim op_type)) in
  resolve_request (Some fs) k v rd
  = (map (fun c => solve_for k (bmatrix_vector_product (dips op_type c) x)) components,
     Ok (bind_placeholders rd v
           {| response_shape := repeat 3%nat (op_dim op_type);
              response_entries :=
                map (fun c => (c, solution k (bmatrix_vector_product (dips op_type c) x)))
                    components |})).
Proof.
  intros Hkind Hrest Hx op_type components.
  unfold resolve_request. rewrite Hkind, Hrest, getitem_0.
  unfold traced_bind at 1. cbn [lift fst snd item_eqb app].
  assert (str_eqb (fst fs) (fst fs) = true) as -> by by apply str_eqb_eq.
  fold op_type. fold components. rewrite Hx.
  unfold solve_for, solution, as_rhs, solver_damping.
  destruct (nonzero (key_damping k)); cbn [negb];
    (erewrite fill_calls; [|intros c _; reflexivity]);
    unfold traced_bind, traced_ret; cbn [fst snd]; by rewrite app_nil_r.
Qed.

(** The path of lines 249-259 for a complete response without damping. *)
Lemma vector_path final_state k v rd no rest rvecs :
  kind k = S2S_MTM -> key_rest k = item_ResponseVector :: item_number no :: rest ->
  nonzero (key_damping k) = false ->
  dict_get rd no = Ok rvecs -> complete rvecs ->
  let op_type := key_op_type k in
  let product_vecs_shape := repeat 3%nat (op_dim op_type) ++ response_shape rvecs in
  let components := index_tuples product_vecs_shape in
  resolve_request final_state k v rd
  = (map (product_solve k rvecs) components,
     Ok (bind_placeholders rd v
           {| response_shape := product_vecs_shape;
              response_entries :=
                map (fun c => (c, solve_response (call_rhs (product_solve k rvecs c))
                                    (fneg (key_frequency k)) (fneg (key_damping k))))
                    components |})).
Proof.
  intros Hkind Hrest Hgam Hget Hcomplete op_type product_vecs_shape components.
  unfold resolve_request. rewrite Hkind, Hrest, getitem_0, traced_bind_lift_ok.
  cbn [item_eqb]. rewrite getitem_1, traced_bind_lift_ok, Hget, traced_bind_lift_ok, Hgam.
  cbn [negb]. fold op_type. fold product_vecs_shape. fold components.
  erewrite fill_calls.
  - unfold traced_bind, traced_ret. cbn [fst snd]. by rewrite app_nil_r.
  - intros c Hc. apply elem_of_index_tuples, in_bounds_app in Hc as [_ Hc].
    rewrite repeat_length in Hc. destruct (Hcomplete _ Hc) as [x Hx].
    unfold product_solve, operand. fold op_type. rewrite Hx, traced_bind_lift_ok. done.
Qed.

(** X7. A request for the product of the B matrix with the vector of the
    final state (kind [S2S_MTM], its fifth entry the symbol of the final
    state): when the state exists, one solve per component tuple of the
    operator is dispatched, each for the product of the dipole slice of
    the tuple with the excitation vector of the state, real and without
    damping for a request without damping, wrapped and damped with
    [-k[3]] otherwise, and the placeholders of the request are bound to
    the response of shape [(3,)*op_dim] that holds the solutions; when
    the state does not exist, the request raises [IndexError] before any
    solve. *)
Theorem X7_final_state_request
    (k : solve_key) (v : list Z) (response_dict : list (Z * response))
    (fs : string * Z) (rest : list key_item) :
  kind k = S2S_MTM -> key_rest k = item_symbol (fst fs) :: rest ->
  let op_type := key_op_type k in
  let run := resolve_request (Some fs) k v response_dict in
  (forall x, getitem excitation_vector (snd fs) = Ok x ->
     exists response response_dict',
       run = (map (fun c => solve_for k (bmatrix_vector_product (dips op_type c) x))
                  (index_tuples (repeat 3%nat (op_dim op_type))),
              Ok response_dict')
       /\ length (fst run) = (3 ^ op_dim op_type)%nat
       /\ rebound response_dict response_dict' v response
       /\ response_shape response = repeat 3%nat (op_dim op_type)
       /\ forall c, in_bounds (repeat 3%nat (op_dim op_type)) c = true ->
                    response_at response c
                    = Ok (solution k (bmatrix_vector_product (dips op_type c) x)))
  /\ (is_ok (getitem excitation_vector (snd fs)) = false ->
      run = ([], Err (Raise IndexError no_message))).
Proof.
  intros Hkind Hrest op_type run. split.
  - intros x Hx. subst run.
    rewrite (final_state_path k v response_dict fs rest x Hkind Hrest Hx).
    eexists _, _. split_and!; [done | | apply bind_placeholders_rebound | done |].
    + cbn [fst]. rewrite length_map. apply length_index_tuples_cube.
    + intros c Hc.
      apply (response_at_entries _ _
               (fun c => solution k (bmatrix_vector_product (dips op_type c) x))).
      by apply elem_of_index_tuples.
  - intros Hx. subst run. unfold resolve_request. rewrite Hkind, Hrest, getitem_0.
    unfold traced_bind at 1. cbn [lift fst snd item_eqb app].
    assert (str_eqb (fst fs) (fst fs) = true) as -> by by apply str_eqb_eq.
    destruct (index_tuples_cube_cons (op_dim (key_op_type k))) as (c & cs & Hcs).
    assert (getitem excitation_vector (snd fs) = Err (Raise IndexError no_message)) as He.
    { revert Hx. unfold getitem.
      destruct (_ && _)%bool; [|done]. by destruct (_ !! _). }
    rewrite (fill_raises _ _ (Raise IndexError no_message) c cs Hcs); [done|].
    by rewrite He.
Qed.


End Product_requests.

(** X7 at the final state [(f, 2)] of a state with five excited states. *)
Lemma X7_final_state_request_witness :
  exists response response_dict',
    resolve_request (H := examples.five_states) (Some (examples.f, 2%Z))
      {| kind := S2S_MTM; key_op_type := "electric"; key_frequency := mkfloat 1 (-1);
         key_damping := fzero; key_rest := [item_symbol examples.f] |}
      [0%Z] []
    = (map (fun c => solve_for (H := examples.five_states)
                       {| kind := S2S_MTM; key_op_type := "electric";
                          key_frequency := mkfloat 1 (-1);
                          key_damping := fzero; key_rest := [item_symbol examples.f] |} tt)
           [[0]; [1]; [2]]%nat,
       Ok response_dict')
    /\ dict_get (H := examples.five_states) response_dict' 0 = Ok response.
Proof.
  destruct (proj1 (X7_final_state_request (H := examples.five_states)
                     {| kind := S2S_MTM; key_op_type := "electric";
                        key_frequency := mkfloat 1 (-1);
                        key_damping := fzero; key_rest := [item_symbol examples.f] |}
                     [0%Z] [] (examples.f, 2%Z) [] eq_refl eq_refl) tt eq_refl)
    as (response & response_dict' & Hrun & _ & [Hbound _] & _).
  exists response, response_dict'. split; [exact Hrun|].
  apply Hbound. apply list_elem_of_singleton. reflexivity.
Defined.


(** ** The resolution of the requests of a tree *)

Section Tree_properties.
Context `{Collaborators}.

Ltac in_list :=
  simpl; repeat first [apply list_elem_of_here | apply list_elem_of_further].

Lemma mtm_path final_state k v rd :
  kind k = MTM ->
  let op_type := key_op_type k in
  let components := index_tuples (repeat 3%nat (op_dim op_type)) in
  resolve_request final_state k v rd
  = (map (fun c => solve_for k (mtms op_type c)) components,
     Ok (bind_placeholders rd v
           {| response_shape := repeat 3%nat (op_dim op_type);
              response_entries :=
                map (fun c => (c, solution k (mtms op_type c))) components |})).
Proof.
  intros Hkind op_type components.
  unfold resolve_request. rewrite Hkind. fold op_type. fold components.
  unfold solve_for, solution, as_rhs, solver_damping.
  destruct (nonzero (key_damping k)); cbn [negb];
    (erewrite fill_calls; [|intros c _; reflexivity]);
    unfold traced_bind, traced_ret; cbn [fst snd]; by rewrite app_nil_r.
Qed.

Lemma final_state_missing k v rd (fs : string * Z) rest e :
  kind k = S2S_MTM -> key_rest k = item_symbol (fst fs) :: rest ->
  getitem excitation_vector (snd fs) = Err e ->
  resolve_request (Some fs) k v rd = ([], Err e).
Proof.
  intros Hkind Hrest He. unfold resolve_request.
  rewrite Hkind, Hrest, getitem_0, traced_bind_lift_ok. cbn [item_eqb].
  assert (str_eqb (fst fs) (fst fs) = true) as -> by by apply str_eqb_eq.
  destruct (index_tuples_cube_cons (op_dim (key_op_type k))) as (c & cs & Hcs).
  rewrite (fill_raises _ _ e c cs Hcs); [done|]. by rewrite He.
Qed.

Lemma getitem_err {A} (l : list A) i e :
  getitem l i = Err e -> e = Raise IndexError no_message.
Proof.
  unfold getitem. destruct (_ && _)%bool; [|by intros [= <-]].
  destruct (_ !! _); [done | by intros [= <-]].
Qed.

Lemma dict_get_err (rd : list (Z * response)) w e :
  dict_get rd w = Err e -> e = Raise KeyError no_message.
Proof. unfold dict_get. destruct (find _ _); [done | by intros [= <-]]. Qed.

Lemma rebound_complete rd rd' v r :
  all_complete rd -> complete r -> rebound rd rd' v r ->
  all_complete rd' /\ forall w, bound rd' w <-> bound rd w \/ w ∈ v.
Proof.
  intros Hall Hr [Hin Hout]. split.
  - intros w r' Hget. destruct (decide (w ∈ v)) as [Hw|Hw].
    + rewrite (Hin w Hw) in Hget. by inversion Hget; subst.
    + rewrite (Hout w Hw) in Hget. by apply (Hall w).
  - intros w. unfold bound. destruct (decide (w ∈ v)) as [Hw|Hw].
    + rewrite (Hin w Hw). split; [by right | by exists r].
    + rewrite (Hout w Hw). split; [by left | by intros [?|?]].
Qed.

(** A request either binds its placeholders to a complete response or
    raises before any solve. *)
Lemma resolve_request_cases final_state k v rd :
  all_complete rd ->
  (exists response rd',
     snd (resolve_request final_state k v rd) = Ok rd'
     /\ complete response /\ rebound rd rd' v response)
  \/ (exists e,
        resolve_request final_state k v rd = ([], Err e)
        /\ kind k <> MTM
        /\ cls e ∈ [ValueError; IndexError; KeyError; TypeError; NotImplementedError]).
Proof.
  intros Hall. destruct (kind k) as [| |name] eqn:Hkind.
  - left. rewrite (mtm_path final_state k v rd Hkind). eexists _, _.
    split_and!; [done | apply complete_entries | apply bind_placeholders_rebound].
  - destruct (key_rest k) as [|k4 rest] eqn:Hrest.
    { right. exists (Raise IndexError no_message). split_and!; [|done|in_list].
      unfold resolve_request. by rewrite Hkind, Hrest. }
    destruct (item_eqb k4 item_ResponseVector) eqn:Hk4.
    + apply item_eqb_eq in Hk4 as ->. destruct rest as [|no rest].
      { right. exists (Raise IndexError no_message). split_and!; [|done|in_list].
        unfold resolve_request. by rewrite Hkind, Hrest. }
      assert (forall e, match no with
                        | item_number z => dict_get rd z
                        | _ => raise KeyError no_message
                        end = Err e ->
                        resolve_request final_state k v rd = ([], Err e)) as Hmiss.
      { intros e He. unfold resolve_request.
        rewrite Hkind, Hrest, getitem_0, traced_bind_lift_ok. cbn [item_eqb].
        by rewrite getitem_1, traced_bind_lift_ok, He. }
      destruct no as [|name|z].
      * right. eexists. split_and!; [by apply Hmiss|done|in_list].
      * right. eexists. split_and!; [by apply Hmiss|done|in_list].
      * destruct (dict_get rd z) as [rvecs|e] eqn:Hget.
        -- destruct (nonzero (key_damping k)) eqn:Hgam.
           ++ right. exists (Raise NotImplementedError complex_rhs_not_implemented).
              split_and!; [|done|in_list].
              unfold resolve_request.
              rewrite Hkind, Hrest, getitem_0, traced_bind_lift_ok. cbn [item_eqb].
              by rewrite getitem_1, traced_bind_lift_ok, Hget, traced_bind_lift_ok, Hgam.
           ++ left.
              rewrite (vector_path final_state k v rd z rest rvecs Hkind Hrest Hgam Hget
                         (Hall _ _ Hget)).
              eexists _, _.
              split_and!; [done | apply complete_entries | apply bind_placeholders_rebound].
        -- right. exists e. split_and!; [by apply Hmiss | done |].
           apply dict_get_err in Hget as ->. in_list.
    + assert (k4 <> item_ResponseVector) as Hne.
      { intros ->. by rewrite (proj2 (item_eqb_eq _ _) eq_refl) in Hk4. }
      destruct final_state as [fs|].
      * destruct (item_eqb k4 (item_symbol (fst fs))) eqn:Hfs.
        -- apply item_eqb_eq in Hfs as ->.
           destruct (getitem excitation_vector (snd fs)) as [x|e] eqn:Hx.
           ++ left. rewrite (final_state_path k v rd fs rest x Hkind Hrest Hx).
              eexists _, _.
              split_and!; [done | apply complete_entries | apply bind_placeholders_rebound].
           ++ right. exists e. split_and!; [|done|].
              ** by apply (final_state_missing k v rd fs rest).
              ** apply getitem_err in Hx as ->. in_list.
        -- right. exists (Raise ValueError unknown_response_equation).
           split_and!; [|done|in_list].
           unfold resolve_request.
           rewrite Hkind, Hrest, getitem_0, traced_bind_lift_ok. by rewrite Hk4, Hfs.
      * right. exists (Raise TypeError no_message). split_and!; [|done|in_list].
        unfold resolve_request.
        rewrite Hkind, Hrest, getitem_0, traced_bind_lift_ok. by rewrite Hk4.
  - right. exists (Raise ValueError unknown_response_equation).
    split_and!; [|done|in_list]. unfold resolve_request. by rewrite Hkind.
Qed.


Lemma traced_for_footprint {A} (l : list A)
    (body : A -> list (Z * response) -> traced (list (Z * response)))
    (keys : A -> list Z) s s' :
  (forall x t t', x ∈ l -> all_complete t -> snd (body x t) = Ok t' ->
                  all_complete t' /\ forall w, bound t' w <-> bound t w \/ w ∈ keys x) ->
  all_complete s -> snd (traced_for l body s) = Ok s' ->
  all_complete s' /\ forall w, bound s' w <-> bound s w \/ exists x, x ∈ l /\ w ∈ keys x.
Proof.
  revert s. induction l as [|x l IH]; intros s Hbody Hs Hrun; simpl in Hrun.
  - inversion Hrun; subst. split; [done|]. intros w. split; [by left|].
    intros [?|(x & Hx & _)]; [done | by apply elem_of_nil in Hx].
  - apply traced_bind_ok in Hrun as (t & Hx & Hrest).
    destruct (Hbody x s t) as [Ht Hbt]; [by left | done..|].
    destruct (IH t) as [Hs' Hbs']; [|done..|].
    { intros y u u' Hy. apply Hbody. by right. }
    split; [done|]. intros w. rewrite Hbs', Hbt. split.
    + intros [[?|?]|(y & Hy & Hw)]; [by left | |].
      * right. exists x. split; [by left | done].
      * right. exists y. split; [by right | done].
    + intros [?|(y & Hy & Hw)]; [by left; left|].
      apply elem_of_cons in Hy as [->|Hy]; [by left; right|]. right. by exists y.
Qed.

Lemma elem_of_concat_snd {K} (d : list (K * list Z)) (w : Z) :
  w ∈ concat (map snd d) <-> exists kv, kv ∈ d /\ w ∈ snd kv.
Proof.
  induction d as [|kv d IH]; simpl.
  - rewrite elem_of_nil. split; [done|]. intros (kv & Hkv & _). by apply elem_of_nil in Hkv.
  - rewrite elem_of_app, IH. split.
    + intros [?|(kv' & ? & ?)]; [exists kv | exists kv']; (split; [|done]);
        [by left | by right].
    + intros (kv' & [->|?]%elem_of_cons & ?); [by left | right; by exists kv'].
Qed.

(** X10. When the resolution of the requests of all trees returns, the
    placeholders that have a response in the dictionary are exactly the
    placeholders of the requests of the trees, and every response has a
    vector for each index tuple of its shape. *)
Theorem X10_resolved_tree
    (final_state : option (string * Z)) (all_omegas : list (Basic * Basic))
    (gamma_val : float) (rvecs_dict_list : list (Basic * list (symbolic_key * Z)))
    (response_dict : list (Z * response)) :
  snd (resolve_tree final_state all_omegas gamma_val rvecs_dict_list) = Ok response_dict ->
  all_complete response_dict
  /\ forall w, bound response_dict w
               <-> exists tup kv, tup ∈ rvecs_dict_list /\ kv ∈ snd tup /\ snd kv = w.
Proof.
  intros Hrun. unfold resolve_tree in Hrun.
  apply (traced_for_footprint _ _ (fun tup => map snd (snd tup))) in Hrun
    as [Hall Hbound].
  - split; [done|]. intros w. rewrite Hbound. split.
    + intros [[r Hr]|(tup & Htup & Hw)]; [done|].
      apply list_elem_of_fmap in Hw as (kv & -> & Hkv). by exists tup, kv.
    + intros (tup & kv & Htup & Hkv & <-). right. exists tup. split; [done|].
      apply list_elem_of_fmap. by exists kv.
  - intros tup t t' _ Ht Hbody.
    apply traced_bind_ok in Hbody as (d & Hgroup & Hsolve). simpl in Hgroup.
    unfold group_requests in Hgroup.
    apply group_loop in Hgroup as (_ & Hperm & _); [|constructor].
    simpl in Hperm.
    apply (traced_for_footprint _ _ snd) in Hsolve as [Ht' Hbt']; [|clear Hsolve|done].
    + split; [done|]. intros w. by rewrite Hbt', <- Hperm, elem_of_concat_snd.
    + intros kv u u' _ Hu Hstep.
      destruct (resolve_request_cases final_state (fst kv) (snd kv) u Hu)
        as [(response & rd' & Hok & Hcomplete & Hrebound)|(e & Herr & _)].
      * rewrite Hok in Hstep. inversion Hstep; subst rd'.
        by apply (rebound_complete u u' (snd kv) response).
      * by rewrite Herr in Hstep.
  - intros w r Hr. done.
Qed.

End Tree_properties.


(** X10 at a tree with one request for a modified transition moment. *)
Lemma X10_resolved_tree_witness :
  exists response_dict,
    snd (resolve_tree (H := examples.five_states) None [] fzero
           [(Integer 0,
             [({| sym_kind := MTM; sym_op_type := "electric";
                  sym_frequency := examples.w; sym_damping := Integer 0;
                  sym_rest := [] |}, 0%Z)])])
    = Ok response_dict
    /\ all_complete (H := examples.five_states) response_dict
    /\ bound (H := examples.five_states) response_dict 0.
Proof.
  eexists. split; [vm_compute; reflexivity|].
  match goal with
  | |- all_complete ?rd /\ _ =>
      destruct (X10_resolved_tree (H := examples.five_states) None [] fzero
                  [(Integer 0,
                    [({| sym_kind := MTM; sym_op_type := "electric";
                         sym_frequency := examples.w; sym_damping := Integer 0;
                         sym_rest := [] |}, 0%Z)])] rd) as [Hall Hbound];
      [vm_compute; reflexivity|]
  end.
  split; [exact Hall|]. apply Hbound.
  eexists _, _. split; [apply list_elem_of_singleton; reflexivity|].
  split; [apply list_elem_of_singleton; reflexivity | reflexivity].
Defined.

(** ** The excluded cases of the substitution path *)

Section Excluded_assignments.

Lemma modified_loop fs (excluded_cases : list (string * string)) acc :
  for_each excluded_cases
    (fun tup acc =>
       match Some fs with
       | None => raise TypeError no_message
       | Some fs =>
           Ok (acc ++ [if str_eqb (snd tup) (fst fs)
                       then (fst tup, case_number (snd fs))
                       else (fst tup, case_symbol (snd tup))])
       end) acc
  = Ok (acc ++ map (fun tup : string * string =>
                      if str_eqb (snd tup) (fst fs)
                      then (fst tup, case_number (snd fs))
                      else (fst tup, case_symbol (snd tup)))
                   excluded_cases).
Proof.
  revert acc. induction excluded_cases as [|tup l IH]; intros acc; simpl.
  - by rewrite app_nil_r.
  - rewrite IH. by rewrite <- app_assoc.
Qed.

(** X11. The skipping of assignments in [evaluate_property_sos]: without
    a final state, a non-empty list of excluded cases raises [TypeError];
    with a final state, an assignment of states to the indices of
    summation is skipped exactly when it gives the number of the final
    state to an index that is excluded together with the symbol of the
    final state. An excluded case with any other symbol, such as the
    ground state, skips nothing. *)
Theorem X11_excluded_assignments
    (final_state : option (string * Z)) (excluded_cases : list (string * string)) :
  (final_state = None -> excluded_cases <> [] ->
   modified_excluded_cases final_state excluded_cases = Err (Raise TypeError no_message))
  /\ (excluded_cases = [] -> modified_excluded_cases final_state excluded_cases = Ok [])
  /\ (forall fs, final_state = Some fs ->
        exists modified,
          modified_excluded_cases final_state excluded_cases = Ok modified
          /\ forall state_map,
               is_excluded modified state_map = true
               <-> excluded_assignment final_state excluded_cases state_map).
Proof.
  split_and!.
  - intros -> Hne. destruct excluded_cases as [|tup l]; done.
  - by intros ->.
  - intros fs ->. unfold modified_excluded_cases. rewrite modified_loop. simpl.
    eexists. split; [done|]. intros state_map. unfold is_excluded, excluded_assignment.
    rewrite existsb_exists. split.
    + intros ([index st] & Hin & Hm). apply existsb_exists in Hm as ([name cv] & Hm & Heq).
      apply list_elem_of_In in Hin. apply in_map_iff in Hm as ([idx sym] & Htup & Hex).
      apply list_elem_of_In in Hex. simpl in Htup, Heq.
      apply andb_true_iff in Heq as [Hname Hcv]. apply str_eqb_eq in Hname.
      destruct (str_eqb sym (fst fs)) eqn:Hsym; inversion Htup; subst; [|done].
      apply str_eqb_eq in Hsym as ->. apply Z.eqb_eq in Hcv.
      by exists fs, index, st.
    + intros (fs' & index & st & [= <-] & Hin & Hex & Hst).
      exists (index, st). split; [by apply list_elem_of_In|].
      apply existsb_exists. exists (index, case_number (snd fs)). split.
      * apply in_map_iff. exists (index, fst fs). simpl.
        rewrite (proj2 (str_eqb_eq _ _) eq_refl). split; [done | by apply list_elem_of_In].
      * simpl. rewrite (proj2 (str_eqb_eq _ _) eq_refl). simpl. by apply Z.eqb_eq.
Qed.

End Excluded_assignments.

(** ** The cells of the tensor of the sum over the states *)

Section Summed_cells.
Context `{Numpy}.
Variable replaced : term_dict -> list (string * nat) -> list nat -> result Basic.
Variable number_of_states : nat.
Implicit Types (t u : ndarray Num) (c q : list nat).

Lemma iadd_cell_value t c res t' :
  iadd_cell t c res = Ok t' ->
  array_dtype t' = array_dtype t
  /\ (forall q, q <> c -> data t' q = data t q)
  /\ item_iadd (array_dtype t) (data t c) res = Ok (data t' c).
Proof.
  intros Hadd. pose proof (iadd_cell_ok _ _ _ _ Hadd) as (_ & Hd & Hother).
  split_and!; [done..|]. unfold iadd_cell in Hadd.
  destruct (get_cell t c) as [old|e] eqn:Hget; simpl in Hadd; [|done].
  apply get_cell_ok in Hget as [_ ->].
  destruct (item_iadd (array_dtype t) (data t c) res) as [new|e]; simpl in Hadd; [|done].
  apply set_cell_ok in Hadd as (_ & _ & _ & Hdata).
  by rewrite Hdata, bool_decide_eq_true_2.
Qed.

(** A loop over component tuples no two of which write a common cell. *)
Lemma written_loop (symmetric : bool)
    (body : list nat -> ndarray Num -> result (ndarray Num))
    (R : list nat -> Num -> Num -> Prop) (dt : dtype)
    (components : list (list nat)) t t' :
  NoDup components ->
  (forall c c' q, c ∈ components -> c' ∈ components ->
                  written symmetric c q -> written symmetric c' q -> c = c') ->
  (forall c, c ∈ components -> written symmetric c c) ->
  (forall c u u', c ∈ components -> array_dtype u = dt -> body c u = Ok u' ->
                  array_dtype u' = dt
                  /\ (forall q, ~ written symmetric c q -> data u' q = data u q)
                  /\ forall q, written symmetric c q -> R c (data u c) (data u' q)) ->
  array_dtype t = dt ->
  for_each components body t = Ok t' ->
  array_dtype t' = dt
  /\ forall c, c ∈ components ->
               forall q, written symmetric c q -> R c (data t c) (data t' q).
Proof.
  intros Hnd Honce Hrefl Hbody Hdt Hrun.
  enough (array_dtype t' = dt
          /\ (forall q, (forall c, c ∈ components -> ~ written symmetric c q) ->
                        data t' q = data t q)
          /\ forall c, c ∈ components ->
                       forall q, written symmetric c q -> R c (data t c) (data t' q))
    as (? & _ & ?) by done.
  revert t Honce Hrefl Hbody Hdt Hrun.
  induction Hnd as [|c cs Hc Hnd IH]; intros t Honce Hrefl Hbody Hdt Hrun.
  - simpl in Hrun. inversion Hrun; subst. split_and!; [done..|].
    intros c Hc. by apply elem_of_nil in Hc.
  - simpl in Hrun. destruct (body c t) as [t1|e] eqn:Hstep; simpl in Hrun; [|done].
    destruct (Hbody c t t1) as (Hd1 & Hother1 & Hcell1); [by left | done..|].
    destruct (IH t1) as (Hd & Hother & Hcells); [| | |done..|].
    { intros a b q Ha Hb. apply Honce; by right. }
    { intros a Ha. apply Hrefl. by right. }
    { intros a u u' Ha. apply Hbody. by right. }
    assert (forall a q, a ∈ cs -> written symmetric a q -> ~ written symmetric c q)
      as Hapart.
    { intros a q Ha Hwa Hwc. assert (c = a) as ->; [|done].
      apply (Honce c a q); [by left | by right | done..]. }
    split_and!; [done| |].
    + intros q Hq. rewrite Hother.
      * apply Hother1. apply Hq. by left.
      * intros a Ha. apply Hq. by right.
    + intros a Ha q Hq. apply elem_of_cons in Ha as [->|Ha].
      * rewrite Hother; [by apply Hcell1|]. intros a Ha Hwa. by apply (Hapart a q).
      * rewrite <- (Hother1 a); [by apply Hcells|].
        apply (Hapart a a Ha). apply Hrefl. by right.
Qed.

Lemma summed_ext symmetric order dt L L' t :
  (forall c, L c = L' c) -> summed symmetric order dt L t -> summed symmetric order dt L' t.
Proof.
  intros Hext [Hd Hcells]. split; [done|]. intros c Hc. rewrite <- Hext. by apply Hcells.
Qed.

(** One assignment of states that is not excluded. *)
Lemma assignment_step (symmetric : bool) order dt L td state_map t t' :
  summed symmetric order dt L t ->
  for_each (components_to_fill symmetric order)
    (fun c res_tens =>
       res ← replaced td state_map c;
       res_tens ← accumulate c res res_tens;
       if symmetric then copy_to_permutations c res_tens else Ok res_tens) t = Ok t' ->
  summed symmetric order dt (fun c => L c ++ [replaced td state_map c]) t'.
Proof.
  intros [Hdt Hcells] Hrun.
  apply (written_loop symmetric _
           (fun c old new =>
              exists res, replaced td state_map c = Ok res /\ res <> ComplexInfinity
                          /\ item_iadd dt old res = Ok new) dt) in Hrun
    as [Hdt' Hnew]; [| apply NoDup_components | | | | done].
  - split; [done|]. intros c Hc.
    destruct (Hcells c Hc) as (ress & Hvalues & Hsum).
    assert (written symmetric c c) as Hcc by (destruct symmetric; simpl; done).
    destruct (Hnew c Hc c Hcc) as (res & Hres & Hzoo & _).
    exists (ress ++ [res]). split.
    + apply Forall2_app; [done|]. constructor; [|constructor]. split; [exact Hres | done].
    + intros q Hq. destruct (Hnew c Hc q Hq) as (res' & Hres' & _ & Hadd).
      assert (res' = res) as -> by congruence.
      unfold accumulated in *. rewrite for_each_app, (Hsum c Hcc). simpl. by rewrite Hadd.
  - intros c c' q. apply written_once.
  - intros c _. destruct symmetric; simpl; done.
  - intros c u u' _ Hu Hstep.
    destruct (replaced td state_map c) as [res|e]; simpl in Hstep; [|done].
    destruct (accumulate c res u) as [u1|e] eqn:Hacc; simpl in Hstep; [|done].
    apply accumulate_ok in Hacc as [Hzoo Hadd].
    apply iadd_cell_value in Hadd as (Hd1 & Hother1 & Hcell1). rewrite Hu in Hcell1.
    destruct symmetric; simpl.
    + apply copy_to_permutations_ok in Hstep as (_ & Hd & Hperms & Hrest).
      split_and!; [congruence| |].
      * intros q Hq. rewrite Hrest by done. apply Hother1. intros ->. by apply Hq.
      * intros q Hq. exists res. rewrite Hperms by done. done.
    + inversion Hstep; subst u'. split_and!; [congruence| |].
      * intros q Hq. by apply Hother1.
      * intros q ->. by exists res.
Qed.

Lemma assignments_loop (symmetric : bool) order dt modified td
    (maps : list (list (string * nat))) :
  forall L t t',
    summed symmetric order dt L t ->
    for_each maps
      (fun state_map res_tens =>
         if is_excluded modified state_map then Ok res_tens
         else
           for_each (components_to_fill symmetric order)
             (fun c res_tens =>
                res ← replaced td state_map c;
                res_tens ← accumulate c res res_tens;
                if symmetric then copy_to_permutations c res_tens else Ok res_tens)
             res_tens) t = Ok t' ->
    summed symmetric order dt
      (fun c => L c ++ flat_map (fun state_map =>
                                   if is_excluded modified state_map then []
                                   else [replaced td state_map c]) maps) t'.
Proof.
  induction maps as [|state_map maps IH]; intros L t t' Hinv Hrun; simpl in Hrun.
  - inversion Hrun; subst. eapply summed_ext; [|done]. intros c. simpl.
    by rewrite app_nil_r.
  - destruct (is_excluded modified state_map) eqn:Hex.
    + simpl in Hrun. apply (IH L) in Hrun; [|done]. eapply summed_ext; [|done].
      intros c. simpl. by rewrite Hex.
    + match type of Hrun with
      | (?m ≫= _) = _ => destruct m as [t1|e] eqn:Hstep; [|done]
      end.
      simpl in Hrun. apply (assignment_step symmetric order dt L) in Hstep; [|done].
      apply (IH (fun c => L c ++ [replaced td state_map c])) in Hrun; [|done].
      eapply summed_ext; [|done].
      intros c. simpl. rewrite Hex. simpl. by rewrite <- app_assoc.
Qed.

Lemma for_each_map_list {A B S} (f : A -> B) (l : list A) (body : B -> S -> result S) s :
  for_each (map f l) body s = for_each l (fun x => body (f x)) s.
Proof.
  revert s. induction l as [|x l IH]; intros s; simpl; [done|].
  destruct (body (f x) s); simpl; [apply IH | done].
Qed.

Lemma terms_loop (symmetric : bool) order dt modified (term_list : list term_dict) :
  forall L t t',
    summed symmetric order dt L t ->
    for_each term_list
      (fun td res_tens =>
         for_each (itertools.product (seq 0 number_of_states)
                     (length (term_summation_indices td)))
           (fun i res_tens =>
              let state_map := zip (term_summation_indices td) i in
              if is_excluded modified state_map then Ok res_tens
              else
                for_each (components_to_fill symmetric order)
                  (fun c res_tens =>
                     res ← replaced td state_map c;
                     res_tens ← accumulate c res res_tens;
                     if symmetric then copy_to_permutations c res_tens else Ok res_tens)
                  res_tens)
           res_tens) t = Ok t' ->
    summed symmetric order dt
      (fun c => L c ++ contributions replaced number_of_states modified term_list c) t'.
Proof.
  induction term_list as [|td l IH]; intros L t t' Hinv Hrun; simpl in Hrun.
  - inversion Hrun; subst. eapply summed_ext; [|done]. intros c. simpl.
    by rewrite app_nil_r.
  - match type of Hrun with
    | (?m ≫= _) = _ => destruct m as [t1|e] eqn:Hstep; [|done]
    end.
    simpl in Hrun.
    rewrite <- (for_each_map_list (zip (term_summation_indices td)) _
                  (fun state_map res_tens =>
                     if is_excluded modified state_map then Ok res_tens
                     else
                       for_each (components_to_fill symmetric order)
                         (fun c res_tens =>
                            res ← replaced td state_map c;
                            res_tens ← accumulate c res res_tens;
                            if symmetric then copy_to_permutations c res_tens
                            else Ok res_tens)
                         res_tens)) in Hstep.
    apply (assignments_loop symmetric order dt modified td _ L) in Hstep; [|done].
    apply (IH (fun c => L c ++ flat_map
                                 (fun state_map =>
                                    if is_excluded modified state_map then []
                                    else [replaced td state_map c])
                                 (map (zip (term_summation_indices td))
                                      (itertools.product
                                         (seq 0 number_of_states)
                                         (length (term_summation_indices td))))))
      in Hrun; [|done].
    eapply summed_ext; [|done].
    intros c. simpl. by rewrite <- app_assoc.
Qed.

Lemma assemble_sos_shape order gamma_val symmetric final_state excluded_cases
    term_list res_tens :
  assemble_sos replaced number_of_states order gamma_val symmetric final_state
    excluded_cases term_list = Ok res_tens ->
  shape res_tens = repeat 3%nat order.
Proof.
  unfold assemble_sos.
  destruct (modified_excluded_cases final_state excluded_cases) as [modified|e]; [|done].
  simpl. intros Hrun.
  enough (result_array order gamma_val res_tens) as [? _] by done.
  revert Hrun.
  apply (for_each_invariant (result_array order gamma_val));
    [|apply np_zeros_result_array].
  intros td t t' _ Ht.
  apply (for_each_invariant (result_array order gamma_val)); [|done].
  intros i u u' _ Hu.
  destruct (is_excluded modified _); [by inversion 1; subst|].
  apply (for_each_invariant (result_array order gamma_val)); [|done].
  intros c x x' _ Hx Hstep.
  destruct (replaced td _ c) as [res|e]; [|done]. simpl in Hstep.
  destruct (accumulate c res x) as [y|e] eqn:Hacc; [|done]. simpl in Hstep.
  pose proof (accumulate_result_array _ _ _ _ _ _ Hx Hacc) as Hy.
  destruct symmetric; [by apply (copy_result_array _ _ c y) | by inversion Hstep; subst].
Qed.

(** X12. Every cell of the tensor that [evaluate_property_sos] assembles
    holds the sum, over the terms in their order and, for each term, over
    the assignments of states to its indices of summation that are not
    skipped, of the substituted term, added to zero with [+=], all taken
    at one component tuple: the index tuple of the cell, or with
    [symmetric=True] the index tuple sorted; for the tensor to be
    returned every such substitution gave a value other than [zoo]. *)
Theorem X12_summed_cells
    (order : nat) (gamma_val : float) (symmetric : bool)
    (final_state : option (string * Z)) (excluded_cases : list (string * string))
    (term_list : list term_dict) (res_tens : ndarray Num) :
  assemble_sos replaced number_of_states order gamma_val symmetric final_state
    excluded_cases term_list = Ok res_tens ->
  exists modified,
    modified_excluded_cases final_state excluded_cases = Ok modified
    /\ forall q,
         in_bounds (shape res_tens) q = true ->
         exists ress,
           values (contributions replaced number_of_states modified term_list
                     (filled_from symmetric q)) ress
           /\ accumulated (result_dtype gamma_val) ress zero = Ok (data res_tens q).
Proof.
  intros Hrun.
  pose proof (assemble_sos_shape _ _ _ _ _ _ _ Hrun) as Hshape.
  unfold assemble_sos in Hrun.
  destruct (modified_excluded_cases final_state excluded_cases) as [modified|e]; [|done].
  simpl in Hrun. exists modified. split; [done|].
  apply (terms_loop symmetric order (result_dtype gamma_val) modified term_list
           (fun _ => [])) in Hrun.
  - destruct Hrun as [_ Hcells]. intros q Hq. rewrite Hshape in Hq.
    destruct (filled_from_component symmetric order q Hq) as [Hin Hw].
    destruct (Hcells _ Hin) as (ress & Hvalues & Hsum). exists ress. split; [done|].
    by apply Hsum.
  - split; [done|]. intros c _. exists []. split; [constructor | done].
Qed.

End Summed_cells.

(** X12 at a sum over two states of which the second is excluded: one
    contribution per cell. *)
Lemma X12_summed_cells_witness :
  assemble_sos (H := examples.integer_arrays) (fun _ _ _ => Ok (Integer 1)) 2
    1 fzero false (Some (examples.f, 1%Z)) [(examples.n, examples.f)]
    [examples_sos.esp_term] = Ok examples_sos.esp_tensor
  /\ exists ress,
       values (contributions (fun _ _ _ => Ok (Integer 1)) 2
                 [(examples.n, case_number 1)] [examples_sos.esp_term] [0%nat]) ress
       /\ accumulated (H := examples.integer_arrays) float64 ress
                      (zero (Numpy := examples.integer_arrays))
          = Ok (data examples_sos.esp_tensor [0%nat]).
Proof.
  assert (assemble_sos (H := examples.integer_arrays) (fun _ _ _ => Ok (Integer 1)) 2
            1 fzero false (Some (examples.f, 1%Z)) [(examples.n, examples.f)]
            [examples_sos.esp_term] = Ok examples_sos.esp_tensor) as Hrun
    by (vm_compute; reflexivity).
  split; [exact Hrun|].
  destruct (X12_summed_cells (H := examples.integer_arrays) (fun _ _ _ => Ok (Integer 1)) 2
              1 fzero false (Some (examples.f, 1%Z)) [(examples.n, examples.f)]
              [examples_sos.esp_term] examples_sos.esp_tensor Hrun)
    as (modified & Hmod & Hcells).
  vm_compute in Hmod. inversion Hmod; subst modified.
  apply (Hcells [0%nat]). vm_compute. reflexivity.
Defined.

(** ** The object that the constructor returns *)

Section Constructed_object.
Context `{Ops}.

Lemma collect_from_sum_NoDup (l : list Basic) oc oc' :
  for_each l
    (fun a oc =>
       let oc' :=
         if is_DipoleOperator a && negb (contains (fst oc) a)
         then (fst oc ++ [a], snd oc ++ comp_chars a)
         else oc in
       if is_DipoleMoment a then raise TypeError dipole_moment_in_sos else Ok oc') oc
  = Ok oc' ->
  NoDup (fst oc) -> NoDup (fst oc').
Proof.
  intros Hrun Hnd. revert Hrun.
  apply (for_each_invariant (fun oc => NoDup (fst oc))); [|done].
  intros a u u' _ Hu. destruct (is_DipoleMoment a); [done|].
  destruct (is_DipoleOperator a); simpl; [|by intros [= <-]].
  destruct (contains (fst u) a) eqn:Hin; simpl; intros [= <-]; [done|]. simpl.
  apply contains_not_elem_of in Hin. apply NoDup_app. split_and!; [done| |apply NoDup_singleton].
  intros x Hx ->%list_elem_of_singleton. done.
Qed.

(** What the validation hands over for the operators. *)
Lemma validated_operators e indices ops comps :
  validate_expression e indices = Ok (ops, comps) ->
  (forall a, a ∈ ops <-> a ∈ factor_list e /\ is_DipoleOperator a = true)
  /\ (is_Add e = true -> NoDup ops).
Proof.
  destruct e; simpl; try done.
  - destruct (collect_from_product factors) as [cs|err]; simpl; [|done].
    destruct (check_indices_of_product indices factors) as [[]|err]; simpl; [|done].
    intros [= <- <-]. split; [|done]. intros a.
    by rewrite list_elem_of_In, filter_In, <- list_elem_of_In.
  - destruct (collect_from_sum terms) as [oc|err] eqn:Hcollect; simpl; [|done].
    destruct (check_indices_of_sum indices terms) as [[]|err]; simpl; [|done].
    intros [= <- <-]. split.
    + destruct (moment_free_or_not (flat_map args terms)) as [Hno|(a & Ha & Hm)].
      * destruct (collect_from_sum_ok terms Hno) as (ops' & Hrun & Hmem).
        rewrite Hrun in Hcollect. by inversion Hcollect; subst.
      * unfold collect_from_sum in Hcollect.
        by rewrite (collect_from_sum_moment _ _ a Ha Hm) in Hcollect.
    + intros _. unfold collect_from_sum in Hcollect.
      apply collect_from_sum_NoDup in Hcollect; [done | constructor].
Qed.

(** X13. An object that [SumOverStates.__init__] returns: it keeps the
    indices of summation and has one transition frequency per index;
    its order is the number of its components, at most 26, and its
    components are the first letters of the alphabet in their order; its
    operators are exactly the dipole operators among the factors of the
    expression, each once for a sum, and every component label of an
    operator is a component of the object; every index of summation is
    bound in the expression; without pairs to permute the expression is
    the one handed in after [doit], and a sum handed in with pairs to
    permute gives no object. *)
Theorem X13_constructed_object
    (e : Basic) (summation_indices : arg_list string)
    (correlation perm_pairs : option (list (Basic * Basic)))
    (excluded : option (arg_list excluded_state)) (sos : SumOverStates) :
  SumOverStates__init__ e summation_indices correlation perm_pairs excluded = Ok sos ->
  _summation_indices sos = as_list summation_indices
  /\ _transition_frequencies sos = map TransitionFrequency (as_list summation_indices)
  /\ _order sos = length (_components sos)
  /\ (_order sos <= 26)%nat
  /\ _components sos = take (_order sos) ABC
  /\ (forall a, a ∈ _operators sos <-> a ∈ factor_list e /\ is_DipoleOperator a = true)
  /\ (is_Add e = true -> NoDup (_operators sos))
  /\ (forall a ch, a ∈ _operators sos -> ch ∈ comp_chars a -> ch ∈ _components sos)
  /\ indices_bound e (as_list summation_indices)
  /\ (perm_pairs = None \/ perm_pairs = Some [] -> expr sos = doit e)
  /\ (forall p ps, perm_pairs = Some (p :: ps) -> is_Mul e = true).
Proof.
  unfold SumOverStates__init__.
  destruct (validate_expression e (as_list summation_indices)) as [[ops comps]|err] eqn:Hv;
    simpl; [|done].
  destruct (check_components comps) as [order|err] eqn:Hc; simpl; [|done].
  apply check_components_ok in Hc as [Hcomps ->].
  destruct (validated_operators _ _ _ _ Hv) as [Hops Hnd].
  apply validate_expression_ok in Hv as (Hbound & Hfree & Hlabels).
  assert (length comps <= 26)%nat as Hle.
  { rewrite Hcomps at 1. rewrite length_take. change (length ABC) with 26%nat. lia. }
  destruct (match perm_pairs with
            | Some (p :: ps) => _build_sos_via_permutation e (p :: ps)
            | _ => Ok e
            end) as [full|err] eqn:Hfull; simpl; [|done].
  intros [= <-]. simpl. split_and!; try done.
  - intros a ch Ha Hch. apply Hlabels, elem_of_component_labels.
    exists a. apply Hops in Ha as [? ?]. done.
  - intros [-> | ->]; by inversion Hfull.
  - intros p ps ->. unfold _build_sos_via_permutation, assert in Hfull.
    by destruct (is_Mul e).
Qed.

End Constructed_object.

(** X13 at the polarizability with the index [n]. *)
Lemma X13_constructed_object_witness :
  _order examples.alpha_sos = 2%nat
  /\ _components examples.alpha_sos = take 2 ABC
  /\ NoDup (_operators examples.alpha_sos).
Proof.
  destruct (X13_constructed_object (H := structural) examples.alpha_real
              (Listed [examples.n]) None None None examples.alpha_sos)
    as (_ & _ & _ & _ & Hcomps & _ & Hnd & _).
  - vm_compute. reflexivity.
  - split; [vm_compute; reflexivity|]. split; [exact Hcomps|].
    apply Hnd. vm_compute. reflexivity.
Defined.

(** ** The lookup of the components of an operator *)

Section Component_lookup.

Lemma getitem_nat {A} (l : list A) (i : nat) :
  getitem l (Z.of_nat i)
  = match l !! i with Some x => Ok x | None => raise IndexError no_message end.
Proof.
  unfold getitem. destruct (Z.ltb_spec (Z.of_nat i) 0); [lia|].
  destruct (Z.leb_spec 0 (Z.of_nat i)); [|lia]. rewrite Nat2Z.id. simpl.
  destruct (Z.ltb_spec (Z.of_nat i) (Z.of_nat (length l))) as [Hlt|Hge]; [done|].
  rewrite lookup_ge_None_2; [done | lia].
Qed.

Lemma length_list_ascii_of_string (s : string) :
  length (list_ascii_of_string s) = String.length s.
Proof. induction s as [|a s IH]; simpl; [done | by rewrite IH]. Qed.

Lemma char_eqb_eq a b : char_eqb a b = true <-> a = b.
Proof. apply Ascii.eqb_eq. Qed.

Lemma dict_item_put (m : list (ascii * nat)) key value ch :
  dict_item char_eqb (dict_put char_eqb m key value) ch
  = if char_eqb key ch then Ok value else dict_item char_eqb m ch.
Proof.
  unfold dict_item. induction m as [|[k v] m IH]; simpl.
  - by destruct (char_eqb key ch).
  - destruct (char_eqb k key) eqn:Hk; simpl.
    + apply char_eqb_eq in Hk as ->. by destruct (char_eqb key ch).
    + destruct (char_eqb k ch) eqn:Hch; simpl; [|done].
      apply char_eqb_eq in Hch as ->.
      destruct (char_eqb key ch) eqn:Hkey; [|done].
      apply char_eqb_eq in Hkey as ->.
      by rewrite (proj2 (char_eqb_eq ch ch) eq_refl) in Hk.
Qed.

(** The dictionary after the letters from the position [a] on. *)
Lemma comp_map_loop (c : list nat) :
  forall (a : nat) (m0 : list (ascii * nat)),
    (a + length c <= 26)%nat ->
    exists m,
      for_each (zip (seq a (length c)) c)
        (fun icc m =>
           letter ← getitem ABC (Z.of_nat (fst icc));
           Ok (dict_put char_eqb m letter (snd icc))) m0 = Ok m
      /\ (forall i ch, ABC !! (a + i)%nat = Some ch ->
                       (i < length c)%nat ->
                       exists x, c !! i = Some x /\ dict_item char_eqb m ch = Ok x)
      /\ (forall ch, (forall i, (i < length c)%nat -> ABC !! (a + i)%nat <> Some ch) ->
                     dict_item char_eqb m ch = dict_item char_eqb m0 ch).
Proof.
  induction c as [|x c IH]; intros a m0 Hle; simpl.
  - exists m0. split_and!; [done| |done]. intros i ch _ Hi. lia.
  - simpl in Hle. rewrite getitem_nat.
    destruct (ABC !! a) as [letter|] eqn:Hletter.
    2:{ apply lookup_ge_None in Hletter. change (length ABC) with 26%nat in Hletter. lia. }
    simpl. destruct (IH (S a) (dict_put char_eqb m0 letter x)) as (m & Hrun & Hin & Hout);
      [lia|].
    exists m. split_and!; [done| |].
    + intros i ch Hch Hi. destruct i as [|i].
      * rewrite Nat.add_0_r in Hch. exists x. split; [done|].
        rewrite Hout.
        -- rewrite dict_item_put. assert (letter = ch) as -> by congruence.
           by rewrite (proj2 (char_eqb_eq ch ch) eq_refl).
        -- intros j Hj Hlook.
           pose proof (NoDup_lookup ABC _ _ _ NoDup_ABC Hch Hlook). lia.
      * simpl. apply Hin; [|lia]. by replace (S a + i)%nat with (a + S i)%nat by lia.
    + intros ch Hch. rewrite Hout.
      * rewrite dict_item_put. destruct (char_eqb letter ch) eqn:Heq; [|done].
        apply char_eqb_eq in Heq as ->. destruct (Hch 0%nat); [lia|].
        by rewrite Nat.add_0_r.
      * intros i Hi. replace (S a + i)%nat with (a + S i)%nat by lia. apply Hch. lia.
Qed.

Lemma component_indices_loop (m : list (ascii * nat)) (c : list nat) (chars : list ascii) :
  (forall ch, ch ∈ chars ->
              exists i x, ABC !! i = Some ch /\ c !! i = Some x
                          /\ dict_item char_eqb m ch = Ok x) ->
  forall acc,
    exists idx,
      for_each chars (fun char acc => i ← dict_item char_eqb m char; Ok (acc ++ [i])) acc
      = Ok (acc ++ idx)
      /\ length idx = length chars
      /\ forall j ch i, chars !! j = Some ch -> ABC !! i = Some ch -> idx !! j = c !! i.
Proof.
  induction chars as [|ch chars IH]; intros Hall acc; simpl.
  - exists []. by rewrite app_nil_r.
  - destruct (Hall ch) as (i & x & Hi & Hx & Hitem); [by left|].
    rewrite Hitem. simpl.
    destruct (IH (fun ch' Hch' => Hall ch' (list_elem_of_further _ _ _ Hch')) (acc ++ [x]))
      as (idx & Hrun & Hlen & Hidx).
    exists (x :: idx). split_and!.
    + rewrite Hrun. by rewrite <- app_assoc.
    + simpl. by rewrite Hlen.
    + intros [|j] ch' i' Hj Hi'; simpl in *.
      * inversion Hj; subst ch'.
        pose proof (NoDup_lookup ABC _ _ _ NoDup_ABC Hi Hi') as <-. done.
      * by apply (Hidx j ch').
Qed.

(** X14. For an object that the constructor returned, a component tuple
    of the assembly loop for its order and an operator of the object:
    the dictionary [comp_map] of the tuple is built without error, and
    the lookup of the component labels of the operator in it gives, for
    each label, the entry of the tuple on the axis of this letter, so an
    index below 3; no [KeyError] and no [IndexError] arises. *)
Theorem X14_component_lookup `{Ops}
    (e : Basic) (summation_indices : arg_list string)
    (correlation perm_pairs : option (list (Basic * Basic)))
    (excluded : option (arg_list excluded_state)) (sos : SumOverStates)
    (symmetric : bool) (c : list nat) (comp op_type : string) :
  SumOverStates__init__ e summation_indices correlation perm_pairs excluded = Ok sos ->
  c ∈ components_to_fill symmetric (_order sos) ->
  DipoleOperator comp op_type ∈ _operators sos ->
  exists m idx,
    comp_map c = Ok m
    /\ component_indices m comp = Ok idx
    /\ length idx = String.length comp
    /\ Forall (fun i => i < 3)%nat idx
    /\ forall j ch i,
         list_ascii_of_string comp !! j = Some ch -> ABC !! i = Some ch ->
         idx !! j = c !! i.
Proof.
  intros Hinit Hc Hop.
  assert (_order sos <= 26 /\ _components sos = take (_order sos) ABC
          /\ forall ch, ch ∈ list_ascii_of_string comp -> ch ∈ _components sos)%nat
    as (Hle & Hcomps & Hchars).
  { revert Hinit. unfold SumOverStates__init__.
    destruct (validate_expression e (as_list summation_indices))
      as [[ops comps]|err] eqn:Hv; simpl; [|done].
    destruct (check_components comps) as [order|err] eqn:Hcc; simpl; [|done].
    apply check_components_ok in Hcc as [Hcomps ->].
    destruct (validated_operators _ _ _ _ Hv) as [Hops _].
    apply validate_expression_ok in Hv as (_ & _ & Hlabels).
    destruct (match perm_pairs with
              | Some (p :: ps) => _build_sos_via_permutation e (p :: ps)
              | _ => Ok e
              end) as [full|err]; simpl; [|done].
    intros [= <-]. simpl in *. split_and!; [|done|].
    - rewrite Hcomps at 1. rewrite length_take. change (length ABC) with 26%nat. lia.
    - intros ch Hch. apply Hlabels, elem_of_component_labels.
      exists (DipoleOperator comp op_type). apply Hops in Hop as [? ?]. done. }
  assert (length c = _order sos /\ Forall (fun x => x < 3)%nat c) as [Hlen Hall].
  { destruct symmetric.
    - apply elem_of_symmetric_components in Hc as (? & ? & _). done.
    - by apply in_bounds_product, in_bounds_cartesian in Hc. }
  destruct (comp_map_loop c 0 []) as (m & Hrun & Hin & _); [lia|].
  assert (forall ch, ch ∈ list_ascii_of_string comp ->
            exists i x, ABC !! i = Some ch /\ c !! i = Some x
                        /\ dict_item char_eqb m ch = Ok x) as Hlook.
  { intros ch Hch. apply Hchars in Hch. rewrite Hcomps in Hch.
    apply list_elem_of_lookup in Hch as [i Hi].
    apply lookup_take_Some in Hi as [Hi Hlt].
    destruct (Hin i ch Hi) as (x & Hx & Hitem); [lia|]. by exists i, x. }
  destruct (component_indices_loop m c _ Hlook []) as (idx & Hidx & Hlen' & Hpos).
  exists m, idx. split_and!; [done | done | | | done].
  - by rewrite Hlen', length_list_ascii_of_string.
  - apply Forall_lookup. intros j x Hj.
    destruct (lookup_lt_is_Some_2 (list_ascii_of_string comp) j) as [ch Hch].
    { rewrite <- Hlen'. by apply lookup_lt_Some in Hj. }
    destruct (Hlook ch) as (i & y & Hi & Hy & _).
    { by apply list_elem_of_lookup_2 in Hch. }
    rewrite (Hpos j ch i Hch Hi) in Hj. rewrite Forall_lookup in Hall.
    by apply (Hall i x).
Qed.

End Component_lookup.

(** X14 at the polarizability: the operator [B] reads the second axis. *)
Lemma X14_component_lookup_witness :
  exists m idx,
    comp_map [2; 1]%nat = Ok m
    /\ component_indices m "B" = Ok idx
    /\ idx !! 0%nat = Some 1%nat.
Proof.
  destruct (X14_component_lookup (H := structural) examples.alpha_real
              (Listed [examples.n]) None None None examples.alpha_sos false
              [2; 1]%nat "B" "electric")
    as (m & idx & Hm & Hidx & _ & _ & Hpos).
  - vm_compute. reflexivity.
  - vm_compute. repeat first [apply list_elem_of_here | apply list_elem_of_further].
  - vm_compute. repeat first [apply list_elem_of_here | apply list_elem_of_further].
  - exists m, idx. split; [exact Hm|]. split; [exact Hidx|].
    apply (Hpos 0%nat "B"%char 1%nat); reflexivity.
Defined.

(** ** The Levi-Civita tensor *)

Lemma lc_tensor_outside (i j k : nat) :
  (3 <= i \/ 3 <= j \/ 3 <= k)%nat -> lc_tensor [i; j; k] = 0%Z.
Proof.
  intros Hout. unfold lc_tensor, assign.
  repeat (case_bool_decide; [exfalso; simplify_eq; lia|]). done.
Qed.

(** X15. The constant [lc_tensor] is the Levi-Civita symbol: it changes
    sign when two of its indices are exchanged, is unchanged by a cyclic
    shift of its indices, is 1 at (0, 1, 2), and is different from zero
    exactly at the index triples below 3 that are pairwise different. *)
Theorem X15_levi_civita (i j k : nat) :
  lc_tensor [i; j; k] = (- lc_tensor [j; i; k])%Z
  /\ lc_tensor [i; j; k] = (- lc_tensor [i; k; j])%Z
  /\ lc_tensor [i; j; k] = lc_tensor [j; k; i]
  /\ lc_tensor [0; 1; 2]%nat = 1%Z
  /\ (lc_tensor [i; j; k] <> 0%Z
      <-> (i < 3 /\ j < 3 /\ k < 3)%nat /\ i <> j /\ j <> k /\ i <> k).
Proof.
  destruct (decide (i < 3 /\ j < 3 /\ k < 3)%nat) as [(Hi & Hj & Hk)|Hout].
  - destruct i as [|[|[|i]]]; [| | |lia];
      (destruct j as [|[|[|j]]]; [| | |lia]);
      (destruct k as [|[|[|k]]]; [| | |lia]); clear Hi Hj Hk;
      (split_and!; [vm_compute; reflexivity..|]);
      (split; [intros Hne; first [by destruct Hne; vm_compute | split_and!; lia]
              |intros [_ (? & ? & ?)]; first [lia | vm_compute; discriminate]]).
  - rewrite !lc_tensor_outside by lia. split_and!; [done..|]. split; [done|].
    intros [? _]. done.
Qed.

(** ** The plan of a contraction *)

Section Plan_properties.
Context `{Numpy}.

Lemma string_app_cons (x : ascii) (a b : string) :
  (String x a ++ b = String x (a ++ b))%string.
Proof. reflexivity. Qed.

Lemma string_app_nil_l (b : string) : ("" ++ b = b)%string.
Proof. reflexivity. Qed.

Lemma string_app_assoc (a b c : string) : ((a ++ b) ++ c = a ++ (b ++ c))%string.
Proof.
  induction a as [|x a IH]; [by rewrite !string_app_nil_l|].
  by rewrite !string_app_cons, IH.
Qed.

Lemma string_app_nil_r (a : string) : (a ++ "" = a)%string.
Proof.
  induction a as [|x a IH]; [done|]. by rewrite string_app_cons, IH.
Qed.

(** The loop over the excluded cases for one array. *)
Lemma cases_loop (final_state : option (string * Z)) (s : string)
    (cases : list (string * string)) :
  forall (acc acc' : Arr * list divergence),
    for_each cases
      (fun case acc =>
         match String.index 0 (fst case) s with
         | Some axis =>
             if negb (str_eqb (snd case) O) then
               match final_state with
               | None => raise TypeError no_message
               | Some fs =>
                   _ ← assert (str_eqb (snd case) (fst fs));
                   array ← np_delete (fst acc) (snd fs) axis;
                   Ok (array, snd acc ++ [(fst case, snd fs)])
               end
             else Ok acc
         | None => Ok acc
         end) acc = Ok acc' ->
    (forall case, case ∈ cases -> case_applies case s = true ->
                  exists fs, final_state = Some fs /\ snd case = fst fs)
    /\ snd acc'
       = snd acc ++ flat_map (fun case =>
                                if case_applies case s
                                then match final_state with
                                     | Some fs => [(fst case, snd fs)]
                                     | None => []
                                     end
                                else []) cases
    /\ ((forall case, case ∈ cases -> case_applies case s = false) -> fst acc' = fst acc).
Proof.
  induction cases as [|case cases IH]; intros acc acc' Hrun; simpl in Hrun.
  - inversion Hrun; subst. split_and!; [|by rewrite app_nil_r|done].
    intros case Hin. by apply elem_of_nil in Hin.
  - unfold case_applies at 2. simpl.
    destruct (String.index 0 (fst case) s) as [axis|] eqn:Hindex.
    + destruct (negb (str_eqb (snd case) O)) eqn:Hground.
      * destruct final_state as [fs|]; [|done].
        unfold assert in Hrun. destruct (str_eqb (snd case) (fst fs)) eqn:Hfs; [|done].
        simpl in Hrun.
        match type of Hrun with
        | context [np_delete ?a ?i ?ax] =>
            destruct (np_delete a i ax) as [array|e]; simpl in Hrun; [|done]
        end.
        destruct (IH _ _ Hrun) as (Hall & Hrem & Harr). simpl in *.
        split_and!.
        -- intros c [->|Hc]%elem_of_cons Happ; [|by apply Hall].
           exists fs. split; [done|]. by apply str_eqb_eq.
        -- by rewrite Hrem, <- app_assoc.
        -- intros Hnone. specialize (Hnone case (list_elem_of_here _ _)).
           unfold case_applies in Hnone. by rewrite Hindex, Hground in Hnone.
      * simpl in Hrun. destruct (IH _ _ Hrun) as (Hall & Hrem & Harr).
        split_and!; [|done|].
        -- intros c [->|Hc]%elem_of_cons Happ; [|by apply Hall].
           unfold case_applies in Happ. by rewrite Hindex, Hground in Happ.
        -- intros Hnone. apply Harr. intros c Hc. apply Hnone. by right.
    + simpl in Hrun. destruct (IH _ _ Hrun) as (Hall & Hrem & Harr).
      split_and!; [|done|].
      * intros c [->|Hc]%elem_of_cons Happ; [|by apply Hall].
        unfold case_applies in Happ. by rewrite Hindex in Happ.
      * intros Hnone. apply Harr. intros c Hc. apply Hnone. by right.
Qed.

Lemma remove_excluded_ok excluded_cases final_state (entry : einsum_entry) rem ar :
  remove_excluded excluded_cases final_state entry rem = Ok ar ->
  snd ar = rem ++ removals excluded_cases final_state (state_str entry)
  /\ (forall cases case,
        excluded_cases = Some cases -> case ∈ cases -> state_str entry <> "" ->
        case_applies case (state_str entry) = true ->
        exists fs, final_state = Some fs /\ snd case = fst fs)
  /\ (removals excluded_cases final_state (state_str entry) = [] ->
      fst ar = entry_array entry).
Proof.
  unfold remove_excluded, removals.
  destruct excluded_cases as [[|case0 cases]|].
  - intros [= <-]. simpl. split_and!; [|by intros ?? [= <-] ?%elem_of_nil|done].
    destruct final_state; [|by rewrite app_nil_r].
    destruct (str_eqb (state_str entry) ""); by rewrite app_nil_r.
  - destruct (str_eqb (state_str entry) "") eqn:Hs; cbn [negb].
    + intros [= <-]. simpl. apply str_eqb_eq in Hs.
      split_and!; [|by intros ?? _ _ ?|done].
      destruct final_state; by rewrite app_nil_r.
    + intros Hrun. apply cases_loop in Hrun as (Hall & Hrem & Harr).
      cbn [fst snd] in *.
      split_and!.
      * rewrite Hrem. destruct final_state as [fs|]; [done|]. f_equal.
        clear. induction (case0 :: cases) as [|c l IH]; simpl; [done|].
        by destruct (case_applies c (state_str entry)).
      * intros cs case [= <-] Hin _ Happ. by apply Hall.
      * destruct final_state as [fs|].
        -- intros Hnone. apply Harr. intros c Hc.
           destruct (case_applies c (state_str entry)) eqn:Happ; [|done].
           apply list_elem_of_In in Hc.
           assert (In (fst c, snd fs)
                     (flat_map (fun case =>
                                  if case_applies case (state_str entry)
                                  then [(fst case, snd fs)] else []) (case0 :: cases)))
             as Hin.
           { apply in_flat_map. exists c. split; [done|]. rewrite Happ. by left. }
           by rewrite Hnone in Hin.
        -- intros _. apply Harr. intros c Hc.
           destruct (case_applies c (state_str entry)) eqn:Happ; [|done].
           by destruct (Hall c Hc Happ) as (fs & ? & _).
  - intros [= <-]. simpl. split_and!; [by rewrite app_nil_r|done|done].
Qed.

Lemma plan_loop excluded_cases final_state (einsum_list : list einsum_entry) :
  forall p0 p,
    for_each einsum_list
      (fun tup p =>
         ar ← remove_excluded excluded_cases final_state tup (removed p);
         Ok {| einsum_left :=
                 (einsum_left p ++ state_str tup ++ comp_str tup ++ ",")%string;
               einsum_right := (einsum_right p ++ comp_str tup)%string;
               array_list := array_list p ++ [fst ar];
               removed := snd ar |}) p0 = Ok p ->
    einsum_left p
    = (einsum_left p0
       ++ joined (map (fun tup => (state_str tup ++ comp_str tup) ++ ",") einsum_list))%string
    /\ einsum_right p = (einsum_right p0 ++ joined (map comp_str einsum_list))%string
    /\ length (array_list p) = (length (array_list p0) + length einsum_list)%nat
    /\ removed p
       = removed p0
         ++ flat_map (fun tup => removals excluded_cases final_state (state_str tup))
                     einsum_list
    /\ (forall tup cases case,
          tup ∈ einsum_list -> excluded_cases = Some cases -> case ∈ cases ->
          state_str tup <> "" -> case_applies case (state_str tup) = true ->
          exists fs, final_state = Some fs /\ snd case = fst fs)
    /\ ((forall tup, tup ∈ einsum_list ->
                     removals excluded_cases final_state (state_str tup) = []) ->
        array_list p = array_list p0 ++ map entry_array einsum_list).
Proof.
  induction einsum_list as [|tup l IH]; intros p0 p Hrun; simpl in Hrun.
  - inversion Hrun; subst. simpl.
    rewrite !string_app_nil_r, !app_nil_r, Nat.add_0_r. split_and!; try done.
    intros tup cases case Hin. by apply elem_of_nil in Hin.
  - destruct (remove_excluded excluded_cases final_state tup (removed p0)) as [ar|e] eqn:Har;
      simpl in Hrun; [|done].
    apply remove_excluded_ok in Har as (Hrem & Hcases & Harr).
    destruct (IH _ _ Hrun) as (Hleft & Hright & Hlen & Hremoved & Hall & Harrays).
    simpl in *. split_and!.
    + rewrite Hleft. rewrite !string_app_assoc. done.
    + rewrite Hright. by rewrite string_app_assoc.
    + rewrite Hlen, length_app. simpl. lia.
    + rewrite Hremoved, Hrem. by rewrite <- app_assoc.
    + intros t cases case [->|Ht]%elem_of_cons Hex Hcase Hs Happ.
      * by apply (Hcases cases).
      * by apply (Hall t cases).
    + intros Hnone. rewrite Harrays.
      * rewrite Harr; [by rewrite <- app_assoc | apply Hnone; by left].
      * intros t Ht. apply Hnone. by right.
Qed.


End Plan_properties.


(** ** The subscripts of a contraction *)

Section Subscripts.
Context `{Numpy}.

Lemma drop_last_snoc (s : string) (c : ascii) : drop_last (s ++ String c "") = s.
Proof.
  induction s as [|a s IH]; [done|]. rewrite string_app_cons.
  destruct s as [|b s]; [done|]. rewrite string_app_cons in *.
  change (drop_last (String a (String b (s ++ String c ""))))
    with (String a (drop_last (String b (s ++ String c "")))).
  by rewrite IH.
Qed.

Lemma joined_commas (x : string) (l : list string) :
  joined (map (fun y => (y ++ ",")%string) (x :: l))
  = (String.concat "," (x :: l) ++ ",")%string.
Proof.
  revert x. induction l as [|y l IH]; intros x.
  - simpl. by rewrite string_app_nil_r.
  - change (joined (map (fun y => (y ++ ",")%string) (x :: y :: l)))
      with ((x ++ ",") ++ joined (map (fun y => (y ++ ",")%string) (y :: l)))%string.
    rewrite IH.
    change (String.concat "," (x :: y :: l))
      with (x ++ "," ++ String.concat "," (y :: l))%string.
    by rewrite !string_app_assoc.
Qed.

Lemma list_ascii_of_string_app (a b : string) :
  list_ascii_of_string (a ++ b) = list_ascii_of_string a ++ list_ascii_of_string b.
Proof.
  induction a as [|x a IH]; [done|]. rewrite string_app_cons. simpl. by rewrite IH.
Qed.

Lemma elem_of_joined (l : list string) (ch : ascii) :
  ch ∈ list_ascii_of_string (joined l)
  <-> exists s, s ∈ l /\ ch ∈ list_ascii_of_string s.
Proof.
  induction l as [|s l IH]; simpl.
  - rewrite elem_of_nil. split; [done|]. intros (s & Hs & _). by apply elem_of_nil in Hs.
  - rewrite list_ascii_of_string_app, elem_of_app, IH. split.
    + intros [?|(t & ? & ?)]; [exists s | exists t]; (split; [|done]);
        [by left | by right].
    + intros (t & [->|?]%elem_of_cons & ?); [by left | right; by exists t].
Qed.

Lemma char_le_total (a b : ascii) : char_le a b = false -> char_le b a = true.
Proof. unfold char_le. rewrite Nat.leb_gt, Nat.leb_le. lia. Qed.

Lemma insert_char_sorted (c : ascii) (l : list ascii) :
  StronglySorted (fun a b => char_le a b = true) l ->
  StronglySorted (fun a b => char_le a b = true) (insert_char c l).
Proof.
  induction l as [|d l IH]; intros Hsorted; simpl.
  - repeat constructor.
  - apply StronglySorted_inv in Hsorted as [Hl Hd].
    destruct (char_le c d) eqn:Hcd.
    + constructor; [by constructor|]. constructor; [done|].
      eapply Forall_impl; [done|]. simpl. intros x. unfold char_le in *.
      rewrite !Nat.leb_le in *. lia.
    + constructor; [by apply IH|]. rewrite insert_char_Permutation.
      constructor; [by apply char_le_total | done].
Qed.

Lemma sort_chars_sorted (l : list ascii) :
  StronglySorted (fun a b => char_le a b = true) (sort_chars l).
Proof.
  induction l as [|c l IH]; simpl; [constructor | by apply insert_char_sorted].
Qed.

Lemma sorted_NoDup_strict (l : list ascii) :
  StronglySorted (fun a b => char_le a b = true) l -> NoDup l ->
  StronglySorted char_lt l.
Proof.
  induction l as [|a l IH]; intros Hsorted Hnd; [constructor|].
  apply StronglySorted_inv in Hsorted as [Hl Ha]. apply NoDup_cons in Hnd as [Hnin Hnd].
  constructor; [by apply IH|]. rewrite Forall_forall in *. intros x Hx.
  specialize (Ha x Hx). unfold char_le, char_lt in *. apply Nat.leb_le in Ha.
  destruct (decide (nat_of_ascii a = nat_of_ascii x)) as [Heq|Hne]; [|lia].
  assert (a = x) as -> by by rewrite <- (ascii_nat_embedding a), Heq, ascii_nat_embedding.
  done.
Qed.

(** X17. The subscripts handed to [np.einsum] for the plan built from an
    [einsum_list]: on the left the state labels followed by the component
    labels of each entry, the entries separated by commas; on the right
    the component labels that occur in some entry, each once, in strictly
    ascending order. *)
Theorem X17_einsum_subscripts
    (excluded_cases : option (list (string * string))) (final_state : option (string * Z))
    (einsum_list : list einsum_entry) (p : plan) :
  build_plan excluded_cases final_state einsum_list = Ok p ->
  einsum_string p
  = (String.concat "," (map (fun tup => state_str tup ++ comp_str tup) einsum_list)
     ++ " -> " ++ string_of_list_ascii (output_labels p))%string
  /\ StronglySorted char_lt (output_labels p)
  /\ forall ch, ch ∈ output_labels p
                <-> exists tup, tup ∈ einsum_list
                                /\ ch ∈ list_ascii_of_string (comp_str tup).
Proof.
  intros Hrun. unfold build_plan in Hrun.
  apply plan_loop in Hrun as (Hleft & Hright & _). simpl in Hleft, Hright.
  rewrite string_app_nil_l in Hleft, Hright. split_and!.
  - unfold einsum_string. fold (output_labels p). f_equal. rewrite Hleft.
    destruct einsum_list as [|tup l]; [done|].
    rewrite <- (map_map (fun tup => (state_str tup ++ comp_str tup)%string)
                  (fun y => (y ++ ",")%string)).
    change (map (fun tup => (state_str tup ++ comp_str tup)%string) (tup :: l))
      with ((state_str tup ++ comp_str tup)%string
            :: map (fun tup => (state_str tup ++ comp_str tup)%string) l).
    by rewrite joined_commas, drop_last_snoc.
  - unfold output_labels. apply sorted_NoDup_strict; [apply sort_chars_sorted|].
    rewrite sort_chars_Permutation. apply NoDup_remove_dups.
  - intros ch. unfold output_labels.
    rewrite sort_chars_Permutation, elem_of_remove_dups, Hright, elem_of_joined. split.
    + intros (s & Hs & Hch). apply list_elem_of_fmap in Hs as (tup & -> & Htup).
      by exists tup.
    + intros (tup & Htup & Hch). exists (comp_str tup). split; [|done].
      apply list_elem_of_fmap. by exists tup.
Qed.

End Subscripts.

(** X17 at the term of the example: the subscripts [nA,nB,n -> AB]. *)
Lemma X17_einsum_subscripts_witness :
  einsum_string examples.esp_plan = "nA,nB,n -> AB"
  /\ StronglySorted char_lt (output_labels examples.esp_plan).
Proof.
  destruct (X17_einsum_subscripts (H := examples.integer_arrays) None None
              examples.esp_einsum_list examples.esp_plan) as (Hstring & Hsorted & _).
  - vm_compute. reflexivity.
  - split; [vm_compute; reflexivity | exact Hsorted].
Defined.

(** ** The rules of [replace_bra_op_ket] *)

Section Moment_rules.

Lemma dict_put_present (d : list (Basic * Basic)) key value :
  NoDup (map fst d) -> (key, value) ∈ d -> dict_put eqb d key value = d.
Proof.
  induction d as [|[k v] d IH]; simpl; intros Hnd Hin; [by apply elem_of_nil in Hin|].
  apply NoDup_cons in Hnd as [Hk Hnd]. destruct (eqb k key) eqn:Heq.
  - apply eqb_eq in Heq as ->. apply elem_of_cons in Hin as [[= ->]|Hin]; [done|].
    destruct Hk. apply list_elem_of_fmap. by exists (key, value).
  - apply elem_of_cons in Hin as [[= -> ->]|Hin].
    + by rewrite eqb_refl in Heq.
    + by rewrite IH.
Qed.

Lemma dict_put_absent (d : list (Basic * Basic)) key value :
  key ∉ map fst d -> dict_put eqb d key value = d ++ [(key, value)].
Proof.
  induction d as [|[k v] d IH]; simpl; intros Hnin; [done|].
  apply not_elem_of_cons in Hnin as [Hne Hnin]. destruct (eqb k key) eqn:Heq.
  - apply eqb_eq in Heq. congruence.
  - by rewrite IH.
Qed.

Lemma moment_rule_functional factors i j key v w :
  moment_rule factors i (key, v) -> moment_rule factors j (key, w) -> v = w.
Proof.
  intros (c1 & o1 & t1 & f1 & _ & _ & _ & _ & [= -> ->])
         (c2 & o2 & t2 & f2 & _ & _ & _ & _ & [= -> -> -> -> ->]). done.
Qed.

Lemma rules_step factors a d x :
  sandwiched factors -> factors !! a = Some x -> rules_below factors a d ->
  exists d',
    match x with
    | DipoleOperator comp op_type =>
        from_state ← getitem factors (Z.of_nat a + 1);
        to_state ← getitem factors (Z.of_nat a - 1);
        let key := Mul [to_state; x; from_state] in
        from_label ← label_of from_state;
        to_label ← label_of to_state;
        Ok (dict_put eqb d key (DipoleMoment comp from_label to_label op_type))
    | _ => Ok d
    end = Ok d'
    /\ rules_below factors (S a) d'.
Proof.
  intros Hsand Hx [Hnd Hrules].
  assert ((forall comp op_type, x <> DipoleOperator comp op_type) ->
          rules_below factors (S a) d) as Hskip.
  { intros Hno. split; [done|]. intros rule. rewrite Hrules. split.
    - intros (i & Hi & Hr). exists i. split; [lia | done].
    - intros (i & Hi & Hr). exists i. split; [|done].
      destruct (decide (i = a)) as [->|?]; [|lia].
      destruct Hr as (c & o & t & f & Hop & _). rewrite Hx in Hop.
      inversion Hop; subst. by destruct (Hno c o). }
  destruct x; try (exists d; split; [done|]; by apply Hskip).
  clear Hskip. destruct (Hsand a comp op_type Hx) as (t & f & Ha & Ht & Hf).
  replace (Z.of_nat a + 1)%Z with (Z.of_nat (a + 1)) by lia.
  replace (Z.of_nat a - 1)%Z with (Z.of_nat (a - 1)) by lia.
  rewrite !getitem_nat, Ht, Hf. simpl.
  set (key := Mul [Bra t; DipoleOperator comp op_type; Ket f]).
  set (value := DipoleMoment comp f t op_type).
  assert (moment_rule factors a (key, value)) as Hrule.
  { exists comp, op_type, t, f. done. }
  eexists. split; [done|].
  destruct (contains (map fst d) key) eqn:Hc;
    [apply contains_elem_of in Hc; rename Hc into Hin
    |apply contains_not_elem_of in Hc; rename Hc into Hnin].
  - apply list_elem_of_fmap in Hin as ([k v] & Hk & Hin). simpl in Hk. subst k.
    pose proof (proj1 (Hrules _) Hin) as (i & Hi & Hr).
    assert (v = value) as -> by by apply (moment_rule_functional factors i a key).
    rewrite dict_put_present by done. split; [done|]. intros rule. rewrite Hrules. split.
    + intros (j & Hj & Hrj). exists j. split; [lia | done].
    + intros (j & Hj & Hrj). destruct (decide (j = a)) as [->|?].
      * exists i. split; [done|]. destruct rule as [k w].
        destruct Hrj as (c2 & o2 & t2 & f2 & Hop2 & _ & Ht2 & Hf2 & Heq).
        rewrite Hx in Hop2. rewrite Ht in Ht2. rewrite Hf in Hf2.
        inversion Hop2; inversion Ht2; inversion Hf2; subst. inversion Heq; subst. done.
      * exists j. split; [lia | done].
  - rewrite dict_put_absent by done. split.
    + rewrite map_app. simpl. apply NoDup_app. split_and!; [done| |apply NoDup_singleton].
      intros k Hk ->%list_elem_of_singleton. done.
    + intros rule. rewrite elem_of_app, list_elem_of_singleton, Hrules. split.
      * intros [(j & Hj & Hrj)| ->]; [exists j | exists a]; (split; [lia | done]).
      * intros (j & Hj & Hrj). destruct (decide (j = a)) as [->|?].
        -- right. destruct rule as [k w].
           destruct Hrj as (c2 & o2 & t2 & f2 & Hop2 & _ & Ht2 & Hf2 & Heq).
           rewrite Hx in Hop2. rewrite Ht in Ht2. rewrite Hf in Hf2.
           inversion Hop2; inversion Ht2; inversion Hf2; subst. done.
        -- left. exists j. split; [lia | done].
Qed.

Lemma rules_loop factors (l : list Basic) :
  sandwiched factors ->
  forall a d,
    (forall j x, l !! j = Some x -> factors !! (a + j)%nat = Some x) ->
    rules_below factors a d ->
    exists d',
      for_each (zip (seq a (length l)) l)
        (fun ia subs_dict =>
           match snd ia with
           | DipoleOperator comp op_type =>
               from_state ← getitem factors (Z.of_nat (fst ia) + 1);
               to_state ← getitem factors (Z.of_nat (fst ia) - 1);
               let key := Mul [to_state; snd ia; from_state] in
               from_label ← label_of from_state;
               to_label ← label_of to_state;
               Ok (dict_put eqb subs_dict key
                     (DipoleMoment comp from_label to_label op_type))
           | _ => Ok subs_dict
           end) d = Ok d'
      /\ rules_below factors (a + length l) d'.
Proof.
  intros Hsand. induction l as [|x l IH]; intros a d Hl Hd; simpl.
  - exists d. by rewrite Nat.add_0_r.
  - destruct (rules_step factors a d x Hsand) as (d1 & Hstep & Hd1); [|done|].
    { specialize (Hl 0%nat x eq_refl). by rewrite Nat.add_0_r in Hl. }
    simpl in Hstep. rewrite Hstep. simpl.
    destruct (IH (S a) d1) as (d' & Hrun & Hd'); [|done|].
    { intros j y Hj. replace (S a + j)%nat with (a + S j)%nat by lia. by apply Hl. }
    exists d'. split; [done|]. by replace (a + S (length l))%nat with (S a + length l)%nat by lia.
Qed.

(** X18. The dictionary that [replace_bra_op_ket] builds before the
    substitution: an expression that is not a product fails the
    assertion; for a product in which every dipole operator stands
    between a bra and a ket, the dictionary is built without error, has
    every key once, and holds exactly one rule for each sequence of a
    bra, an operator and a ket, which sends their product to the
    [DipoleMoment] with the component and the type of the operator, from
    the state of the ket to the state of the bra. *)
Theorem X18_moment_rules (e : Basic) :
  (is_Mul e = false ->
   bra_op_ket_substitutions e = Err (Raise AssertionError no_message))
  /\ (forall factors,
        e = Mul factors -> sandwiched factors ->
        exists d,
          bra_op_ket_substitutions e = Ok d
          /\ NoDup (map fst d)
          /\ forall rule, rule ∈ d <-> exists i, moment_rule factors i rule).
Proof.
  unfold bra_op_ket_substitutions, assert. split.
  - intros ->. done.
  - intros factors -> Hsand. simpl.
    destruct (rules_loop factors factors Hsand 0 []) as (d & Hrun & Hnd & Hrules).
    + done.
    + split; [constructor|]. intros rule. split; [by intros ?%elem_of_nil|].
      intros (i & Hi & _). lia.
    + exists d. split_and!; [done..|]. intros rule. rewrite Hrules. split.
      * intros (i & _ & Hr). by exists i.
      * intros (i & Hr). exists i. split; [|done].
        destruct Hr as (c & o & t & f & Hop & _). by apply lookup_lt_Some in Hop.
Qed.

End Moment_rules.

(** X18 at the term of the first hyperpolarizability: the moment for the
    operator [B] goes from [k] to [n]. *)
Lemma X18_moment_rules_witness :
  exists d,
    bra_op_ket_substitutions examples.beta_sos_term = Ok d
    /\ (Mul [Bra examples.n; examples.op_b; Ket examples.k],
        DipoleMoment "B" examples.k examples.n "electric") ∈ d.
Proof.
  assert (exists factors, examples.beta_sos_term = Mul factors /\ sandwiched factors)
    as (factors & Heq & Hsand).
  { eexists. split; [reflexivity|]. intros i comp op_type Hi.
    do 12 (destruct i as [|i];
           [first [discriminate Hi
                  | (eexists _, _; split; [lia|]; split; reflexivity)]|]).
    discriminate Hi. }
  destruct (proj2 (X18_moment_rules examples.beta_sos_term) factors Heq Hsand)
    as (d & Hrun & _ & Hrules).
  exists d. split; [exact Hrun|]. apply Hrules.
  assert (Mul factors = examples.beta_sos_term) as Hf by by symmetry.
  vm_compute in Hf. inversion Hf; subst factors.
  exists 6%nat, "B", "electric", examples.n, examples.k.
  split_and!; [reflexivity | lia | reflexivity | reflexivity | reflexivity].
Defined.

(** ** The cells of the tensor assembled by Einstein summation *)

Section Contracted_cells.
Context `{Numpy}.
Variable einsum_list_of : Basic -> result (list einsum_entry * float * list divergence).
Implicit Types (t : ndarray Num).

Lemma iadd_array_value t b t' :
  iadd_array t b = Ok t' ->
  shape t' = shape t /\ array_dtype t' = array_dtype t
  /\ broadcasts (shape b) (shape t) = true
  /\ ~ (array_dtype b = complex128 /\ array_dtype t = float64)
  /\ forall i, data t' i = plus (data t i) (data b (broadcast_index (shape b) i)).
Proof.
  unfold iadd_array. destruct (broadcasts (shape b) (shape t)); simpl; [|done].
  destruct (array_dtype b), (array_dtype t); try done; intros [= <-]; simpl;
    (split_and!; [done..| |done]); by intros [? ?].
Qed.

Lemma contract_term_value excluded_cases final_state einsum_list factor divergences t t' :
  contract_term excluded_cases final_state einsum_list factor divergences t = Ok t' ->
  exists p contribution,
    build_plan excluded_cases final_state einsum_list = Ok p
    /\ reconcile (set_to_list (removed p)) divergences = Ok tt
    /\ einsum (einsum_string p) (array_list p) = Ok contribution
    /\ shape t' = shape t /\ array_dtype t' = array_dtype t
    /\ addable (shape t) (array_dtype t) (factor, contribution)
    /\ forall i, data t' i
                 = plus (data t i)
                        (times factor
                               (data contribution (broadcast_index (shape contribution) i))).
Proof.
  unfold contract_term.
  destruct (build_plan excluded_cases final_state einsum_list) as [p|e] eqn:Hplan;
    simpl; [|done].
  destruct (reconcile (set_to_list (removed p)) divergences) as [[]|e] eqn:Hrec;
    simpl; [|done].
  destruct (einsum (einsum_string p) (array_list p)) as [contribution|e] eqn:Heinsum;
    simpl; [|done].
  intros Hadd. apply iadd_array_value in Hadd as (Hs & Hd & Hb & Hc & Hdata).
  exists p, contribution. split_and!; done.
Qed.

Lemma contraction_loop order gamma_val excluded_cases final_state (term_list : list Basic) :
  forall t t',
    shape t = repeat 3%nat order -> array_dtype t = result_dtype gamma_val ->
    for_each term_list
      (fun term res_tens =>
         efd ← einsum_list_of term;
         contract_term excluded_cases final_state
                       (fst (fst efd)) (snd (fst efd)) (snd efd) res_tens) t = Ok t' ->
    exists fcs,
      Forall2 (term_contribution einsum_list_of excluded_cases final_state) term_list fcs
      /\ Forall (addable (repeat 3%nat order) (result_dtype gamma_val)) fcs
      /\ forall i, data t' i = added fcs (data t i) i.
Proof.
  induction term_list as [|term l IH]; intros t t' Hs Hd Hrun; simpl in Hrun.
  - inversion Hrun; subst. exists []. split_and!; [constructor | constructor | done].
  - destruct (einsum_list_of term) as [[[el factor] divs]|e] eqn:Hlist; simpl in Hrun;
      [|done].
    destruct (contract_term excluded_cases final_state el factor divs t) as [t1|e] eqn:Hterm;
      simpl in Hrun; [|done].
    apply contract_term_value in Hterm
      as (p & contribution & Hplan & Hrec & Heinsum & Hs1 & Hd1 & Hadd & Hdata).
    destruct (IH t1 t') as (fcs & Hall & Haddable & Hcells); [congruence..|done|].
    exists ((factor, contribution) :: fcs). split_and!.
    + constructor; [|done]. by exists el, divs, p.
    + constructor; [|done]. by rewrite <- Hs, <- Hd.
    + intros i. rewrite Hcells. simpl. by rewrite Hdata.
Qed.

(** X19. When the loop over the terms of [evaluate_property_sos_fast]
    returns the tensor, every term has given a contraction: its lists and
    its plan were built, its removed cases were reconciled with its
    divergences, and [np.einsum] returned an array that broadcasts to the
    shape [(3,)*order] and is not complex when the tensor is real; and
    every cell of the tensor is zero plus, term by term in their order,
    the factor of the term times the cell of its contraction that
    broadcasts to it. *)
Theorem X19_contracted_cells
    (order : nat) (gamma_val : float) (excluded_cases : option (list (string * string)))
    (final_state : option (string * Z)) (term_list : list Basic) (res_tens : ndarray Num) :
  assemble_sos_fast einsum_list_of order gamma_val excluded_cases final_state term_list
  = Ok res_tens ->
  exists fcs,
    Forall2 (term_contribution einsum_list_of excluded_cases final_state) term_list fcs
    /\ Forall (addable (repeat 3%nat order) (result_dtype gamma_val)) fcs
    /\ forall i, data res_tens i = added fcs zero i.
Proof.
  intros Hrun. unfold assemble_sos_fast in Hrun.
  by apply (contraction_loop order gamma_val) in Hrun.
Qed.

End Contracted_cells.

(** X19 at two terms without divergences, whose contractions are the
    scalar 1: every cell is two. *)
Lemma X19_contracted_cells_witness :
  exists res_tens fcs,
    assemble_sos_fast (H := examples.integer_arrays)
      (fun _ => Ok (examples.esp_einsum_list, mkfloat 1 0, []))
      2 fzero None None [examples.alpha_xx_term; examples.alpha_xx_term] = Ok res_tens
    /\ length fcs = 2%nat
    /\ data res_tens [0; 1]%nat = added (H := examples.integer_arrays) fcs 0%Z [0; 1]%nat.
Proof.
  destruct (assemble_sos_fast (H := examples.integer_arrays)
              (fun _ => Ok (examples.esp_einsum_list, mkfloat 1 0, []))
              2 fzero None None [examples.alpha_xx_term; examples.alpha_xx_term])
    as [res_tens|e] eqn:Hrun; [|vm_compute in Hrun; discriminate Hrun].
  destruct (X19_contracted_cells (H := examples.integer_arrays)
              (fun _ => Ok (examples.esp_einsum_list, mkfloat 1 0, []))
              2 fzero None None [examples.alpha_xx_term; examples.alpha_xx_term]
              res_tens Hrun) as (fcs & Hall & _ & Hcells).
  exists res_tens, fcs. split; [reflexivity|]. split; [|apply Hcells].
  apply Forall2_length in Hall. symmetry. exact Hall.
Defined.

(** ** Requests that become equal are solved once *)

Section Shared_requests.
Context `{Collaborators}.

Lemma filter_all {A} (P : A -> bool) (l : list A) :
  (forall x, x ∈ l -> P x = true) -> List.filter P l = l.
Proof.
  induction l as [|x l IH]; intros Hall; simpl; [done|].
  rewrite (Hall x) by by left. rewrite IH; [done|]. intros y Hy. apply Hall. by right.
Qed.

Lemma filter_none {A} (P : A -> bool) (l : list A) :
  (forall x, x ∈ l -> P x = false) -> List.filter P l = [].
Proof.
  induction l as [|x l IH]; intros Hall; simpl; [done|].
  rewrite (Hall x) by by left. apply IH. intros y Hy. apply Hall. by right.
Qed.

Lemma filter_app_list {A} (P : A -> bool) (l k : list A) :
  List.filter P (l ++ k) = List.filter P l ++ List.filter P k.
Proof.
  induction l as [|x l IH]; simpl; [done|]. destruct (P x); simpl; by rewrite IH.
Qed.

Lemma traced_bind_fst_ok {A B} (m : traced A) (f : A -> traced B) a :
  snd m = Ok a -> fst (traced_bind m f) = fst m ++ fst (f a).
Proof. unfold traced_bind. by intros ->. Qed.

(** The solves for one key in the loop over the grouped requests. *)
Lemma grouped_trace final_state (d : list (solve_key * list Z)) (key : solve_key) :
  forall rd rd',
    NoDup (map fst d) ->
    snd (traced_for d (fun kv rd => resolve_request final_state (fst kv) (snd kv) rd) rd)
    = Ok rd' ->
    (key ∉ map fst d ->
     List.filter (fun call => key_eqb (for_request call) key)
       (fst (traced_for d (fun kv rd => resolve_request final_state (fst kv) (snd kv) rd)
               rd)) = [])
    /\ (key ∈ map fst d -> kind key = MTM ->
        List.filter (fun call => key_eqb (for_request call) key)
          (fst (traced_for d (fun kv rd => resolve_request final_state (fst kv) (snd kv) rd)
                  rd))
        = map (fun c => solve_for key (mtms (key_op_type key) c))
              (index_tuples (repeat 3%nat (op_dim (key_op_type key))))).
Proof.
  induction d as [|[k v] d IH]; intros rd rd' Hnd Hrun.
  - split; [done|]. by intros ?%elem_of_nil.
  - simpl in Hnd. apply NoDup_cons in Hnd as [Hk Hnd].
    cbn [traced_for] in *. apply traced_bind_ok in Hrun as (rd1 & Hstep & Hrest).
    destruct (IH rd1 rd' Hnd Hrest) as [Hout Hin].
    rewrite (traced_bind_fst_ok _ _ rd1 Hstep). cbn [fst snd] in *.
    rewrite !filter_app_list. split.
    + intros [Hne Hnin]%not_elem_of_cons. rewrite Hout by done. rewrite app_nil_r.
      apply filter_none. intros call Hcall. apply resolve_request_trace in Hcall as [-> _].
      apply not_true_iff_false. intros Heq%key_eqb_eq. by destruct Hne.
    + intros [->|Hmem]%elem_of_cons Hkind.
      * rewrite Hout by done. rewrite app_nil_r. rewrite filter_all.
        -- by rewrite (mtm_path final_state k v rd Hkind).
        -- intros call Hcall. apply resolve_request_trace in Hcall as [-> _].
           by apply key_eqb_eq.
      * rewrite Hin by done. rewrite filter_none; [done|].
        intros call Hcall. apply resolve_request_trace in Hcall as [-> _].
        apply not_true_iff_false. intros ->%key_eqb_eq. done.
Qed.

(** X20. In the resolution of one tree that returns: for a request of
    kind [MTM], the solves dispatched for the key that the request
    becomes are exactly one solve per component tuple of the operator,
    however many requests of the tree become this key. *)
Theorem X20_shared_requests_solved_once
    (final_state : option (string * Z)) (all_omegas : list (Basic * Basic))
    (gamma_val : float) (root_expr : Basic) (rvecs_dict : list (symbolic_key * Z))
    (response_dict : list (Z * response)) (kv : symbolic_key * Z) (key : solve_key) :
  let run := resolve_tree final_state all_omegas gamma_val [(root_expr, rvecs_dict)] in
  snd run = Ok response_dict ->
  kv ∈ rvecs_dict -> substitute_key all_omegas gamma_val (fst kv) = Ok key ->
  kind key = MTM ->
  List.filter (fun call => key_eqb (for_request call) key) (fst run)
  = map (fun c => solve_for key (mtms (key_op_type key) c))
        (index_tuples (repeat 3%nat (op_dim (key_op_type key)))).
Proof.
  intros run Hrun Hkv Hkey Hkind. subst run. unfold resolve_tree in *.
  cbn [traced_for] in *.
  apply traced_bind_ok in Hrun as (rd1 & Hbody & _).
  rewrite (traced_bind_fst_ok _ _ rd1 Hbody). cbn [fst snd traced_ret] in *.
  rewrite app_nil_r.
  destruct (group_requests all_omegas gamma_val rvecs_dict) as [d|e] eqn:Hgroup.
  2:{ by rewrite traced_bind_lift_err in Hbody. }
  rewrite traced_bind_lift_ok in Hbody |- *.
  pose proof Hgroup as Hgroup'. unfold group_requests in Hgroup'.
  apply group_loop in Hgroup' as (Hnd & _ & _); [|constructor].
  unfold group_requests in Hgroup. apply group_requests_keys in Hgroup as [_ Hkeys].
  destruct (grouped_trace final_state d key [] rd1 Hnd Hbody) as [_ Hin].
  apply Hin; [|done]. by apply (Hkeys kv).
Qed.

End Shared_requests.

(** X20 at a tree in which two requests become the same key: three
    solves for it. *)
Lemma X20_shared_requests_solved_once_witness :
  List.filter
    (fun call =>
       key_eqb (for_request call)
         {| kind := MTM; key_op_type := "electric"; key_frequency := fzero;
            key_damping := fzero; key_rest := [] |})
    (fst (resolve_tree (H := examples.five_states) None [] fzero
            [(Integer 0,
              [({| sym_kind := MTM; sym_op_type := "electric";
                   sym_frequency := examples.w; sym_damping := Integer 0;
                   sym_rest := [] |}, 0%Z);
               ({| sym_kind := MTM; sym_op_type := "electric";
                   sym_frequency := examples.w_o; sym_damping := Integer 0;
                   sym_rest := [] |}, 1%Z)])]))
  = map (fun c => solve_for (H := examples.five_states)
                    {| kind := MTM; key_op_type := "electric"; key_frequency := fzero;
                       key_damping := fzero; key_rest := [] |} tt)
        [[0]; [1]; [2]]%nat.
Proof.
  apply (X20_shared_requests_solved_once (H := examples.five_states) None [] fzero
           (Integer 0)
           [({| sym_kind := MTM; sym_op_type := "electric";
                sym_frequency := examples.w; sym_damping := Integer 0;
                sym_rest := [] |}, 0%Z);
            ({| sym_kind := MTM; sym_op_type := "electric";
                sym_frequency := examples.w_o; sym_damping := Integer 0;
                sym_rest := [] |}, 1%Z)]
           (bind_placeholders (H := examples.five_states) [] [0%Z; 1%Z]
              (@Build_response examples.five_states [3%nat]
                 [([0%nat], tt); ([1%nat], tt); ([2%nat], tt)]))
           ({| sym_kind := MTM; sym_op_type := "electric";
               sym_frequency := examples.w_o; sym_damping := Integer 0;
               sym_rest := [] |}, 1%Z)).
  - vm_compute. reflexivity.
  - apply list_elem_of_further, list_elem_of_here.
  - vm_compute. reflexivity.
  - reflexivity.
Defined.
